(** * The symbol resolver of Breakpad: basic_source_line_resolver.cc

    A shallow embedding of [BasicSourceLineResolver::Module] and of the
    helpers of its translation unit: the symbol-file loader
    ([LoadMapFromMemory] and the record parsers), the location-expression
    evaluator ([EvaluateDwarfExpression]), parameter recovery
    ([ReadFuncParams]), and the three queries [LookupAddress],
    [FindWindowsFrameInfo] and [FindCFIFrameInfo].

    Conventions.
    - [uint64_t], [MemAddr] and [size_t] values are integers of [Z] in
      [0, 2^64); every wrap-around of the source is written out with [u64].
      [long] is 64 bits wide (LP64), so [strtoul] and [strtoull] agree.
    - C strings are values of [string]; a token handed out by [strtok_r] is
      the string of its characters, not a slice of the buffer, so that a
      record parser sees its own line and nothing of the buffer around it.
    - BPLOG output is kept for [LogParseError] only.
    - A [std::vector] is a list whose last element is [back()].
    - An early [return 0], [return NULL] or [return false] is [None] in the
      option monad, or the value itself where the function is a plain
      case analysis. *)

From Stdlib Require Import ZArith Lia Ascii String HexString.
From stdpp Require Import base option list sorting strings gmap.

Local Open Scope string_scope.
Local Open Scope list_scope.
Local Open Scope Z_scope.

(** ** Machine integers *)

Definition u64 (x : Z) : Z := x mod 2 ^ 64.

Definition UINT64_MAX : Z := 2 ^ 64 - 1.
Definition LONG_MAX : Z := 2 ^ 63 - 1.
Definition LONG_MIN : Z := - 2 ^ 63.

(** [(long long) x] for an unsigned 64-bit [x]. *)
Definition to_int64 (x : Z) : Z :=
  let y := u64 x in if y <? 2 ^ 63 then y else y - 2 ^ 64.

(** [(int) x]. *)
Definition to_int32 (x : Z) : Z :=
  let y := x mod 2 ^ 32 in if y <? 2 ^ 31 then y else y - 2 ^ 32.

(** The value of a signed integer of [bits] bits holding the low [bits]
    bits of [x], converted to [uint64_t]: [char c = x & 0xff; (uint64_t) c]
    for [bits = 8] ([char] is signed, as on x86), and likewise [short] and
    [int]. *)
Definition sign_extend (bits : Z) (x : Z) : Z :=
  let y := Z.land x (2 ^ bits - 1) in
  u64 (if y <? 2 ^ (bits - 1) then y else y - 2 ^ bits).

Definition in_range (lo hi x : Z) : bool := (lo <=? x) && (x <=? hi).

(** The overflow-friendly range comparison of the source:
    [address >= base && address - base < size], over [uint64_t]. *)
Definition address_in_range (address base size : Z) : bool :=
  (base <=? address) && (u64 (address - base) <? size).

(** ** Strings *)

Definition NUL : ascii := "000"%char.
Definition CR : ascii := "013"%char.
Definition LF : ascii := "010"%char.

Fixpoint strchr (s : string) (c : ascii) : bool :=
  match s with
  | EmptyString => false
  | String d s' => if Ascii.eqb c d then true else strchr s' c
  end.

(** [haystack.find(needle) != string::npos]. *)
Fixpoint str_contains (needle haystack : string) : bool :=
  String.prefix needle haystack ||
  match haystack with
  | EmptyString => false
  | String _ h' => str_contains needle h'
  end.

(** The digits a stream in [std::hex] mode prints for an unsigned value. *)
Definition hex_digits (n : Z) : string :=
  match n with
  | Zpos p => HexString.Raw.of_pos p EmptyString
  | _ => "0"
  end.

(** ** DWARF operation codes (common/dwarf/dwarf2enums.h)

    The header is not part of this translation unit; the values are those
    of the DWARF standard, which the header transcribes. *)

Definition DW_OP_addr : Z := 0x03.
Definition DW_OP_deref : Z := 0x06.
Definition DW_OP_const1u : Z := 0x08.
Definition DW_OP_const1s : Z := 0x09.
Definition DW_OP_const2u : Z := 0x0a.
Definition DW_OP_const2s : Z := 0x0b.
Definition DW_OP_const4u : Z := 0x0c.
Definition DW_OP_const4s : Z := 0x0d.
Definition DW_OP_const8u : Z := 0x0e.
Definition DW_OP_const8s : Z := 0x0f.
Definition DW_OP_dup : Z := 0x12.
Definition DW_OP_drop : Z := 0x13.
Definition DW_OP_over : Z := 0x14.
Definition DW_OP_pick : Z := 0x15.
Definition DW_OP_swap : Z := 0x16.
Definition DW_OP_rot : Z := 0x17.
Definition DW_OP_xderef : Z := 0x18.
Definition DW_OP_plus : Z := 0x22.
Definition DW_OP_lit0 : Z := 0x30.
Definition DW_OP_lit31 : Z := 0x4f.
Definition DW_OP_reg0 : Z := 0x50.
Definition DW_OP_reg31 : Z := 0x6f.
Definition DW_OP_breg0 : Z := 0x70.
Definition DW_OP_breg31 : Z := 0x8f.
Definition DW_OP_regX : Z := 0x90.
Definition DW_OP_fbreg : Z := 0x91.
Definition DW_OP_deref_size : Z := 0x94.
Definition DW_OP_xderef_size : Z := 0x95.

(** ** Data model (basic_source_line_resolver_types.h, stack_frame.h)

    The declarations are outside this translation unit; the records carry
    the members the code of this file reads and writes. *)

Record ArgLocInfo := {
  op : Z;
  locValue1 : Z;
  locValue2 : Z
}.

Module FuncParam.
Record t := {
  typeName : string;
  typeSize : Z;
  paramName : string;
  locs : list ArgLocInfo
}.
End FuncParam.

Module ParamInfo.
Record t := {
  typeName : string;
  typeSize : Z;
  paramName : string;
  value : string
}.
End ParamInfo.

(** [StackFrame]: the members the resolver reads ([instruction], the
    module's [base_address()], [GetFrameBase()], [GetRegValue(i)]) and the
    output members it fills in. *)
Record StackFrame := {
  instruction : Z;
  base_address : Z;
  GetFrameBase : Z;
  GetRegValue : Z -> Z;
  function_name : string;
  function_base : Z;
  source_file_name : string;
  source_line : Z;
  source_line_base : Z;
  params : list ParamInfo.t
}.

(** [MemoryRegion]: the two overloads of [GetMemoryAtAddress] the code
    uses; [None] is a failed read, which leaves the out-parameter as it
    was. *)
Record MemoryRegion := {
  GetMemoryAtAddress64 : Z -> option Z;
  GetMemoryAtAddress8 : Z -> option Z
}.

(** ** Vector helpers *)

Definition back {A} (s : list A) : option A := last s.
Definition pop_back {A} (s : list A) : list A := take (length s - 1)%nat s.
Definition push_back {A} (s : list A) (x : A) : list A := s ++ [x].

(** [std::swap(s[i], s[j])]. *)
Definition swap_at {A} (i j : nat) (s : list A) : list A :=
  match s !! i, s !! j with
  | Some a, Some b => <[j := a]> (<[i := b]> s)
  | _, _ => s
  end.

(** ** Frame-info carriers and external collaborators *)

Inductive StackInfoTypes := STACK_INFO_FRAME_DATA | STACK_INFO_FPO.

(** Modelled from the spec: the [WindowsFrameInfo] carrier of
    windows_frame_info.h, which is not in this translation unit. The spec
    lists its kind, the optional [parameter_size] with its validity flag
    and the opaque program string; the covered range is kept by the
    container that stores it. A default-constructed carrier has no kind,
    no valid member and zeroed contents. *)
Record WindowsFrameInfo := {
  type_ : option StackInfoTypes;
  valid : Z;
  parameter_size : Z;
  program_string : string
}.

Definition VALID_NONE : Z := 0.
Definition VALID_PARAMETER_SIZE : Z := 1.

Definition new_WindowsFrameInfo : WindowsFrameInfo :=
  {| type_ := None; valid := VALID_NONE; parameter_size := 0;
     program_string := EmptyString |}.

(** What this translation unit takes from outside: the two frame-info
    parsers, the stream formatting that is not integer formatting, and the
    contents of the two locals that the code can read before it has
    assigned them. Everything below is stated for every instance. *)
Class Externals := {
  (** [uint64_t val;] in [EvaluateDwarfExpression]. *)
  indeterminate_val : Z;
  (** [uint8_t byte_value;] in [ReadFuncParams]. *)
  indeterminate_byte : Z;
  (** [oss << std::hex << (void * ) value]. *)
  show_pointer : Z -> string;
  (** [oss << *(float * )&value] and [oss << *(double * )&value]. *)
  show_float : Z -> string;
  show_double : Z -> string;
  (** [CFIFrameInfo], [new CFIFrameInfo()] and
      [ParseCFIRuleSet(rules, frame_info)], which returns whether the
      rule-string parsed and leaves its effect in [frame_info]. *)
  CFIFrameInfo : Type;
  new_CFIFrameInfo : CFIFrameInfo;
  ParseCFIRuleSet : string -> CFIFrameInfo -> bool * CFIFrameInfo;
  (** [WindowsFrameInfo::ParseFromString(line, type, rva, code_size)]:
      [None] is the null result. *)
  ParseFromString :
    string -> option (StackInfoTypes * Z * Z * WindowsFrameInfo)
}.

(** An instance to run the definitions on concrete inputs: the rule set
    is the list of the rule-strings applied so far, a rule-string is
    accepted when it holds a colon (every rule is [name: expression]),
    [STACK WIN] records are all rejected, and nothing is formatted. *)
Definition sample_ParseCFIRuleSet (rules : string) (info : list string)
  : bool * list string :=
  if strchr rules ":"%char then (true, push_back info rules)
  else (false, info).

Definition sample_externals : Externals :=
  {| indeterminate_val := 0;
     indeterminate_byte := 0;
     show_pointer := fun _ => EmptyString;
     show_float := fun _ => EmptyString;
     show_double := fun _ => EmptyString;
     CFIFrameInfo := list string;
     new_CFIFrameInfo := [];
     ParseCFIRuleSet := sample_ParseCFIRuleSet;
     ParseFromString := fun _ => None |}.

(** ** The location-expression evaluator *)

Section Evaluator.
Context `{Externals}.

(** One turn of the [for] loop of [EvaluateDwarfExpression], on the
    vector [s] and the local [val]. [None] is [return 0]. The chain of
    [if]/[else if] computes the pair in the first component; the
    [s.push_back(val)] that ends the loop body follows it in every case
    that did not return. *)
Definition EvaluateDwarfExpression_step (frame : StackFrame)
    (memory : MemoryRegion) (ai : ArgLocInfo) (s : list Z) (val : Z)
  : option (list Z * Z) :=
  let op := ai.(op) mod 256 in
  let base := frame.(GetFrameBase) in
  '(s, val) ←
    (if in_range DW_OP_reg0 DW_OP_reg31 op then
       Some (s, frame.(GetRegValue) (op - DW_OP_reg0))
     else if op =? DW_OP_fbreg then
       Some (s, u64 (to_int64 base + to_int64 ai.(locValue1)))
     else if op =? DW_OP_addr then
       Some (s, ai.(locValue1))
     else if op =? DW_OP_regX then
       Some (s, frame.(GetRegValue) ai.(locValue1))
     else if in_range DW_OP_breg0 DW_OP_breg31 op then
       Some (s, u64 (to_int64 (frame.(GetRegValue) (op - DW_OP_breg0))
                     + to_int64 ai.(locValue1)))
     else if op =? DW_OP_deref then
       addr ← back s;
       v ← memory.(GetMemoryAtAddress64) addr;
       Some (pop_back s, v)
     else if in_range DW_OP_lit0 DW_OP_lit31 op then
       Some (s, op - DW_OP_lit0)
     else if (op =? DW_OP_const1u) || (op =? DW_OP_const2u)
             || (op =? DW_OP_const4u) || (op =? DW_OP_const8u) then
       Some (s, ai.(locValue1))
     else if op =? DW_OP_const1s then
       Some (s, sign_extend 8 ai.(locValue1))
     else if op =? DW_OP_const2s then
       Some (s, sign_extend 16 ai.(locValue1))
     else if op =? DW_OP_const4s then
       Some (s, sign_extend 32 ai.(locValue1))
     else if op =? DW_OP_const8s then
       Some (s, ai.(locValue1))
     else if op =? DW_OP_dup then
       top ← back s;
       Some (push_back s top, val)
     else if op =? DW_OP_drop then
       _ ← back s;
       Some (pop_back s, val)
     else if op =? DW_OP_pick then
       _ ← back s;
       let index := (length s - 1)%nat in
       if Z.of_nat index <? ai.(locValue1) then None
       else
         x ← s !! Z.to_nat (Z.of_nat index - ai.(locValue1));
         Some (push_back s x, val)
     else if op =? DW_OP_over then
       if (length s <? 2)%nat then None
       else
         x ← s !! (length s - 2)%nat;
         Some (push_back s x, val)
     else if op =? DW_OP_swap then
       if (length s <? 2)%nat then None
       else Some (swap_at (length s - 1) (length s - 2) s, val)
     else if op =? DW_OP_rot then
       if (length s <? 3)%nat then None
       else
         Some (swap_at (length s - 1) (length s - 2)
                 (swap_at (length s - 1) (length s - 3) s), val)
     else if (op =? DW_OP_deref_size) || (op =? DW_OP_xderef)
             || (op =? DW_OP_xderef_size) then
       None
     else
       Some (s, val));
  Some (push_back s val, val).

Fixpoint EvaluateDwarfExpression_loop (frame : StackFrame)
    (memory : MemoryRegion) (loc : list ArgLocInfo) (s : list Z) (val : Z)
  : option (list Z) :=
  match loc with
  | [] => Some s
  | ai :: loc' =>
      '(s', val') ← EvaluateDwarfExpression_step frame memory ai s val;
      EvaluateDwarfExpression_loop frame memory loc' s' val'
  end.

Definition EvaluateDwarfExpression (frame : StackFrame)
    (memory : MemoryRegion) (loc : list ArgLocInfo) : Z :=
  match
    EvaluateDwarfExpression_loop frame memory loc [] indeterminate_val
  with
  | None => 0
  | Some s => default 0 (back s)
  end.

End Evaluator.

(** ** Parameter recovery *)

Section ReadFuncParams.
Context `{Externals}.

(** The loop [for (int j = 1; j < param.typeSize; ++j)] of the byte
    dump, with [n] turns left. A failed read leaves [byte_value] as it
    was. *)
Fixpoint dump_bytes (memory : MemoryRegion) (addr : Z) (n : nat) (j : Z)
    (byte_value : Z) (oss : string) : string :=
  match n with
  | O => oss
  | S n' =>
      let byte_value :=
        default byte_value (memory.(GetMemoryAtAddress8) (u64 (addr + j))) in
      dump_bytes memory addr n' (j + 1) byte_value
        (oss +:+ " " +:+ hex_digits byte_value)
  end.

(** The text built in [oss] for a parameter whose word [value] was read
    at [addr]. *)
Definition format_param (memory : MemoryRegion) (typeName : string)
    (typeSize : Z) (addr value : Z) : string :=
  let show_simple_type := (typeSize mod 2 =? 0) && (typeSize <=? 8) in
  let oss :=
    if show_simple_type then
      if str_contains "*" typeName || str_contains "&" typeName then
        show_pointer value
      else if str_contains "float" typeName then show_float value
      else if str_contains "double" typeName then show_double value
      else
        let bitsz := Z.shiftl (8 - typeSize) 3 in
        let mask := Z.shiftr (u64 (Z.shiftl UINT64_MAX bitsz)) bitsz in
        "0x" +:+ hex_digits (Z.land value mask)
    else EmptyString in
  if addr =? 0 then oss
  else
    let byte_value :=
      default indeterminate_byte (memory.(GetMemoryAtAddress8) addr) in
    let oss := if show_simple_type then oss +:+ ", " else oss in
    let oss := oss +:+ "hex:" +:+ hex_digits byte_value in
    dump_bytes memory addr (Z.to_nat (typeSize - 1)) 1 byte_value oss.

(** The [for] loop of [ReadFuncParams] over the parameters still to
    visit; the result is [info] when the function returns, whether at
    the end of the loop or by the [return] after a failed read. *)
Fixpoint ReadFuncParams_loop (frame : StackFrame) (memory : MemoryRegion)
    (params : list FuncParam.t) (info : list ParamInfo.t)
  : list ParamInfo.t :=
  match params with
  | [] => info
  | p :: params' =>
      let param value :=
        {| ParamInfo.typeName := p.(FuncParam.typeName);
           ParamInfo.typeSize := p.(FuncParam.typeSize);
           ParamInfo.paramName := p.(FuncParam.paramName);
           ParamInfo.value := value |} in
      if p.(FuncParam.typeSize) <=? 0 then
        ReadFuncParams_loop frame memory params'
          (push_back info (param EmptyString))
      else
        let addr := EvaluateDwarfExpression frame memory p.(FuncParam.locs) in
        if addr =? 0 then ReadFuncParams_loop frame memory params' info
        else
          match memory.(GetMemoryAtAddress64) addr with
          | None => info
          | Some value =>
              let text :=
                format_param memory p.(FuncParam.typeName)
                  p.(FuncParam.typeSize) addr value in
              ReadFuncParams_loop frame memory params'
                (push_back info (param text))
          end
  end.

(** [memory] is a pointer that may be null. *)
Definition ReadFuncParams (frame : StackFrame) (params : list FuncParam.t)
    (memory : option MemoryRegion) (info : list ParamInfo.t)
  : list ParamInfo.t :=
  match memory, params with
  | None, _ | _, [] => info
  | Some memory, _ => ReadFuncParams_loop frame memory params []
  end.

End ReadFuncParams.

(** ** Containers *)

(** The containment range map of range_map.h and contained_range_map.h,
    which are not in this translation unit: half-open ranges
    [[base, base + size)], each with a value. The list holds the stored
    ranges, the last stored first. *)
Module RangeMap.
Record Range (E : Type) := mkRange { base : Z; size : Z; entry : E }.
Arguments mkRange {E}.
Arguments base {E}.
Arguments size {E}.
Arguments entry {E}.

Definition t (E : Type) := list (Range E).

Definition covers {E} (address : Z) (r : Range E) : bool :=
  address_in_range address r.(base) r.(size).

Definition crosses (b1 s1 b2 s2 : Z) : bool :=
  let overlap := (b1 <? b2 + s2) && (b2 <? b1 + s1) in
  let within := (b2 <=? b1) && (b1 + s1 <=? b2 + s2) in
  let around := (b1 <=? b2) && (b2 + s2 <=? b1 + s1) in
  overlap && negb within && negb around.

(** Modelled from the spec: [StoreRange] of the containment range map,
    which is not in this translation unit. It fails, with no effect, when
    [size] is 0, when [base + size] overflows, or when the new range would
    cross a stored one, that is overlap it without nesting within it or
    containing it. *)
Definition StoreRange {E} (b s : Z) (e : E) (m : t E) : bool * t E :=
  if (s =? 0) || (UINT64_MAX <? b + s)
     || existsb (fun r => crosses b s r.(base) r.(size)) m
  then (false, m)
  else (true, mkRange b s e :: m).

(** The best of the candidates under [better], the later stored of two
    that tie. *)
Definition innermost {E} (better : Range E -> Range E -> bool)
    (candidates : list (Range E)) : option (Range E) :=
  foldr (fun r acc =>
           match acc with
           | Some r' => if better r' r then Some r' else Some r
           | None => Some r
           end) None candidates.

Definition result {E} (r : Range E) : E * Z * Z :=
  (r.(entry), r.(base), r.(size)).

(** Modelled from the spec: [RetrieveRange] of the containment range map,
    which is not in this translation unit. It gives the innermost stored
    range that covers the address, with its base and size, or nothing; of
    two ranges that tie, the one stored last. A failed retrieval leaves its
    out-parameters untouched. *)
Definition RetrieveRange {E} (m : t E) (address : Z) : option (E * Z * Z) :=
  result <$> innermost (fun r' r => r'.(size) <? r.(size))
               (List.filter (covers address) m).

(** Modelled from the spec: [RetrieveNearestRange] of the containment
    range map, which is not in this translation unit. It gives the
    innermost stored range whose base is at most the address: the one with
    the greatest such base, the smallest of those, and of two that tie the
    one stored last. A failed retrieval leaves its out-parameters
    untouched. *)
Definition RetrieveNearestRange {E} (m : t E) (address : Z)
  : option (E * Z * Z) :=
  result <$> innermost
               (fun r' r => (r.(base) <? r'.(base))
                            || ((r'.(base) =? r.(base))
                                && (r'.(size) <? r.(size))))
               (List.filter (fun r => r.(base) <=? address) m).
End RangeMap.

(** The flat map of address_map.h, which is not in this translation unit:
    entries keyed by single addresses. The list holds the stored entries,
    the last stored first. *)
Module AddressMap.
Definition t (E : Type) := list (Z * E).

(** Modelled from the spec: [Store] of the flat map, which is not in this
    translation unit. Addresses are unique: it fails, with no effect, on an
    address already present. *)
Definition Store {E} (address : Z) (e : E) (m : t E) : bool * t E :=
  if existsb (fun kv => kv.1 =? address) m then (false, m)
  else (true, (address, e) :: m).

(** Modelled from the spec: [Retrieve] of the flat map, which is not in
    this translation unit. It gives the entry with the greatest key at most
    the address, with that key, or nothing. *)
Definition Retrieve {E} (m : t E) (address : Z) : option (E * Z) :=
  (fun kv : Z * E => (kv.2, kv.1)) <$>
    foldr (fun kv acc =>
             match acc with
             | Some kv' => if kv.1 <? kv'.1 then Some kv' else Some kv
             | None => Some kv
             end) None
      (List.filter (fun kv : Z * E => kv.1 <=? address) m).
End AddressMap.

(** [std::map<MemAddr, string>]: the pairs in ascending key order, each
    key once. *)
Module StdMap.
Definition t (V : Type) := list (Z * V).

(** [m[k] = v]. *)
Fixpoint assign {V} (k : Z) (v : V) (m : t V) : t V :=
  match m with
  | [] => [(k, v)]
  | (k', v') :: m' =>
      if k <? k' then (k, v) :: m
      else if k =? k' then (k, v) :: m'
      else (k', v') :: assign k v m'
  end.

(** The part of the map from [m.lower_bound(k)] to [m.end()]. *)
Fixpoint lower_bound {V} (k : Z) (m : t V) : t V :=
  match m with
  | [] => []
  | (k', v') :: m' => if k' <? k then lower_bound k m' else m
  end.

Definition keys {V} (m : t V) : list Z := m.*1.
End StdMap.

(** ** The module index *)

Module Line.
Record t := {
  address : Z;
  size : Z;
  source_file_id : Z;
  line : Z
}.
End Line.

Module Function.
Record t := {
  name : string;
  address : Z;
  size : Z;
  parameter_size : Z;
  params : list FuncParam.t;
  lines : RangeMap.t Line.t
}.
End Function.

Module PublicSymbol.
Record t := {
  name : string;
  address : Z;
  parameter_size : Z
}.
End PublicSymbol.

(** [BasicSourceLineResolver::Module]. A [linked_ptr] held by a container
    is the object itself; [windows_frame_info_] is the array of containers
    indexed by the kind of frame info. *)
Record ResolverModule := {
  is_corrupt_ : bool;
  files_ : gmap Z string;
  functions_ : RangeMap.t Function.t;
  public_symbols_ : AddressMap.t PublicSymbol.t;
  windows_frame_info_ : StackInfoTypes -> RangeMap.t WindowsFrameInfo;
  cfi_initial_rules_ : RangeMap.t string;
  cfi_delta_rules_ : StdMap.t string
}.

Section Queries.
Context `{Externals}.

(** A module as its constructor leaves it. *)
Definition new_Module : ResolverModule :=
  {| is_corrupt_ := false;
     files_ := ∅;
     functions_ := [];
     public_symbols_ := [];
     windows_frame_info_ := fun _ => [];
     cfi_initial_rules_ := [];
     cfi_delta_rules_ := [] |}.

Definition set_function (frame : StackFrame) (name : string) (base : Z)
  : StackFrame :=
  {| instruction := frame.(instruction);
     base_address := frame.(base_address);
     GetFrameBase := frame.(GetFrameBase);
     GetRegValue := frame.(GetRegValue);
     function_name := name;
     function_base := base;
     source_file_name := frame.(source_file_name);
     source_line := frame.(source_line);
     source_line_base := frame.(source_line_base);
     params := frame.(params) |}.

Definition set_params (frame : StackFrame) (info : list ParamInfo.t)
  : StackFrame :=
  {| instruction := frame.(instruction);
     base_address := frame.(base_address);
     GetFrameBase := frame.(GetFrameBase);
     GetRegValue := frame.(GetRegValue);
     function_name := frame.(function_name);
     function_base := frame.(function_base);
     source_file_name := frame.(source_file_name);
     source_line := frame.(source_line);
     source_line_base := frame.(source_line_base);
     params := info |}.

Definition set_source (frame : StackFrame) (file : string) (line base : Z)
  : StackFrame :=
  {| instruction := frame.(instruction);
     base_address := frame.(base_address);
     GetFrameBase := frame.(GetFrameBase);
     GetRegValue := frame.(GetRegValue);
     function_name := frame.(function_name);
     function_base := frame.(function_base);
     source_file_name := file;
     source_line := line;
     source_line_base := base;
     params := frame.(params) |}.

(** [LookupAddress]; the result is the frame as the function leaves
    it. The second test of the [else if] reads [func], which is null
    exactly when [RetrieveNearestRange] failed, and [function_base] only
    when it succeeded. *)
Definition LookupAddress (m : ResolverModule) (memory : option MemoryRegion)
    (frame : StackFrame) : StackFrame :=
  let address := u64 (frame.(instruction) - frame.(base_address)) in
  let nearest := RangeMap.RetrieveNearestRange m.(functions_) address in
  match nearest with
  | Some (func, function_base, function_size) =>
      if address_in_range address function_base function_size then
        let frame :=
          set_function frame func.(Function.name)
            (u64 (frame.(base_address) + function_base)) in
        let frame :=
          set_params frame
            (ReadFuncParams frame func.(Function.params) memory
               frame.(params)) in
        match RangeMap.RetrieveRange func.(Function.lines) address with
        | Some (line, line_base, _) =>
            set_source frame
              (default frame.(source_file_name)
                 (m.(files_) !! line.(Line.source_file_id)))
              line.(Line.line)
              (u64 (frame.(base_address) + line_base))
        | None => frame
        end
      else
        match AddressMap.Retrieve m.(public_symbols_) address with
        | Some (public_symbol, public_address) =>
            if function_base <? public_address then
              set_function frame public_symbol.(PublicSymbol.name)
                (u64 (frame.(base_address) + public_address))
            else frame
        | None => frame
        end
  | None =>
      match AddressMap.Retrieve m.(public_symbols_) address with
      | Some (public_symbol, public_address) =>
          set_function frame public_symbol.(PublicSymbol.name)
            (u64 (frame.(base_address) + public_address))
      | None => frame
      end
  end.

Definition set_parameter_size (info : WindowsFrameInfo) (n : Z)
  : WindowsFrameInfo :=
  {| type_ := info.(type_); valid := info.(valid); parameter_size := n;
     program_string := info.(program_string) |}.

Definition set_valid (info : WindowsFrameInfo) (v : Z) : WindowsFrameInfo :=
  {| type_ := info.(type_); valid := v;
     parameter_size := info.(parameter_size);
     program_string := info.(program_string) |}.

(** [FindWindowsFrameInfo]; [None] is [return NULL]. The carrier that the
    last [if] writes to is released without being returned. *)
Definition FindWindowsFrameInfo (m : ResolverModule) (frame : StackFrame)
  : option WindowsFrameInfo :=
  let address := u64 (frame.(instruction) - frame.(base_address)) in
  let result := new_WindowsFrameInfo in
  let frame_info :=
    match RangeMap.RetrieveRange
            (m.(windows_frame_info_) STACK_INFO_FRAME_DATA) address with
    | Some found => Some found
    | None =>
        RangeMap.RetrieveRange
          (m.(windows_frame_info_) STACK_INFO_FPO) address
    end in
  match frame_info with
  | Some (frame_info, _, _) => Some frame_info
  | None =>
      let nearest := RangeMap.RetrieveNearestRange m.(functions_) address in
      match nearest with
      | Some (function, function_base, function_size) =>
          if address_in_range address function_base function_size then
            let result :=
              set_parameter_size result function.(Function.parameter_size) in
            Some (set_valid result
                    (Z.lor result.(valid) VALID_PARAMETER_SIZE))
          else
            let result :=
              match AddressMap.Retrieve m.(public_symbols_) address with
              | Some (public_symbol, public_address) =>
                  if function_base <? public_address then
                    set_parameter_size result
                      public_symbol.(PublicSymbol.parameter_size)
                  else result
              | None => result
              end in
            None
      | None =>
          let result :=
            match AddressMap.Retrieve m.(public_symbols_) address with
            | Some (public_symbol, _) =>
                set_parameter_size result
                  public_symbol.(PublicSymbol.parameter_size)
            | None => result
            end in
          None
      end
  end.

(** The [while] loop of [FindCFIFrameInfo], from the iterator [delta]
    (the rest of the map from it) on. The result of [ParseCFIRuleSet] is
    not looked at. *)
Fixpoint apply_delta_rules (delta : StdMap.t string) (address : Z)
    (rules : CFIFrameInfo) : CFIFrameInfo :=
  match delta with
  | [] => rules
  | (first, second) :: delta' =>
      if first <=? address then
        apply_delta_rules delta' address (ParseCFIRuleSet second rules).2
      else rules
  end.

(** [FindCFIFrameInfo]; [None] is [return NULL]. *)
Definition FindCFIFrameInfo (m : ResolverModule) (frame : StackFrame)
  : option CFIFrameInfo :=
  let address := u64 (frame.(instruction) - frame.(base_address)) in
  '(initial_rules, initial_base, _) ←
    RangeMap.RetrieveRange m.(cfi_initial_rules_) address;
  let '(ok, rules) := ParseCFIRuleSet initial_rules new_CFIFrameInfo in
  if negb ok then None
  else
    let delta := StdMap.lower_bound initial_base m.(cfi_delta_rules_) in
    Some (apply_delta_rules delta address rules).

End Queries.


(** ** Constants of the file *)

Definition kWhitespace : string :=
  String " " (String CR (String LF EmptyString)).
Definition kMaxErrorsPrinted : Z := 5.
Definition kMaxErrorsBeforeBailing : Z := 100.

(** The delimiters ["\r\n"] of the calls of [strtok_r] that split
    lines. *)
Definition kLineBreaks : string := String CR (String LF EmptyString).

(** ** The C library: [strtok_r], [strtol], [strtoull] *)

(** [s + strspn(s, delim)]. *)
Fixpoint skip_delims (delim s : string) : string :=
  match s with
  | String c s' => if strchr delim c then skip_delims delim s' else s
  | EmptyString => s
  end.

(** The characters of [s] before the first one of [delim], and the string
    that starts after that delimiter (the empty string when [s] has
    none). *)
Fixpoint take_token (delim s : string) : string * string :=
  match s with
  | String c s' =>
      if strchr delim c then (EmptyString, s')
      else let '(token, rest) := take_token delim s' in (String c token, rest)
  | EmptyString => (EmptyString, EmptyString)
  end.

(** [strtok_r(s, delim, &save_ptr)] on the string [s] (or on the string at
    [save_ptr] when the first argument is null): the token and the string
    left at [save_ptr], or [None] for a null result. *)
Definition strtok_r (delim s : string) : option (string * string) :=
  match skip_delims delim s with
  | EmptyString => None
  | s' => Some (take_token delim s')
  end.

(** All the tokens that repeated calls of [strtok_r] hand out. *)
Fixpoint strtok_all (delim s : string) : list string :=
  match s with
  | EmptyString => []
  | String c s' =>
      let rest := strtok_all delim s' in
      if strchr delim c then rest
      else
        match s' with
        | String c' _ =>
            if strchr delim c' then String c EmptyString :: rest
            else
              match rest with
              | token :: rest' => String c token :: rest'
              | [] => [String c EmptyString]
              end
        | EmptyString => [String c EmptyString]
        end
  end.

Definition isspace (c : ascii) : bool :=
  let n := Z.of_N (N_of_ascii c) in (n =? 32) || in_range 9 13 n.

(** The value of [c] as a digit, for a letter in either case. *)
Definition digit_value (c : ascii) : option Z :=
  let n := Z.of_N (N_of_ascii c) in
  if in_range 48 57 n then Some (n - 48)
  else if in_range 97 122 n then Some (n - 97 + 10)
  else if in_range 65 90 n then Some (n - 65 + 10)
  else None.

Definition is_digit (base : Z) (c : ascii) : bool :=
  match digit_value c with
  | Some d => d <? base
  | None => false
  end.

(** The digits at the start of [s]: their value on top of [acc], whether
    there was one, and the string after them. *)
Fixpoint read_digits (base : Z) (s : string) (acc : Z) (any : bool)
  : Z * bool * string :=
  match s with
  | String c s' =>
      match digit_value c with
      | Some d =>
          if d <? base then read_digits base s' (acc * base + d) true
          else (acc, any, s)
      | None => (acc, any, s)
      end
  | EmptyString => (acc, any, s)
  end.

(** The subject sequence of [strtol] and [strtoull]: white space, an
    optional sign, for base 16 an optional [0x] that a hexadecimal digit
    follows, then digits. The result is the sign, the magnitude and the
    string at [endptr]; with no digit there is no conversion, and [endptr]
    is the argument itself. *)
Definition scan_number (base : Z) (s : string) : option (bool * Z * string) :=
  let s1 := skip_delims (String " " (String "009" (String "010" (String "011"
              (String "012" (String "013" EmptyString)))))) s in
  let '(negative, s2) :=
    match s1 with
    | String "-" r => (true, r)
    | String "+" r => (false, r)
    | _ => (false, s1)
    end in
  let s3 :=
    match s2 with
    | String "0" (String x (String d r)) =>
        if (base =? 16) && (Ascii.eqb x "x" || Ascii.eqb x "X")
           && is_digit 16 d
        then String d r else s2
    | _ => s2
    end in
  let '(magnitude, any, rest) := read_digits base s3 0 false in
  if any then Some (negative, magnitude, rest) else None.

(** [strtoull(s, &after, base)], which is [strtoul] too: the value and the
    string at [after]. *)
Definition strtoull (s : string) (base : Z) : Z * string :=
  match scan_number base s with
  | None => (0, s)
  | Some (negative, magnitude, rest) =>
      if UINT64_MAX <? magnitude then (UINT64_MAX, rest)
      else (if negative then u64 (- magnitude) else magnitude, rest)
  end.

(** [strtol(s, &after, base)]. *)
Definition strtol (s : string) (base : Z) : Z * string :=
  match scan_number base s with
  | None => (0, s)
  | Some (negative, magnitude, rest) =>
      if negative then
        (if - magnitude <? LONG_MIN then LONG_MIN else - magnitude, rest)
      else (if LONG_MAX <? magnitude then LONG_MAX else magnitude, rest)
  end.

(** ** The buffer: C strings and [strtok_r] in place *)

(** A pointer into the buffer is an index into its bytes. A byte read
    past the last byte of the buffer, which is no byte of the caller's, is
    taken as a terminator, and a write there is lost. *)
Definition byte_at (memory : list ascii) (p : nat) : ascii :=
  default NUL (memory !! p).

(** The C string at the start of a buffer: the characters before its
    first terminator. *)
Fixpoint c_str (memory_buffer : list ascii) : string :=
  match memory_buffer with
  | [] => EmptyString
  | c :: memory_buffer' =>
      if Ascii.eqb c NUL then EmptyString else String c (c_str memory_buffer')
  end.

(** The C string at the pointer [p]. *)
Definition c_str_at (memory : list ascii) (p : nat) : string :=
  c_str (drop p memory).

(** [strspn(s, accept)], [s] being the bytes from the pointer on. *)
Fixpoint strspn (s : list ascii) (accept : string) : nat :=
  match s with
  | c :: s' =>
      if negb (Ascii.eqb c NUL) && strchr accept c
      then S (strspn s' accept) else O
  | [] => O
  end.

(** [strcspn(s, reject)], [s] being the bytes from the pointer on. *)
Fixpoint strcspn (s : list ascii) (reject : string) : nat :=
  match s with
  | c :: s' =>
      if Ascii.eqb c NUL || strchr reject c
      then O else S (strcspn s' reject)
  | [] => O
  end.

(** [strtok_r(s, delim, &save_ptr)] in the buffer [memory]; [s] is the
    pointer that the call starts from: its first argument, or [save_ptr]
    when that argument is null. The result is the token as a pointer
    ([None] for null), the buffer with the terminator that the call wrote
    after the token, and [save_ptr]. *)
Definition strtok_r_at (memory : list ascii) (s : nat) (delim : string)
  : option nat * list ascii * nat :=
  let s := (s + strspn (drop s memory) delim)%nat in
  if Ascii.eqb (byte_at memory s) NUL then (None, memory, s)
  else
    let end_of_token := (s + strcspn (drop s memory) delim)%nat in
    if Ascii.eqb (byte_at memory end_of_token) NUL
    then (Some s, memory, end_of_token)
    else (Some s, <[end_of_token := NUL]> memory, S end_of_token).

(** ** Lexical helpers (processor/tokenize.h) *)

(** The splits of [Tokenize] with [remaining] fields still to fill;
    [fuel] bounds the number of splits by the length of the line. *)
Fixpoint Tokenize_loop (fuel : nat) (separators : string) (remaining : Z)
    (line : string) : list string :=
  match fuel with
  | O => []
  | S fuel' =>
      if remaining <=? 0 then []
      else if remaining =? 1 then
        match line with
        | EmptyString => []
        | _ => [line]
        end
      else
        match strtok_r separators line with
        | None => []
        | Some (token, rest) =>
            token :: Tokenize_loop fuel' separators (remaining - 1)
                       (skip_delims separators rest)
        end
  end.

(** Modelled from the spec: [Tokenize] of processor/tokenize.h, which is
    not in this translation unit. It splits a line by a delimiter set into
    up to [max_tokens] tokens: each of the first [max_tokens - 1] splits
    consumes one run of delimiters, and the last field is the remainder,
    which may hold delimiters. The result says whether exactly
    [max_tokens] tokens came out; an empty remainder gives no token. *)
Definition Tokenize (line separators : string) (max_tokens : Z)
  : bool * list string :=
  let tokens :=
    Tokenize_loop (S (String.length line)) separators max_tokens
      (skip_delims separators line) in
  (Z.of_nat (length tokens) =? max_tokens, tokens).

(** ** Record parsers: [SymbolParseHelper] *)

Module SymbolParseHelper.

(** [after_number] is never null here; [strchr] finds the terminator of
    [kWhitespace] when [after_number] is at the end of its string. *)
Definition IsValidAfterNumber (after_number : string) : bool :=
  match after_number with
  | EmptyString => true
  | String c _ => strchr kWhitespace c
  end.

(** [!after_number || *after_number]. *)
Definition not_at_end (after_number : string) : bool :=
  match after_number with
  | EmptyString => false
  | String _ _ => true
  end.

(** [file_line] with its prefix of [n] characters skipped. *)
Definition skip_prefix (n : nat) (line : string) : string :=
  String.substring n (String.length line - n) line.

(** [FILE <id> <filename>]: the index and the file name. *)
Definition ParseFile (file_line : string) : option (Z * string) :=
  let file_line := skip_prefix 5 file_line in
  let '(ok, tokens) := Tokenize file_line kWhitespace 2 in
  if negb ok then None
  else
    token0 ← tokens !! 0%nat;
    filename ← tokens !! 1%nat;
    let '(index, after_number) := strtol token0 10 in
    if negb (IsValidAfterNumber after_number) || (index <? 0)
       || (index =? LONG_MAX)
    then None
    else Some (index, filename).

(** The operations of one location expression, [loc_exp[j]] onwards.
    [None] is the [params.clear(); return false] of the inner loop. A
    member of [ArgLocInfo] with no field in the text is taken as 0. *)
Fixpoint ParseLocOps (loc_exp : list string) : option (list ArgLocInfo) :=
  match loc_exp with
  | [] => Some []
  | e :: loc_exp' =>
      let locs := (Tokenize e ":" 4).2 in
      token0 ← locs !! 0%nat;
      let '(op, after_number) := strtoull token0 16 in
      if not_at_end after_number then None
      else
        let field i :=
          match locs !! i with
          | Some token =>
              let '(v, after_number) := strtoull token 16 in
              if not_at_end after_number then 0 else v
          | None => 0
          end in
        ops ← ParseLocOps loc_exp';
        Some ({| op := op; locValue1 := field 1%nat; locValue2 := field 2%nat |}
              :: ops)
  end.

(** The loop of [ParseFuncParam] from [pv[i]] on, with the parameters
    pushed so far; the result is [params] when the function returns. Its
    caller does not look at the returned flag. *)
Fixpoint ParseFuncParam (pv : list string) (params : list FuncParam.t)
  : list FuncParam.t :=
  match pv with
  | [] => params
  | a :: pv' =>
      let '(ok, args) := Tokenize a "@" 4 in
      match ok, args with
      | true, [typeName; typeSize; paramName; locExpr] =>
          let '(size, after_number) := strtoull typeSize 16 in
          let size := if not_at_end after_number then 0 else size in
          let loc_exp := (Tokenize locExpr "$" (2 ^ 31 - 1)).2 in
          match loc_exp with
          | [] => params
          | _ =>
              match ParseLocOps loc_exp with
              | None => []
              | Some locs =>
                  ParseFuncParam pv'
                    (push_back params
                       {| FuncParam.typeName := typeName;
                          FuncParam.typeSize := size;
                          FuncParam.paramName := paramName;
                          FuncParam.locs := locs |})
              end
          end
      | _, _ => []
      end
  end.

(** [FUNC <address> <size> <stack_param_size> <name>], with the optional
    parameter metadata after [#]. *)
Definition ParseFunction (function_line : string)
  : option (Z * Z * Z * string * list FuncParam.t) :=
  let function_line := skip_prefix 5 function_line in
  let segments := (Tokenize function_line "#" 3).2 in
  segment0 ← segments !! 0%nat;
  let '(ok, tokens) := Tokenize segment0 kWhitespace 4 in
  match ok, tokens with
  | true, [token0; token1; token2; name] =>
      let '(address, after_number) := strtoull token0 16 in
      if negb (IsValidAfterNumber after_number) || (address =? UINT64_MAX)
      then None
      else
        let '(size, after_number) := strtoull token1 16 in
        if negb (IsValidAfterNumber after_number) || (size =? UINT64_MAX)
        then None
        else
          let '(stack_param_size, after_number) := strtol token2 16 in
          if negb (IsValidAfterNumber after_number)
             || (stack_param_size =? LONG_MAX) || (stack_param_size <? 0)
          then None
          else
            let params :=
              match segments with
              | [_; segment1; segment2] =>
                  let '(num_params, after_number) := strtoull segment1 16 in
                  if not_at_end after_number then []
                  else
                    let '(ok, argsArray) :=
                      Tokenize segment2 "#" (to_int32 num_params) in
                    if negb ok then [] else ParseFuncParam argsArray []
              | _ => []
              end in
            Some (address, size, stack_param_size, name, params)
  | _, _ => None
  end.

(** [<address> <size> <line number> <source file id>]. *)
Definition ParseLine (line_line : string) : option (Z * Z * Z * Z) :=
  let '(ok, tokens) := Tokenize line_line kWhitespace 4 in
  match ok, tokens with
  | true, [token0; token1; token2; token3] =>
      let '(address, after_number) := strtoull token0 16 in
      if negb (IsValidAfterNumber after_number) || (address =? UINT64_MAX)
      then None
      else
        let '(size, after_number) := strtoull token1 16 in
        if negb (IsValidAfterNumber after_number) || (size =? UINT64_MAX)
        then None
        else
          let '(line_number, after_number) := strtol token2 10 in
          if negb (IsValidAfterNumber after_number)
             || (line_number =? LONG_MAX)
          then None
          else
            let '(source_file, after_number) := strtol token3 10 in
            if negb (IsValidAfterNumber after_number) || (source_file <? 0)
               || (source_file =? LONG_MAX)
            then None
            else if line_number <? 0 then None
            else Some (address, size, line_number, source_file)
  | _, _ => None
  end.

(** [PUBLIC <address> <stack_param_size> <name>]. *)
Definition ParsePublicSymbol (public_line : string)
  : option (Z * Z * string) :=
  let public_line := skip_prefix 7 public_line in
  let '(ok, tokens) := Tokenize public_line kWhitespace 3 in
  match ok, tokens with
  | true, [token0; token1; name] =>
      let '(address, after_number) := strtoull token0 16 in
      if negb (IsValidAfterNumber after_number) || (address =? UINT64_MAX)
      then None
      else
        let '(stack_param_size, after_number) := strtol token1 16 in
        if negb (IsValidAfterNumber after_number)
           || (stack_param_size =? LONG_MAX) || (stack_param_size <? 0)
        then None
        else Some (address, stack_param_size, name)
  | _, _ => None
  end.

End SymbolParseHelper.

(** ** Record parsers: [BasicSourceLineResolver::Module] *)

Definition set_is_corrupt (m : ResolverModule) (b : bool) : ResolverModule :=
  {| is_corrupt_ := b; files_ := m.(files_); functions_ := m.(functions_);
     public_symbols_ := m.(public_symbols_);
     windows_frame_info_ := m.(windows_frame_info_);
     cfi_initial_rules_ := m.(cfi_initial_rules_);
     cfi_delta_rules_ := m.(cfi_delta_rules_) |}.

Definition set_files (m : ResolverModule) (files : gmap Z string)
  : ResolverModule :=
  {| is_corrupt_ := m.(is_corrupt_); files_ := files;
     functions_ := m.(functions_);
     public_symbols_ := m.(public_symbols_);
     windows_frame_info_ := m.(windows_frame_info_);
     cfi_initial_rules_ := m.(cfi_initial_rules_);
     cfi_delta_rules_ := m.(cfi_delta_rules_) |}.

Definition set_functions (m : ResolverModule)
    (functions : RangeMap.t Function.t) : ResolverModule :=
  {| is_corrupt_ := m.(is_corrupt_); files_ := m.(files_);
     functions_ := functions;
     public_symbols_ := m.(public_symbols_);
     windows_frame_info_ := m.(windows_frame_info_);
     cfi_initial_rules_ := m.(cfi_initial_rules_);
     cfi_delta_rules_ := m.(cfi_delta_rules_) |}.

Definition set_public_symbols (m : ResolverModule)
    (symbols : AddressMap.t PublicSymbol.t) : ResolverModule :=
  {| is_corrupt_ := m.(is_corrupt_); files_ := m.(files_);
     functions_ := m.(functions_);
     public_symbols_ := symbols;
     windows_frame_info_ := m.(windows_frame_info_);
     cfi_initial_rules_ := m.(cfi_initial_rules_);
     cfi_delta_rules_ := m.(cfi_delta_rules_) |}.

Definition set_windows_frame_info (m : ResolverModule)
    (info : StackInfoTypes -> RangeMap.t WindowsFrameInfo) : ResolverModule :=
  {| is_corrupt_ := m.(is_corrupt_); files_ := m.(files_);
     functions_ := m.(functions_);
     public_symbols_ := m.(public_symbols_);
     windows_frame_info_ := info;
     cfi_initial_rules_ := m.(cfi_initial_rules_);
     cfi_delta_rules_ := m.(cfi_delta_rules_) |}.

Definition set_cfi_initial_rules (m : ResolverModule)
    (rules : RangeMap.t string) : ResolverModule :=
  {| is_corrupt_ := m.(is_corrupt_); files_ := m.(files_);
     functions_ := m.(functions_);
     public_symbols_ := m.(public_symbols_);
     windows_frame_info_ := m.(windows_frame_info_);
     cfi_initial_rules_ := rules;
     cfi_delta_rules_ := m.(cfi_delta_rules_) |}.

Definition set_cfi_delta_rules (m : ResolverModule)
    (rules : StdMap.t string) : ResolverModule :=
  {| is_corrupt_ := m.(is_corrupt_); files_ := m.(files_);
     functions_ := m.(functions_);
     public_symbols_ := m.(public_symbols_);
     windows_frame_info_ := m.(windows_frame_info_);
     cfi_initial_rules_ := m.(cfi_initial_rules_);
     cfi_delta_rules_ := rules |}.

Definition kind_eqb (a b : StackInfoTypes) : bool :=
  match a, b with
  | STACK_INFO_FRAME_DATA, STACK_INFO_FRAME_DATA => true
  | STACK_INFO_FPO, STACK_INFO_FPO => true
  | _, _ => false
  end.

(** [files_.insert(make_pair(index, filename))] keeps an index that is
    already there. *)
Definition ParseFile (m : ResolverModule) (file_line : string)
  : bool * ResolverModule :=
  match SymbolParseHelper.ParseFile file_line with
  | Some (index, filename) =>
      (true,
       match m.(files_) !! index with
       | Some _ => m
       | None => set_files m (<[index := filename]> m.(files_))
       end)
  | None => (false, m)
  end.

(** [None] is the null result. *)
Definition ParseFunction (function_line : string) : option Function.t :=
  '(address, size, stack_param_size, name, params) ←
    SymbolParseHelper.ParseFunction function_line;
  Some {| Function.name := name; Function.address := address;
          Function.size := size;
          Function.parameter_size := stack_param_size;
          Function.params := params; Function.lines := [] |}.

Definition ParseLine (line_line : string) : option Line.t :=
  '(address, size, line_number, source_file) ←
    SymbolParseHelper.ParseLine line_line;
  Some {| Line.address := address; Line.size := size;
          Line.source_file_id := source_file; Line.line := line_number |}.

Definition ParsePublicSymbol (m : ResolverModule) (public_line : string)
  : bool * ResolverModule :=
  match SymbolParseHelper.ParsePublicSymbol public_line with
  | Some (address, stack_param_size, name) =>
      if address =? 0 then (true, m)
      else
        let symbol :=
          {| PublicSymbol.name := name; PublicSymbol.address := address;
             PublicSymbol.parameter_size := stack_param_size |} in
        let '(stored, symbols) :=
          AddressMap.Store address symbol m.(public_symbols_) in
        (stored, set_public_symbols m symbols)
  | None => (false, m)
  end.

(** [stack_info_line] points into the buffer [memory], after the
    platform token, and the calls of [strtok_r] write their terminators
    there. The rules are taken as they stand; the results of [StoreRange]
    are not looked at. The result holds the buffer as the calls left
    it. *)
Definition ParseCFIFrameInfo (m : ResolverModule) (memory : list ascii)
    (stack_info_line : nat) : bool * ResolverModule * list ascii :=
  let '(init_or_address, memory, cursor) :=
    strtok_r_at memory stack_info_line kWhitespace in
  match init_or_address with
  | None => (false, m, memory)
  | Some init_or_address =>
      if String.eqb (c_str_at memory init_or_address) "INIT" then
        let '(address_field, memory, cursor) :=
          strtok_r_at memory cursor kWhitespace in
        match address_field with
        | None => (false, m, memory)
        | Some address_field =>
            let '(size_field, memory, cursor) :=
              strtok_r_at memory cursor kWhitespace in
            match size_field with
            | None => (false, m, memory)
            | Some size_field =>
                let '(initial_rules, memory, cursor) :=
                  strtok_r_at memory cursor kLineBreaks in
                match initial_rules with
                | None => (false, m, memory)
                | Some initial_rules =>
                    let address :=
                      (strtoull (c_str_at memory address_field) 16).1 in
                    let size :=
                      (strtoull (c_str_at memory size_field) 16).1 in
                    (true,
                     set_cfi_initial_rules m
                       (RangeMap.StoreRange address size
                          (c_str_at memory initial_rules)
                          m.(cfi_initial_rules_)).2,
                     memory)
                end
            end
        end
      else
        let address_field := init_or_address in
        let '(delta_rules, memory, cursor) :=
          strtok_r_at memory cursor kLineBreaks in
        match delta_rules with
        | None => (false, m, memory)
        | Some delta_rules =>
            let address :=
              (strtoull (c_str_at memory address_field) 16).1 in
            (true,
             set_cfi_delta_rules m
               (StdMap.assign address (c_str_at memory delta_rules)
                  m.(cfi_delta_rules_)),
             memory)
        end
  end.

Section Loader.
Context `{Externals}.

(** [ParseStackInfo]; [stack_info_line] points at the line in the buffer
    [memory]. The loop over the platform token stops at a character of
    [kWhitespace] or at the terminator of the line, and
    [*stack_info_line++ = '\0'] steps over either: after a token that ends
    the line, [stack_info_line] points at the byte after the terminator of
    the line, where the next line of the buffer starts.
    [WindowsFrameInfo::ParseFromString] takes its text by value and writes
    nothing to the buffer. *)
Definition ParseStackInfo (m : ResolverModule) (memory : list ascii)
    (stack_info_line : nat) : bool * ResolverModule * list ascii :=
  let stack_info_line := (stack_info_line + 6)%nat in
  let stack_info_line :=
    (stack_info_line + strspn (drop stack_info_line memory) " ")%nat in
  let platform := stack_info_line in
  let stack_info_line :=
    (stack_info_line
     + strcspn (drop stack_info_line memory) kWhitespace)%nat in
  let memory := <[stack_info_line := NUL]> memory in
  let stack_info_line := S stack_info_line in
  if String.eqb (c_str_at memory platform) "WIN" then
    match ParseFromString (c_str_at memory stack_info_line) with
    | None => (false, m, memory)
    | Some (type, rva, code_size, stack_frame_info) =>
        (true,
         set_windows_frame_info m
           (fun kind =>
              if kind_eqb kind type then
                (RangeMap.StoreRange rva code_size stack_frame_info
                   (m.(windows_frame_info_) kind)).2
              else m.(windows_frame_info_) kind),
         memory)
    end
  else if String.eqb (c_str_at memory platform) "CFI" then
    ParseCFIFrameInfo m memory stack_info_line
  else (false, m, memory).

(** ** The loader *)

(** [cur_func] when it is not null. The [linked_ptr] shares its object
    with [functions_] when [StoreRange] took it: the object is then the
    entry stored last, and a line stored through [cur_func] is a line of
    that entry. When [StoreRange] refused it, no container holds the
    object. *)
Inductive CurFunc :=
  | InFunctions
  | Unstored (f : Function.t).

(** The operands of a statement [BPLOG(ERROR) << ...], in their order. *)
Inductive Operand :=
  | Text (s : string)
  | Number (n : Z).

Definition Message : Type := list Operand.

(** The module under construction and the locals of [LoadMapFromMemory];
    [log] holds what was given to [BPLOG]. The line at [buffer] is kept as
    a string; [line_end] holds the bytes of the buffer from the terminator
    of that line to the last byte, and [save_ptr] points into them. No
    byte before them is read again. *)
Record LoadState := {
  module_ : ResolverModule;
  cur_func : option CurFunc;
  line_number : Z;
  num_errors : Z;
  log : list Message;
  line_end : list ascii;
  save_ptr : nat
}.

Definition set_log (st : LoadState) (messages : list Message) : LoadState :=
  {| module_ := st.(module_); cur_func := st.(cur_func);
     line_number := st.(line_number); num_errors := st.(num_errors);
     log := messages;
     line_end := st.(line_end); save_ptr := st.(save_ptr) |}.

(** [BPLOG(ERROR) << ...]. *)
Definition BPLOG (st : LoadState) (message : Message) : LoadState :=
  set_log st (push_back st.(log) message).

Definition LogParseError (message : string) (at_line : Z)
    (st : LoadState) : LoadState :=
  let incremented := st.(num_errors) + 1 in
  {| module_ := st.(module_); cur_func := st.(cur_func);
     line_number := st.(line_number);
     num_errors := incremented;
     log := if incremented <=? kMaxErrorsPrinted then
              if 0 <? at_line then
                push_back st.(log)
                  [Text "Line "; Number at_line; Text ": "; Text message]
              else push_back st.(log) [Text message]
            else st.(log);
     line_end := st.(line_end); save_ptr := st.(save_ptr) |}.

Definition set_module (st : LoadState) (m : ResolverModule) : LoadState :=
  {| module_ := m; cur_func := st.(cur_func);
     line_number := st.(line_number); num_errors := st.(num_errors);
     log := st.(log);
     line_end := st.(line_end); save_ptr := st.(save_ptr) |}.

Definition set_cur_func (st : LoadState) (f : option CurFunc) : LoadState :=
  {| module_ := st.(module_); cur_func := f;
     line_number := st.(line_number); num_errors := st.(num_errors);
     log := st.(log);
     line_end := st.(line_end); save_ptr := st.(save_ptr) |}.

Definition next_line (st : LoadState) : LoadState :=
  {| module_ := st.(module_); cur_func := st.(cur_func);
     line_number := st.(line_number) + 1; num_errors := st.(num_errors);
     log := st.(log);
     line_end := st.(line_end); save_ptr := st.(save_ptr) |}.

Definition set_line_end (st : LoadState) (bytes : list ascii) : LoadState :=
  {| module_ := st.(module_); cur_func := st.(cur_func);
     line_number := st.(line_number); num_errors := st.(num_errors);
     log := st.(log);
     line_end := bytes; save_ptr := st.(save_ptr) |}.

Definition set_save_ptr (st : LoadState) (p : nat) : LoadState :=
  {| module_ := st.(module_); cur_func := st.(cur_func);
     line_number := st.(line_number); num_errors := st.(num_errors);
     log := st.(log);
     line_end := st.(line_end); save_ptr := p |}.

Definition add_line (f : Function.t) (line : Line.t) : Function.t :=
  {| Function.name := f.(Function.name);
     Function.address := f.(Function.address);
     Function.size := f.(Function.size);
     Function.parameter_size := f.(Function.parameter_size);
     Function.params := f.(Function.params);
     Function.lines :=
       (RangeMap.StoreRange line.(Line.address) line.(Line.size) line
          f.(Function.lines)).2 |}.

(** [cur_func->lines.StoreRange(line->address, line->size, line)]. *)
Definition store_line (st : LoadState) (cur : CurFunc) (line : Line.t)
  : LoadState :=
  match cur with
  | InFunctions =>
      match st.(module_).(functions_) with
      | r :: functions =>
          set_module st
            (set_functions st.(module_)
               (RangeMap.mkRange r.(RangeMap.base) r.(RangeMap.size)
                  (add_line r.(RangeMap.entry) line) :: functions))
      | [] => st
      end
  | Unstored f => set_cur_func st (Some (Unstored (add_line f line)))
  end.

(** The body of the [while] loop of [LoadMapFromMemory] after
    [++line_number], up to the test of [num_errors]; [buffer] is the line
    at the pointer [buffer]. [ParseStackInfo] is given the buffer from
    that pointer on: the line and the bytes from its terminator on, which
    are then what the call left of them. What the other parsers write, they
    write into the line. *)
Definition ParseRecord (buffer : string) (st : LoadState) : LoadState :=
  if String.prefix "FILE " buffer then
    let '(ok, m) := ParseFile st.(module_) buffer in
    let st := set_module st m in
    if negb ok then
      LogParseError "ParseFile on buffer failed" st.(line_number) st
    else st
  else if String.prefix "STACK " buffer then
    let memory := list_ascii_of_string buffer ++ st.(line_end) in
    let '(ok, m, memory) := ParseStackInfo st.(module_) memory 0 in
    let st :=
      set_line_end (set_module st m) (drop (String.length buffer) memory) in
    if negb ok then LogParseError "ParseStackInfo failed" st.(line_number) st
    else st
  else if String.prefix "FUNC " buffer then
    match ParseFunction buffer with
    | None =>
        let st := set_cur_func st None in
        LogParseError "ParseFunction failed" st.(line_number) st
    | Some f =>
        let '(stored, functions) :=
          RangeMap.StoreRange f.(Function.address) f.(Function.size) f
            st.(module_).(functions_) in
        let st := set_module st (set_functions st.(module_) functions) in
        set_cur_func st (Some (if stored then InFunctions else Unstored f))
    end
  else if String.prefix "PUBLIC " buffer then
    let st := set_cur_func st None in
    let '(ok, m) := ParsePublicSymbol st.(module_) buffer in
    let st := set_module st m in
    if negb ok then
      LogParseError "ParsePublicSymbol failed" st.(line_number) st
    else st
  else if String.prefix "MODULE " buffer then st
  else if String.prefix "INFO " buffer then st
  else
    match st.(cur_func) with
    | None =>
        LogParseError "Found source line data without a function"
          st.(line_number) st
    | Some cur =>
        match ParseLine buffer with
        | None => LogParseError "ParseLine failed" st.(line_number) st
        | Some line => store_line st cur line
        end
    end.

(** [buffer = strtok_r(s, "\r\n", &save_ptr)], [s] being a pointer into
    [memory]: the line, and the state with the bytes from the terminator of
    that line and [save_ptr] in them. With no line left, [save_ptr] points
    at the terminator that stopped the call. *)
Definition strtok_r_line (memory : list ascii) (s : nat) (st : LoadState)
  : option string * LoadState :=
  let '(buffer, memory, save_ptr) := strtok_r_at memory s kLineBreaks in
  match buffer with
  | Some buffer =>
      let line := c_str_at memory buffer in
      let terminator := (buffer + String.length line)%nat in
      (Some line,
       set_save_ptr (set_line_end st (drop terminator memory))
         (save_ptr - terminator))
  | None => (None, set_save_ptr (set_line_end st (drop save_ptr memory)) 0)
  end.

Definition stopped_message : Message :=
  [Text "Parsing symbol file stopped for there are too many error occurs."].

(** The [while] loop, [buffer] being the result of the call of [strtok_r]
    before it. Each turn takes a byte at least off the bytes after
    [save_ptr]; [fuel] bounds the number of turns. *)
Fixpoint ParseRecords (fuel : nat) (buffer : option string) (st : LoadState)
  : LoadState :=
  match buffer, fuel with
  | Some buffer, S fuel' =>
      let st := ParseRecord buffer (next_line st) in
      if kMaxErrorsBeforeBailing <? st.(num_errors) then
        BPLOG st stopped_message
      else
        let '(buffer, st) := strtok_r_line st.(line_end) st.(save_ptr) st in
        ParseRecords fuel' buffer st
  | _, _ => st
  end.

(** Lines 129 to 189: the first call of [strtok_r] and the loop. *)
Definition ParseLines (memory_buffer : list ascii) (st : LoadState)
  : LoadState :=
  let '(buffer, st) := strtok_r_line memory_buffer 0 st in
  ParseRecords (length memory_buffer) buffer st.

(** [while (last_null_terminator > 0 &&
           memory_buffer[last_null_terminator - 1] == 0)
      last_null_terminator--;] *)
Fixpoint skip_null_terminators (memory_buffer : list ascii)
    (last_null_terminator : nat) : nat :=
  match last_null_terminator with
  | O => O
  | S l =>
      match memory_buffer !! l with
      | Some c =>
          if Ascii.eqb c NUL then skip_null_terminators memory_buffer l
          else last_null_terminator
      | None => last_null_terminator
      end
  end.

(** The [for] loop over [i < last_null_terminator]: the buffer and
    [has_null_terminator_in_the_middle]. *)
Definition replace_null_terminators (memory_buffer : list ascii)
    (last_null_terminator : nat) : list ascii * bool :=
  foldl (fun '(memory_buffer, has_null_terminator_in_the_middle) i =>
           match memory_buffer !! i with
           | Some c =>
               if Ascii.eqb c NUL then (<[i := "_"%char]> memory_buffer, true)
               else (memory_buffer, has_null_terminator_in_the_middle)
           | None => (memory_buffer, has_null_terminator_in_the_middle)
           end)
    (memory_buffer, false) (seq 0 last_null_terminator).

(** The buffer once its last byte is a terminator and the terminators in
    its middle are rewritten, the index [last_null_terminator], and
    whether one was rewritten. The buffer is not empty. *)
Definition PrepareBuffer (memory_buffer : list ascii)
  : list ascii * nat * bool :=
  let memory_buffer_size := length memory_buffer in
  let last_null_terminator := (memory_buffer_size - 1)%nat in
  let memory_buffer := <[last_null_terminator := NUL]> memory_buffer in
  let last_null_terminator :=
    skip_null_terminators memory_buffer last_null_terminator in
  let '(memory_buffer, has_null_terminator_in_the_middle) :=
    replace_null_terminators memory_buffer last_null_terminator in
  (memory_buffer, last_null_terminator, has_null_terminator_in_the_middle).

(** What [LoadMapFromMemory] leaves: its result, the module, the locals
    [line_number] and [num_errors] at the [return], and what it gave to
    [BPLOG]; and with them the buffer as it stood when the loop over the
    lines started, after the pass over its terminators (line 128). *)
Record LoadResult := {
  succeeded : bool;
  loaded : ResolverModule;
  lines_read : Z;
  errors_counted : Z;
  messages : list Message;
  buffer_at_loop : list ascii
}.

(** The locals as [LoadMapFromMemory] declares them; [save_ptr] gets its
    value from the first call of [strtok_r]. *)
Definition LoadState_init (m : ResolverModule) : LoadState :=
  {| module_ := m; cur_func := None; line_number := 0; num_errors := 0;
     log := []; line_end := []; save_ptr := 0 |}.

Definition total_message (num_errors : Z) : Message :=
  [Text "total errors in parsing symbol files: "; Number num_errors].

(** The statements after the loop: the [BPLOG] of the total,
    [is_corrupt_ = num_errors > 0; return true;]. *)
Definition LoadMapFromMemory_finish (st : LoadState)
    (memory_buffer : list ascii) : LoadResult :=
  let st := BPLOG st (total_message st.(num_errors)) in
  {| succeeded := true;
     loaded := set_is_corrupt st.(module_) (0 <? st.(num_errors));
     lines_read := st.(line_number);
     errors_counted := st.(num_errors);
     messages := st.(log);
     buffer_at_loop := memory_buffer |}.

Definition null_terminator_message : string :=
  "Null terminator is not expected in the middle of the symbol data".

Definition LoadMapFromMemory (m : ResolverModule) (memory_buffer : list ascii)
  : LoadResult :=
  let st := LoadState_init m in
  if (length memory_buffer =? 0)%nat then
    {| succeeded := true; loaded := m; lines_read := st.(line_number);
       errors_counted := st.(num_errors); messages := st.(log);
       buffer_at_loop := memory_buffer |}
  else
    let '(memory_buffer, _, has_null_terminator_in_the_middle) :=
      PrepareBuffer memory_buffer in
    let st :=
      if has_null_terminator_in_the_middle then
        LogParseError null_terminator_message st.(line_number) st
      else st in
    let st := ParseLines memory_buffer st in
    LoadMapFromMemory_finish st memory_buffer.

End Loader.

(** ** Vocabulary of the properties *)

(** The opcodes that the chain of [if]s names. *)
Definition named_opcode (o : Z) : bool :=
  in_range DW_OP_reg0 DW_OP_reg31 o || (o =? DW_OP_fbreg)
  || (o =? DW_OP_addr) || (o =? DW_OP_regX)
  || in_range DW_OP_breg0 DW_OP_breg31 o || (o =? DW_OP_deref)
  || in_range DW_OP_lit0 DW_OP_lit31 o
  || (o =? DW_OP_const1u) || (o =? DW_OP_const2u)
  || (o =? DW_OP_const4u) || (o =? DW_OP_const8u)
  || (o =? DW_OP_const1s) || (o =? DW_OP_const2s)
  || (o =? DW_OP_const4s) || (o =? DW_OP_const8s)
  || (o =? DW_OP_dup) || (o =? DW_OP_drop) || (o =? DW_OP_pick)
  || (o =? DW_OP_over) || (o =? DW_OP_swap) || (o =? DW_OP_rot)
  || (o =? DW_OP_deref_size) || (o =? DW_OP_xderef)
  || (o =? DW_OP_xderef_size).

(** The one source of the function fields that the specification allows
    for an address: the nearest function when it covers the address;
    otherwise the public symbol at the address, when no function was
    retrieved or the symbol lies past the base of the nearest one;
    otherwise nothing. *)
Inductive Evidence :=
  | FromFunction (func : Function.t) (function_base : Z)
  | FromPublicSymbol (public_symbol : PublicSymbol.t) (public_address : Z)
  | NoEvidence.

Definition evidence_at (m : ResolverModule) (address : Z) : Evidence :=
  let nearest := RangeMap.RetrieveNearestRange m.(functions_) address in
  let covering :=
    nearest ≫= fun '(func, base, size) =>
      if address_in_range address base size then Some (func, base) else None in
  match covering with
  | Some (func, base) => FromFunction func base
  | None =>
      match AddressMap.Retrieve m.(public_symbols_) address with
      | Some (public_symbol, public_address) =>
          match nearest with
          | None => FromPublicSymbol public_symbol public_address
          | Some (_, base, _) =>
              if base <? public_address
              then FromPublicSymbol public_symbol public_address
              else NoEvidence
          end
      | None => NoEvidence
      end
  end.

(** The function of [top_module]. *)
Definition top_function : Function.t :=
  {| Function.name := "top"; Function.address := UINT64_MAX - 4;
     Function.size := 4; Function.parameter_size := 0;
     Function.params := []; Function.lines := [] |}.

(** The delta rules whose keys lie in [[initial_base, address]], in the
    order of the map. *)
Definition delta_rules_between (m : ResolverModule)
    (initial_base address : Z) : list (Z * string) :=
  List.filter (fun kv : Z * string =>
                 (initial_base <=? kv.1) && (kv.1 <=? address))
    m.(cfi_delta_rules_).

(** The invariant of [std::map]: keys in strictly ascending order. *)
Definition ascending {V} (m : StdMap.t V) : Prop :=
  StronglySorted Z.lt (StdMap.keys m).

Section Vocabulary.
Context `{Externals}.

(** One delta rule applied to a rule set, as the loop of
    [FindCFIFrameInfo] does it. *)
Definition apply_rule (rules : CFIFrameInfo) (kv : Z * string)
  : CFIFrameInfo :=
  (ParseCFIRuleSet kv.2 rules).2.

(** The lines that calls of [strtok_r] with the line breaks as
    delimiters hand out of a buffer, one call after the other, when nothing
    else writes to the buffer in between. *)
Definition lines_of_buffer (memory_buffer : list ascii) : list string :=
  strtok_all kLineBreaks (c_str memory_buffer).

(** The state in which [LoadMapFromMemory] goes into its loop over the
    lines: one error is counted when the pass over the buffer rewrote a
    terminator, and the first call of [strtok_r] starts at the first byte
    of the buffer. *)
Definition LoadState_at_loop (m : ResolverModule)
    (memory_buffer : list ascii) : LoadState :=
  set_line_end
    (if (PrepareBuffer memory_buffer).2 then
       LogParseError null_terminator_message 0 (LoadState_init m)
     else LoadState_init m)
    (PrepareBuffer memory_buffer).1.1.

(** The state after the first [k] lines that [strtok_r] hands out from
    [save_ptr] on, each handled by a turn of the loop with no test of
    [num_errors]; where the buffer has fewer lines, the state after all of
    them. *)
Fixpoint ParseAll (k : nat) (st : LoadState) : LoadState :=
  match k with
  | O => st
  | S k' =>
      match strtok_r_line st.(line_end) st.(save_ptr) st with
      | (Some buffer, st) => ParseAll k' (ParseRecord buffer (next_line st))
      | (None, st) => st
      end
  end.

(** Whether [strtok_r] finds a further line. *)
Definition line_left (st : LoadState) : bool :=
  match (strtok_r_line st.(line_end) st.(save_ptr) st).1 with
  | Some _ => true
  | None => false
  end.

End Vocabulary.

(** A buffer with terminators written over some of its bytes. *)
Definition perforated (memory memory' : list ascii) : Prop :=
  length memory' = length memory
  /\ forall i c, memory' !! i = Some c -> c = NUL \/ memory !! i = Some c.

(** The number of bytes from [save_ptr] on. *)
Definition unread (st : LoadState) : nat :=
  (length st.(line_end) - st.(save_ptr))%nat.

(** The number of lines that [strtok_r] would hand out from [save_ptr]
    on, were the buffer left as it is. *)
Definition lines_unread (st : LoadState) : nat :=
  length (lines_of_buffer (drop st.(save_ptr) st.(line_end))).

(** ** Sample inputs *)

Definition op_only (o : Z) : ArgLocInfo :=
  {| op := o; locValue1 := 0; locValue2 := 0 |}.

Definition DW_OP_lit (n : Z) : ArgLocInfo := op_only (DW_OP_lit0 + n).

(** A frame at [instruction] in a module loaded at 0x400000, with
    register [i] holding [0x100 + i]. *)
Definition sample_frame (instruction : Z) : StackFrame :=
  {| instruction := instruction; base_address := 0x400000;
     GetFrameBase := 0x7000;
     GetRegValue := fun i => 0x100 + i;
     function_name := EmptyString; function_base := 0;
     source_file_name := EmptyString;
     source_line := 0; source_line_base := 0; params := [] |}.

(** A frame at [address] in a module loaded at 0. *)
Definition frame_at (address : Z) : StackFrame :=
  {| instruction := address; base_address := 0;
     GetFrameBase := 0;
     GetRegValue := fun _ => 0;
     function_name := EmptyString; function_base := 0;
     source_file_name := EmptyString;
     source_line := 0; source_line_base := 0; params := [] |}.

(** A memory that holds the word 7 at 0x103 and nothing else. *)
Definition sample_memory : MemoryRegion :=
  {| GetMemoryAtAddress64 := fun a => if a =? 0x103 then Some 7 else None;
     GetMemoryAtAddress8 := fun a => if a =? 0x103 then Some 7 else None |}.

Definition sample_param (name : string) (o : Z) : FuncParam.t :=
  {| FuncParam.typeName := "int"; FuncParam.typeSize := 4;
     FuncParam.paramName := name; FuncParam.locs := [op_only o] |}.

Definition lines_of (records : list string) : list ascii :=
  list_ascii_of_string
    (foldr (fun r acc => r +:+ String LF acc) EmptyString records).

Definition sample_symbols : list ascii :=
  lines_of
    [ "MODULE x 1 m"; "FILE 1 a.c"; "FUNC 100 20 8 f"; "100 10 42 1";
      "110 10 43 1"; "PUBLIC 200 4 g";
      "STACK CFI INIT 1000 100 .cfa: rsp 8 +";
      "STACK CFI 1010 rip: .cfa -8 +";
      "STACK CFI 1040 rbp: .cfa -16 +";
      "STACK CFI INIT 2000 100 no rule here" ].

Definition sample_module : ResolverModule :=
  Eval vm_compute in
    loaded (LoadMapFromMemory (H := sample_externals) new_Module
              sample_symbols).

(** A function at [UINT64_MAX - 4] of size 4. *)
Definition top_module : ResolverModule :=
  Eval vm_compute in
    loaded (LoadMapFromMemory (H := sample_externals) new_Module
              (lines_of ["FUNC fffffffffffffffb 4 0 top"])).

(** [n] lines that are no record and follow no [FUNC]. *)
Definition stray_lines (n : nat) : list string := replicate n "stray".

Definition hundred_strays : list ascii := lines_of (stray_lines 100).

Definition hundred_strays_then_file : list ascii :=
  lines_of (stray_lines 100 ++ ["FILE 1 a.c"; "stray"; "FILE 2 b.c"]).

(** [a\0b]: a terminator that only the last byte follows. *)
Definition buffer_ending_in_null_and_byte : list ascii :=
  ["a"; NUL; "b"]%char.

(** [ab\0\0cd\n\0\0]: two terminators in the middle, two at the end. *)
Definition buffer_with_nulls : list ascii :=
  ["a"; "b"; NUL; NUL; "c"; "d"; LF; NUL; NUL]%char.

(** ** Vocabulary of the further properties *)

Section EvaluatorVocabulary.
Context `{Externals}.

(** The loop of [EvaluateDwarfExpression] with the local [val] kept
    beside the vector. *)
Fixpoint EvaluateDwarfExpression_run (frame : StackFrame)
    (memory : MemoryRegion) (loc : list ArgLocInfo) (s : list Z) (val : Z)
  : option (list Z * Z) :=
  match loc with
  | [] => Some (s, val)
  | ai :: loc' =>
      '(s', val') ← EvaluateDwarfExpression_step frame memory ai s val;
      EvaluateDwarfExpression_run frame memory loc' s' val'
  end.

End EvaluatorVocabulary.

(** The opcodes whose branch assigns nothing to [val]: the six stack
    operations, and every opcode that the chain does not name. *)
Definition keeps_val (o : Z) : bool :=
  (o =? DW_OP_dup) || (o =? DW_OP_drop) || (o =? DW_OP_pick)
  || (o =? DW_OP_over) || (o =? DW_OP_swap) || (o =? DW_OP_rot)
  || negb (named_opcode o).

(** The size of the vector after a stack operation, or after an opcode
    that the chain does not name, on a vector of [n] values: each of them
    ends with the push of [val]. [None] is a test of the size that fails,
    where the evaluator returns 0; the operand of [pick] is an index from
    the top, below [n]. *)
Definition stack_size_after (n : nat) (ai : ArgLocInfo) : option nat :=
  let o := ai.(op) mod 256 in
  if o =? DW_OP_dup then
    if (1 <=? n)%nat then Some (n + 2)%nat else None
  else if o =? DW_OP_drop then
    if (1 <=? n)%nat then Some n else None
  else if o =? DW_OP_pick then
    if (1 <=? n)%nat && (0 <=? ai.(locValue1))
       && (ai.(locValue1) <=? Z.of_nat n - 1)
    then Some (n + 2)%nat else None
  else if o =? DW_OP_over then
    if (2 <=? n)%nat then Some (n + 2)%nat else None
  else if o =? DW_OP_swap then
    if (2 <=? n)%nat then Some (n + 1)%nat else None
  else if o =? DW_OP_rot then
    if (3 <=? n)%nat then Some (n + 1)%nat else None
  else Some (n + 1)%nat.

(** Whether a vector of [n] values passes every test of its size that a
    run of such operations makes. *)
Fixpoint stack_suffices (n : nat) (suffix : list ArgLocInfo) : bool :=
  match suffix with
  | [] => true
  | ai :: suffix' =>
      match stack_size_after n ai with
      | Some n' => stack_suffices n' suffix'
      | None => false
      end
  end.

(** An entry of the output list that carries the type name, the type size
    and the name of a parameter. *)
Definition describes (e : ParamInfo.t) (p : FuncParam.t) : Prop :=
  e.(ParamInfo.typeName) = p.(FuncParam.typeName)
  /\ e.(ParamInfo.typeSize) = p.(FuncParam.typeSize)
  /\ e.(ParamInfo.paramName) = p.(FuncParam.paramName).

(** The frame of the same registers in a module loaded [d] further. *)
Definition relocate (d : Z) (frame : StackFrame) : StackFrame :=
  {| instruction := u64 (frame.(instruction) + d);
     base_address := u64 (frame.(base_address) + d);
     GetFrameBase := frame.(GetFrameBase);
     GetRegValue := frame.(GetRegValue);
     function_name := frame.(function_name);
     function_base := frame.(function_base);
     source_file_name := frame.(source_file_name);
     source_line := frame.(source_line);
     source_line_base := frame.(source_line_base);
     params := frame.(params) |}.

(** The delta rules whose keys lie in [(from, address]], in the order of
    the map. *)
Definition delta_rules_after (m : ResolverModule) (from address : Z)
  : list (Z * string) :=
  List.filter (fun kv : Z * string => (from <? kv.1) && (kv.1 <=? address))
    m.(cfi_delta_rules_).

(** The log holds the first [kMaxErrorsPrinted] errors. *)
Definition log_is_capped (st : LoadState) : Prop :=
  0 <= st.(num_errors)
  /\ Z.of_nat (length st.(log)) = Z.min st.(num_errors) kMaxErrorsPrinted.

(** A line record as [ParseLine] accepts it, stored under its own
    address and size. *)
Definition well_formed_line (r : RangeMap.Range Line.t) : Prop :=
  let line := r.(RangeMap.entry) in
  r.(RangeMap.base) = line.(Line.address)
  /\ r.(RangeMap.size) = line.(Line.size)
  /\ 0 <= line.(Line.address) < UINT64_MAX
  /\ 0 <= line.(Line.size) < UINT64_MAX
  /\ 0 <= line.(Line.line) < LONG_MAX
  /\ 0 <= line.(Line.source_file_id) < LONG_MAX.

(** A function record as [ParseFunction] accepts it, with lines as
    [ParseLine] accepts them. *)
Definition well_formed_function (f : Function.t) : Prop :=
  0 <= f.(Function.address) < UINT64_MAX
  /\ 0 <= f.(Function.size) < UINT64_MAX
  /\ 0 <= f.(Function.parameter_size) < LONG_MAX
  /\ f.(Function.name) <> EmptyString
  /\ Forall (fun p => p.(FuncParam.locs) <> []) f.(Function.params)
  /\ Forall well_formed_line f.(Function.lines).

Definition well_formed_symbol (kv : Z * PublicSymbol.t) : Prop :=
  kv.1 = kv.2.(PublicSymbol.address)
  /\ 0 < kv.2.(PublicSymbol.address) < UINT64_MAX
  /\ 0 <= kv.2.(PublicSymbol.parameter_size) < LONG_MAX
  /\ kv.2.(PublicSymbol.name) <> EmptyString.

Definition well_formed_module (m : ResolverModule) : Prop :=
  Forall (fun r =>
            r.(RangeMap.base) = r.(RangeMap.entry).(Function.address)
            /\ r.(RangeMap.size) = r.(RangeMap.entry).(Function.size)
            /\ well_formed_function r.(RangeMap.entry)) m.(functions_)
  /\ Forall well_formed_symbol m.(public_symbols_)
  /\ (forall index filename,
        m.(files_) !! index = Some filename ->
        0 <= index < LONG_MAX /\ filename <> EmptyString).

(** The invariant of the loop: the module is well formed, and so is a
    function that [cur_func] alone holds. *)
Definition well_formed_state (st : LoadState) : Prop :=
  well_formed_module st.(module_)
  /\ match st.(cur_func) with
     | Some (Unstored f) => well_formed_function f
     | _ => True
     end.

(** A function with two parameters, the second with two operations. *)
Definition sample_function_line : string :=
  "FUNC 100 20 8 f g#2#int@4@x@91:8:0#char@1@c@50$23:1".

(** The state of the loop after a [FUNC] record that was stored. *)
Definition state_in_function : LoadState :=
  set_cur_func (LoadState_init new_Module)
    (Some InFunctions).

(** * Properties *)

(** Settles the tests of the chain of [if]s that are between constants. *)
Ltac decide_tests :=
  repeat match goal with
    | |- context [if ?b then _ else _] =>
        let v := eval vm_compute in b in
        match v with
        | true => change b with true
        | false => change b with false
        end; cbv iota
    end.

Ltac unfold_step :=
  unfold EvaluateDwarfExpression_step; cbn [op locValue1 locValue2];
  decide_tests.

(** ** Vectors *)

Lemma back_snoc {A} (s : list A) x : back (s ++ [x]) = Some x.
Proof. apply last_snoc. Qed.

Lemma pop_back_snoc {A} (s : list A) x : pop_back (s ++ [x]) = s.
Proof.
  unfold pop_back. rewrite length_app. simpl.
  replace (length s + 1 - 1)%nat with (length s) by lia.
  by rewrite take_app_length.
Qed.

Lemma back_None {A} (s : list A) : back s = None -> s = [].
Proof. unfold back. by rewrite last_None. Qed.

Lemma swap_at_app_r {A} (s t : list A) (i j : nat) :
  swap_at (length s + i) (length s + j) (s ++ t) = s ++ swap_at i j t.
Proof.
  unfold swap_at.
  rewrite !lookup_app_r by lia.
  replace (length s + i - length s)%nat with i by lia.
  replace (length s + j - length s)%nat with j by lia.
  destruct (t !! i) as [a|]; [|done].
  destruct (t !! j) as [b|]; [|done].
  rewrite !insert_app_r. done.
Qed.

(** ** The evaluator *)

Section EvaluatorFacts.
Context `{Externals}.

Lemma step_dup frame memory v1 v2 s a val :
  EvaluateDwarfExpression_step frame memory
    {| op := DW_OP_dup; locValue1 := v1; locValue2 := v2 |} (s ++ [a]) val
  = Some (s ++ [a; a; val], val).
Proof.
  unfold_step. rewrite back_snoc. cbn. unfold push_back.
  by rewrite <- !app_assoc.
Qed.

Lemma step_drop frame memory v1 v2 s a val :
  EvaluateDwarfExpression_step frame memory
    {| op := DW_OP_drop; locValue1 := v1; locValue2 := v2 |} (s ++ [a]) val
  = Some (s ++ [val], val).
Proof.
  unfold_step. rewrite back_snoc. cbn. by rewrite pop_back_snoc.
Qed.

Lemma step_over frame memory v1 v2 s a b val :
  EvaluateDwarfExpression_step frame memory
    {| op := DW_OP_over; locValue1 := v1; locValue2 := v2 |}
    (s ++ [b; a]) val
  = Some (s ++ [b; a; b; val], val).
Proof.
  unfold_step. rewrite length_app. cbn [length].
  replace (length s + 2 <? 2)%nat with false
    by (symmetry; apply Nat.ltb_ge; lia).
  replace (length s + 2 - 2)%nat with (length s + 0)%nat by lia.
  rewrite lookup_app_r by lia.
  replace (length s + 0 - length s)%nat with 0%nat by lia.
  cbn. unfold push_back. by rewrite <- !app_assoc.
Qed.

Lemma step_swap frame memory v1 v2 s a b val :
  EvaluateDwarfExpression_step frame memory
    {| op := DW_OP_swap; locValue1 := v1; locValue2 := v2 |}
    (s ++ [b; a]) val
  = Some (s ++ [a; b; val], val).
Proof.
  unfold_step. rewrite length_app. cbn [length].
  replace (length s + 2 <? 2)%nat with false
    by (symmetry; apply Nat.ltb_ge; lia).
  replace (length s + 2 - 1)%nat with (length s + 1)%nat by lia.
  replace (length s + 2 - 2)%nat with (length s + 0)%nat by lia.
  rewrite swap_at_app_r. cbn. unfold push_back. by rewrite <- !app_assoc.
Qed.

Lemma step_rot frame memory v1 v2 s a b c val :
  EvaluateDwarfExpression_step frame memory
    {| op := DW_OP_rot; locValue1 := v1; locValue2 := v2 |}
    (s ++ [c; b; a]) val
  = Some (s ++ [a; c; b; val], val).
Proof.
  unfold_step. rewrite length_app. cbn [length].
  replace (length s + 3 <? 3)%nat with false
    by (symmetry; apply Nat.ltb_ge; lia).
  replace (length s + 3 - 1)%nat with (length s + 2)%nat by lia.
  replace (length s + 3 - 2)%nat with (length s + 1)%nat by lia.
  replace (length s + 3 - 3)%nat with (length s + 0)%nat by lia.
  rewrite swap_at_app_r. cbn [swap_at lookup list_lookup insert list_insert].
  rewrite swap_at_app_r. cbn. unfold push_back. by rewrite <- !app_assoc.
Qed.

(** [pick v1] copies the element [v1] below the top, and the loop then
    pushes [val]. *)
Lemma step_pick frame memory v1 v2 s x val :
  0 <= v1 ->
  s !! (length s - 1 - Z.to_nat v1)%nat = Some x ->
  (Z.to_nat v1 < length s)%nat ->
  EvaluateDwarfExpression_step frame memory
    {| op := DW_OP_pick; locValue1 := v1; locValue2 := v2 |} s val
  = Some (s ++ [x; val], val).
Proof.
  intros Hv Hx Hlt. unfold_step.
  destruct (back s) as [top|] eqn:Hb.
  2:{ apply back_None in Hb. subst. simpl in Hlt. lia. }
  cbn.
  replace (Z.of_nat (length s - 1) <? v1) with false
    by (symmetry; apply Z.ltb_ge; lia).
  replace (Z.to_nat (Z.of_nat (length s - 1) - v1))
    with (length s - 1 - Z.to_nat v1)%nat by lia.
  rewrite Hx. cbn. unfold push_back. by rewrite <- !app_assoc.
Qed.

(** Underflow, and a [pick] that reaches below the bottom, return 0. *)
Lemma step_underflow frame memory v1 v2 s val :
  EvaluateDwarfExpression_step frame memory
    {| op := DW_OP_dup; locValue1 := v1; locValue2 := v2 |} [] val = None
  /\ EvaluateDwarfExpression_step frame memory
       {| op := DW_OP_drop; locValue1 := v1; locValue2 := v2 |} [] val = None
  /\ EvaluateDwarfExpression_step frame memory
       {| op := DW_OP_pick; locValue1 := v1; locValue2 := v2 |} [] val = None
  /\ ((length s < 2)%nat ->
      EvaluateDwarfExpression_step frame memory
        {| op := DW_OP_over; locValue1 := v1; locValue2 := v2 |} s val = None
      /\ EvaluateDwarfExpression_step frame memory
           {| op := DW_OP_swap; locValue1 := v1; locValue2 := v2 |} s val
         = None)
  /\ ((length s < 3)%nat ->
      EvaluateDwarfExpression_step frame memory
        {| op := DW_OP_rot; locValue1 := v1; locValue2 := v2 |} s val = None)
  /\ (Z.of_nat (length s) <= v1 ->
      EvaluateDwarfExpression_step frame memory
        {| op := DW_OP_pick; locValue1 := v1; locValue2 := v2 |} s val = None).
Proof.
  split; [reflexivity|]. split; [reflexivity|]. split; [reflexivity|].
  split; [|split].
  - intros Hs.
    assert ((length s <? 2)%nat = true) as Hlt by (apply Nat.ltb_lt; lia).
    split; unfold_step; by rewrite Hlt.
  - intros Hs. unfold_step.
    by replace (length s <? 3)%nat with true
      by (symmetry; apply Nat.ltb_lt; lia).
  - intros Hs. unfold_step.
    destruct (back s) eqn:Hb; [|done]. cbn.
    assert (0 < length s)%nat by (destruct s; [discriminate|simpl; lia]).
    by replace (Z.of_nat (length s - 1) <? v1) with true
      by (symmetry; apply Z.ltb_lt; lia).
Qed.

Lemma failed_step_returns_0 frame memory ai loc s val :
  EvaluateDwarfExpression_step frame memory ai s val = None ->
  EvaluateDwarfExpression_loop frame memory (ai :: loc) s val = None.
Proof. intros Hs. cbn. by rewrite Hs. Qed.

(** C3: on the program [lit5; lit7; drop] the evaluator returns 7: [drop]
    removes the 7 and the [push_back(val)] that ends the loop body puts it
    back, where the standard stack operation leaves 5 on top. *)
Theorem drop_does_not_remove_the_top frame memory :
  EvaluateDwarfExpression_loop frame memory
    [DW_OP_lit 5; DW_OP_lit 7; op_only DW_OP_drop] [] indeterminate_val
  = Some [5; 7]
  /\ EvaluateDwarfExpression frame memory
       [DW_OP_lit 5; DW_OP_lit 7; op_only DW_OP_drop] = 7.
Proof. split; reflexivity. Qed.

(** An opcode that the chain does not name never fails: the turn of the
    loop pushes [val] as it stands. *)
Lemma step_unnamed_opcode frame memory ai s val :
  named_opcode (ai.(op) mod 256) = false ->
  EvaluateDwarfExpression_step frame memory ai s val
  = Some (s ++ [val], val).
Proof.
  unfold named_opcode, EvaluateDwarfExpression_step. intros Hn.
  repeat (apply orb_false_elim in Hn as [Hn ?]).
  repeat match goal with
    | Hb : ?b = false |- context [?b] => rewrite Hb
    end.
  reflexivity.
Qed.

(** C4: on the program [lit5; plus] the evaluator returns 5, not 0:
    [DW_OP_plus] is none of the supported operations, no branch of the
    chain takes it, and the turn of the loop pushes the 5 that [val] still
    holds. *)
Theorem unsupported_opcode_is_not_a_failure frame memory :
  named_opcode DW_OP_plus = false
  /\ EvaluateDwarfExpression frame memory [DW_OP_lit 5; op_only DW_OP_plus]
     = 5.
Proof. split; reflexivity. Qed.

End EvaluatorFacts.

(** ** Parameter recovery *)

Section ReadFuncParamsFacts.
Context `{Externals}.

Lemma ReadFuncParams_loop_length frame memory params info :
  (length (ReadFuncParams_loop frame memory params info)
   <= length info + length params)%nat.
Proof.
  revert info. induction params as [|p params IH]; intros info; simpl.
  - lia.
  - repeat case_match; try lia.
    + etrans; [apply IH|]. unfold push_back. rewrite length_app. simpl. lia.
    + etrans; [apply IH|]. lia.
    + etrans; [apply IH|]. unfold push_back. rewrite length_app. simpl. lia.
Qed.

Lemma ReadFuncParams_loop_failed_read frame memory pre p post info :
  0 < p.(FuncParam.typeSize) ->
  EvaluateDwarfExpression frame memory p.(FuncParam.locs) <> 0 ->
  memory.(GetMemoryAtAddress64)
    (EvaluateDwarfExpression frame memory p.(FuncParam.locs)) = None ->
  ReadFuncParams_loop frame memory (pre ++ p :: post) info
  = ReadFuncParams_loop frame memory pre info.
Proof.
  intros Hsize Haddr Hread. revert info.
  induction pre as [|q pre IH]; intros info; simpl.
  - replace (FuncParam.typeSize p <=? 0) with false
      by (symmetry; apply Z.leb_gt; lia).
    replace (EvaluateDwarfExpression frame memory (FuncParam.locs p) =? 0)
      with false by (symmetry; by apply Z.eqb_neq).
    by rewrite Hread.
  - repeat case_match; try done; apply IH.
Qed.

Lemma ReadFuncParams_loop_no_location frame memory pre p post info :
  0 < p.(FuncParam.typeSize) ->
  EvaluateDwarfExpression frame memory p.(FuncParam.locs) = 0 ->
  ReadFuncParams_loop frame memory (pre ++ p :: post) info
  = ReadFuncParams_loop frame memory (pre ++ post) info.
Proof.
  intros Hsize Haddr. revert info.
  induction pre as [|q pre IH]; intros info; simpl.
  - replace (FuncParam.typeSize p <=? 0) with false
      by (symmetry; apply Z.leb_gt; lia).
    by rewrite Haddr.
  - repeat case_match; try done; apply IH.
Qed.

(** C10: when the location of a parameter evaluates to a non-zero address
    whose 8-byte word cannot be read, [ReadFuncParams] returns at once: the
    list holds what the parameters before it gave, and neither that
    parameter nor any later one. A parameter whose location evaluates to 0
    is skipped alone. *)
Theorem ReadFuncParams_returns_at_failed_read
    frame memory pre p post info :
  0 < p.(FuncParam.typeSize) ->
  EvaluateDwarfExpression frame memory p.(FuncParam.locs) <> 0 ->
  memory.(GetMemoryAtAddress64)
    (EvaluateDwarfExpression frame memory p.(FuncParam.locs)) = None ->
  let out := ReadFuncParams frame (pre ++ p :: post) (Some memory) info in
  out = ReadFuncParams_loop frame memory pre []
  /\ (length out <= length pre)%nat
  /\ (forall q,
        0 < q.(FuncParam.typeSize) ->
        EvaluateDwarfExpression frame memory q.(FuncParam.locs) = 0 ->
        ReadFuncParams frame (pre ++ q :: post) (Some memory) info
        = ReadFuncParams_loop frame memory (pre ++ post) []).
Proof.
  intros Hsize Haddr Hread out.
  assert (out = ReadFuncParams_loop frame memory pre []) as Hout.
  { unfold out, ReadFuncParams.
    destruct (pre ++ p :: post) eqn:E; [by destruct pre|].
    rewrite <- E. by apply ReadFuncParams_loop_failed_read. }
  split; [done|]. split.
  - rewrite Hout.
    etrans; [apply ReadFuncParams_loop_length|]. simpl. lia.
  - intros q Hq Hzero. unfold ReadFuncParams.
    destruct (pre ++ q :: post) eqn:E; [by destruct pre|].
    rewrite <- E. by apply ReadFuncParams_loop_no_location.
Qed.

End ReadFuncParamsFacts.

(** C10 on three parameters in registers 3, 4 and 3, where only the word
    that register 3 points to can be read: the list holds the first
    parameter alone. *)
Lemma ReadFuncParams_returns_at_failed_read_witness :
  ReadFuncParams (H := sample_externals) (sample_frame 0)
    [sample_param "a" 0x53; sample_param "b" 0x54; sample_param "c" 0x53]
    (Some sample_memory) []
  = ReadFuncParams_loop (H := sample_externals) (sample_frame 0)
      sample_memory [sample_param "a" 0x53] [].
Proof.
  apply (ReadFuncParams_returns_at_failed_read (H := sample_externals)
           (sample_frame 0) sample_memory
           [sample_param "a" 0x53] (sample_param "b" 0x54)
           [sample_param "c" 0x53] []).
  - simpl. lia.
  - vm_compute. discriminate.
  - vm_compute. reflexivity.
Defined.

(** ** Address lookup *)

Section LookupFacts.
Context `{Externals}.

(** C1: [LookupAddress] takes the function fields from one source at
    most. When the nearest function covers the address, they are that
    function's, whatever public symbol there is; otherwise they are the
    public symbol's, provided no function was retrieved or the symbol lies
    strictly past the base of the nearest function, and nothing else of the
    frame changes; in every other case the frame is left as it was. *)
Theorem LookupAddress_single_evidence m memory frame :
  let address := u64 (frame.(instruction) - frame.(base_address)) in
  let frame' := LookupAddress m memory frame in
  match evidence_at m address with
  | FromFunction func base =>
      frame'.(function_name) = func.(Function.name)
      /\ frame'.(function_base) = u64 (frame.(base_address) + base)
  | FromPublicSymbol public_symbol public_address =>
      frame' = set_function frame public_symbol.(PublicSymbol.name)
                 (u64 (frame.(base_address) + public_address))
  | NoEvidence => frame' = frame
  end.
Proof.
  intros address frame'. unfold frame', evidence_at, LookupAddress.
  fold address.
  destruct (RangeMap.RetrieveNearestRange (functions_ m) address)
    as [[[func fb] fs]|]; cbn.
  - destruct (address_in_range address fb fs); cbn.
    + destruct (RangeMap.RetrieveRange _ address) as [[[line lb] ls]|];
        by cbn.
    + destruct (AddressMap.Retrieve _ address) as [[p pa]|]; [|done].
      by destruct (fb <? pa).
  - by destruct (AddressMap.Retrieve _ address) as [[p pa]|].
Qed.

(** The comparison agrees with the unbounded one on every triple of
    64-bit values, where [base + size] may exceed [UINT64_MAX]. *)
Lemma address_in_range_spec address base size :
  0 <= address < 2 ^ 64 -> 0 <= base < 2 ^ 64 -> 0 <= size < 2 ^ 64 ->
  address_in_range address base size = true
  <-> base <= address < base + size.
Proof.
  intros Ha Hb Hs. unfold address_in_range, u64.
  rewrite andb_true_iff, Z.leb_le, Z.ltb_lt. split.
  - intros [Hle Hlt]. rewrite Z.mod_small in Hlt by lia. lia.
  - intros [Hle Hlt]. split; [done|]. rewrite Z.mod_small by lia. lia.
Qed.

(** C5: the containment test of the two lookups is
    [address >= base && address - base < size] on 64-bit values, which is
    membership of [[base, base + size)] even where [base + size] passes
    [UINT64_MAX]. With a function stored at [UINT64_MAX - 4] of size 4, a
    lookup at [UINT64_MAX] leaves the frame alone and finds no frame info,
    and a lookup at [UINT64_MAX - 1] adopts the function. *)
Theorem containment_is_overflow_safe :
  (forall address base size,
     0 <= address < 2 ^ 64 -> 0 <= base < 2 ^ 64 -> 0 <= size < 2 ^ 64 ->
     address_in_range address base size = true
     <-> base <= address < base + size)
  /\ (RangeMap.result <$> top_module.(functions_))
     = [(top_function, UINT64_MAX - 4, 4)]
  /\ LookupAddress top_module None (frame_at UINT64_MAX)
     = frame_at UINT64_MAX
  /\ FindWindowsFrameInfo top_module (frame_at UINT64_MAX) = None
  /\ LookupAddress top_module None (frame_at (UINT64_MAX - 1))
     = set_function (frame_at (UINT64_MAX - 1)) "top" (UINT64_MAX - 4)
  /\ FindWindowsFrameInfo top_module (frame_at (UINT64_MAX - 1))
     = Some (set_valid new_WindowsFrameInfo VALID_PARAMETER_SIZE).
Proof.
  split; [apply address_in_range_spec|].
  repeat split; reflexivity.
Qed.

(** C9: at an address that no FRAME_DATA and no FPO range covers,
    [FindWindowsFrameInfo] returns a carrier only when the nearest function
    covers the address; the carrier is a fresh one in which
    [parameter_size] is the function's and the flag of [parameter_size] is
    the one valid member. When the function does not cover the address the
    result is null, whether a public symbol applies or not. *)
Theorem FindWindowsFrameInfo_without_stack_record m frame :
  let address := u64 (frame.(instruction) - frame.(base_address)) in
  RangeMap.RetrieveRange (m.(windows_frame_info_) STACK_INFO_FRAME_DATA)
    address = None ->
  RangeMap.RetrieveRange (m.(windows_frame_info_) STACK_INFO_FPO)
    address = None ->
  match evidence_at m address with
  | FromFunction function _ =>
      FindWindowsFrameInfo m frame
      = Some {| type_ := None; valid := VALID_PARAMETER_SIZE;
                parameter_size := function.(Function.parameter_size);
                program_string := EmptyString |}
  | FromPublicSymbol _ _ | NoEvidence => FindWindowsFrameInfo m frame = None
  end.
Proof.
  intros address Hdata Hfpo. unfold FindWindowsFrameInfo, evidence_at.
  fold address. rewrite Hdata, Hfpo.
  destruct (RangeMap.RetrieveNearestRange (functions_ m) address)
    as [[[func fb] fs]|]; cbn.
  - destruct (address_in_range address fb fs); cbn; [done|].
    destruct (AddressMap.Retrieve _ address) as [[p pa]|]; [|done].
    by destruct (fb <? pa).
  - by destruct (AddressMap.Retrieve _ address) as [[p pa]|].
Qed.

End LookupFacts.

(** C5 at the top of the address space. *)
Lemma containment_is_overflow_safe_witness :
  address_in_range (UINT64_MAX - 1) (UINT64_MAX - 4) 4 = true
  <-> UINT64_MAX - 4 <= UINT64_MAX - 1 < UINT64_MAX - 4 + 4.
Proof.
  apply (proj1 (containment_is_overflow_safe (H := sample_externals)));
    vm_compute; split; congruence.
Defined.

(** C9 in [sample_module], inside the function [f] and at the public
    symbol [g]. *)
Lemma FindWindowsFrameInfo_without_stack_record_witness :
  FindWindowsFrameInfo sample_module (sample_frame 0x400105)
  = Some {| type_ := None; valid := VALID_PARAMETER_SIZE;
            parameter_size := 8; program_string := EmptyString |}
  /\ FindWindowsFrameInfo sample_module (sample_frame 0x400200) = None.
Proof.
  split.
  - exact (FindWindowsFrameInfo_without_stack_record sample_module
             (sample_frame 0x400105) eq_refl eq_refl).
  - exact (FindWindowsFrameInfo_without_stack_record sample_module
             (sample_frame 0x400200) eq_refl eq_refl).
Defined.

(** The lookups of the specification's scenarios in [sample_module]:
    inside [f], at the public symbol [g], and past [f] with no public
    symbol before the address. *)
Example lookup_inside_function :
  let frame :=
    LookupAddress (H := sample_externals) sample_module None
      (sample_frame 0x400105) in
  (frame.(function_name), frame.(function_base), frame.(source_file_name),
   frame.(source_line), frame.(source_line_base))
  = ("f", 0x400100, "a.c", 42, 0x400100).
Proof. reflexivity. Qed.

Example lookup_at_public_symbol :
  LookupAddress (H := sample_externals) sample_module None
    (sample_frame 0x400200)
  = set_function (sample_frame 0x400200) "g" 0x400200.
Proof. reflexivity. Qed.

Example lookup_past_function :
  LookupAddress (H := sample_externals) sample_module None
    (sample_frame 0x400125)
  = sample_frame 0x400125.
Proof. reflexivity. Qed.

(** ** CFI composition *)

Lemma assign_keys {V} k (v : V) m x :
  x ∈ StdMap.keys (StdMap.assign k v m) -> x = k \/ x ∈ StdMap.keys m.
Proof.
  unfold StdMap.keys. induction m as [|[k' v'] m IH]; simpl.
  - intros Hx. apply list_elem_of_singleton in Hx. auto.
  - destruct (k <? k'); [|destruct (k =? k')]; simpl; intros Hx.
    + apply elem_of_cons in Hx as [->|Hx]; auto.
    + apply elem_of_cons in Hx as [->|Hx]; auto.
      right. apply elem_of_cons. auto.
    + apply elem_of_cons in Hx as [->|Hx].
      * right. apply elem_of_cons. auto.
      * apply IH in Hx as [->|Hx]; auto.
        right. apply elem_of_cons. auto.
Qed.

Lemma assign_ascending {V} k (v : V) m :
  ascending m -> ascending (StdMap.assign k v m).
Proof.
  unfold ascending. induction m as [|[k' v'] m IH]; simpl; intros Hs.
  - repeat constructor.
  - apply StronglySorted_inv in Hs as [Hs Hall].
    destruct (k <? k') eqn:Hlt; [|destruct (k =? k') eqn:Heq]; simpl.
    + apply Z.ltb_lt in Hlt. constructor.
      * by constructor.
      * constructor; [done|].
        eapply Forall_impl; [exact Hall|]. simpl. intros; lia.
    + apply Z.eqb_eq in Heq. subst. by constructor.
    + apply Z.ltb_ge in Hlt. apply Z.eqb_neq in Heq.
      constructor; [by apply IH|].
      apply Forall_forall. intros x Hx.
      apply (assign_keys k v m) in Hx as [->|Hx]; [lia|].
      rewrite Forall_forall in Hall. by apply Hall.
Qed.

Lemma filter_none {A} (f : A -> bool) (l : list A) :
  (forall x, x ∈ l -> f x = false) -> List.filter f l = [].
Proof.
  induction l as [|x l IH]; simpl; intros Hf; [done|].
  rewrite (Hf x) by apply list_elem_of_here.
  apply IH. intros y Hy. apply Hf. by apply list_elem_of_further.
Qed.

Section CFIFacts.
Context `{Externals}.

Lemma apply_delta_rules_at_base (delta : StdMap.t string)
    initial_base address rules :
  ascending delta ->
  Forall (fun kv => initial_base <= kv.1) delta ->
  apply_delta_rules delta address rules
  = foldl apply_rule rules
      (List.filter (fun kv : Z * string =>
                      (initial_base <=? kv.1) && (kv.1 <=? address)) delta).
Proof.
  unfold ascending, StdMap.keys. revert rules.
  induction delta as [|[k v] delta IH]; intros rules Hs Hge; [done|].
  simpl in *. apply StronglySorted_inv in Hs as [Hs Hall].
  apply Forall_cons in Hge as [Hk Hge]. simpl in Hk.
  replace (initial_base <=? k) with true by (symmetry; by apply Z.leb_le).
  destruct (k <=? address) eqn:Hka; simpl.
  - by apply IH.
  - apply Z.leb_gt in Hka.
    rewrite filter_none; [done|].
    intros [k' v'] Hin. simpl.
    rewrite Forall_forall in Hall.
    assert (k < k') by (apply Hall; by apply (list_elem_of_fmap_2 fst) in Hin).
    apply andb_false_iff. right. apply Z.leb_gt. lia.
Qed.

Lemma apply_delta_rules_lower_bound (delta : StdMap.t string)
    initial_base address rules :
  ascending delta ->
  apply_delta_rules (StdMap.lower_bound initial_base delta) address rules
  = foldl apply_rule rules
      (List.filter (fun kv : Z * string =>
                      (initial_base <=? kv.1) && (kv.1 <=? address)) delta).
Proof.
  intros Hs. induction delta as [|[k v] delta IH]; [done|].
  pose proof Hs as Hs'.
  unfold ascending, StdMap.keys in Hs'. simpl in Hs'.
  apply StronglySorted_inv in Hs' as [Hs' Hall].
  simpl. destruct (k <? initial_base) eqn:Hlt.
  - apply Z.ltb_lt in Hlt.
    replace (initial_base <=? k) with false
      by (symmetry; apply Z.leb_gt; lia).
    simpl. by apply IH.
  - apply Z.ltb_ge in Hlt.
    rewrite (apply_delta_rules_at_base _ initial_base); [done|done|].
    constructor; [done|].
    rewrite Forall_forall in Hall. apply Forall_forall.
    intros [k' v'] Hin. simpl.
    assert (k < k') by (apply Hall; by apply (list_elem_of_fmap_2 fst) in Hin).
    lia.
Qed.

Lemma filter_ascending (delta : StdMap.t string) f :
  ascending delta -> ascending (List.filter f delta).
Proof.
  unfold ascending, StdMap.keys.
  induction delta as [|kv delta IH]; simpl; intros Hs; [constructor|].
  apply StronglySorted_inv in Hs as [Hs Hall].
  destruct (f kv); simpl; [|by apply IH].
  constructor; [by apply IH|].
  rewrite Forall_forall in Hall. apply Forall_forall. intros x Hx.
  apply Hall. apply list_elem_of_fmap in Hx as [y [-> Hy]].
  apply list_elem_of_fmap_2. apply list_elem_of_In.
  apply list_elem_of_In in Hy. apply filter_In in Hy. tauto.
Qed.

(** C6, amended: [FindCFIFrameInfo] returns null when no range of the
    initial rules covers the address, and also when [ParseCFIRuleSet]
    rejects the initial rule-string of the covering range. Otherwise it
    applies to the rule set parsed from that string the delta rules whose
    keys lie in [[initial_base, address]], each once, in ascending key
    order and whatever [ParseCFIRuleSet] answers for them, and returns the
    result. *)
Theorem FindCFIFrameInfo_composition m frame :
  ascending m.(cfi_delta_rules_) ->
  let address := u64 (frame.(instruction) - frame.(base_address)) in
  match RangeMap.RetrieveRange m.(cfi_initial_rules_) address with
  | None => FindCFIFrameInfo m frame = None
  | Some (initial_rules, initial_base, _) =>
      let parsed := ParseCFIRuleSet initial_rules new_CFIFrameInfo in
      let applied := delta_rules_between m initial_base address in
      ascending applied
      /\ (forall k rule,
            (k, rule) ∈ applied
            <-> (k, rule) ∈ m.(cfi_delta_rules_)
                /\ initial_base <= k <= address)
      /\ FindCFIFrameInfo m frame
         = if parsed.1 then Some (foldl apply_rule parsed.2 applied)
           else None
  end.
Proof.
  intros Hs address. unfold FindCFIFrameInfo. fold address.
  destruct (RangeMap.RetrieveRange (cfi_initial_rules_ m) address)
    as [[[initial_rules initial_base] initial_size]|]; [|done].
  cbn. split; [by apply filter_ascending|]. split.
  - intros k rule. unfold delta_rules_between.
    rewrite !list_elem_of_In, filter_In. simpl.
    rewrite andb_true_iff, !Z.leb_le. tauto.
  - destruct (ParseCFIRuleSet initial_rules new_CFIFrameInfo) as [ok rules].
    destruct ok; simpl; [|done].
    by rewrite apply_delta_rules_lower_bound.
Qed.

End CFIFacts.

(** C6, as stated, fails in [sample_module] at 0x2010: the initial rules
    at 0x2000 cover the address, the parser rejects their rule-string, and
    the result is null where the claim has a rule set. *)
Lemma rejected_initial_rules_give_null :
  RangeMap.RetrieveRange sample_module.(cfi_initial_rules_) 0x2010
  = Some ("no rule here", 0x2000, 0x100)
  /\ (ParseCFIRuleSet (Externals := sample_externals) "no rule here"
        new_CFIFrameInfo).1 = false
  /\ FindCFIFrameInfo (H := sample_externals) sample_module (frame_at 0x2010)
     = None.
Proof. repeat split; reflexivity. Qed.

(** C6, amended, in [sample_module]: at 0x1030 the initial rules and the
    delta rule of 0x1010, at 0x1050 the delta rule of 0x1040 as well. *)
Lemma FindCFIFrameInfo_composition_witness :
  FindCFIFrameInfo (H := sample_externals) sample_module (frame_at 0x1030)
  = Some [".cfa: rsp 8 +"; "rip: .cfa -8 +"]
  /\ FindCFIFrameInfo (H := sample_externals) sample_module (frame_at 0x1050)
     = Some [".cfa: rsp 8 +"; "rip: .cfa -8 +"; "rbp: .cfa -16 +"].
Proof.
  assert (ascending sample_module.(cfi_delta_rules_)) as Hs.
  { unfold ascending. simpl. repeat constructor; lia. }
  split.
  - exact (proj2 (proj2 (FindCFIFrameInfo_composition (H := sample_externals)
                           sample_module (frame_at 0x1030) Hs))).
  - exact (proj2 (proj2 (FindCFIFrameInfo_composition (H := sample_externals)
                           sample_module (frame_at 0x1050) Hs))).
Defined.

(** ** Tokens *)

Lemma skip_delims_length delim s :
  (String.length (skip_delims delim s) <= String.length s)%nat.
Proof.
  induction s as [|c s IH]; simpl; [lia|].
  destruct (strchr delim c); simpl; lia.
Qed.

Lemma take_token_length delim c s :
  (String.length (take_token delim (String c s)).2
   < String.length (String c s))%nat.
Proof.
  revert c. induction s as [|c' s IH]; intros c; simpl.
  - destruct (strchr delim c); simpl; lia.
  - destruct (strchr delim c); simpl; [lia|].
    specialize (IH c'). simpl in IH.
    destruct (strchr delim c'); simpl in *; [lia|].
    destruct (take_token delim s); simpl in *. lia.
Qed.

(** A token takes at least one character off the string. *)
Lemma strtok_r_length delim s token rest :
  strtok_r delim s = Some (token, rest) ->
  (String.length rest < String.length s)%nat.
Proof.
  unfold strtok_r. intros Hs.
  pose proof (skip_delims_length delim s) as Hskip.
  destruct (skip_delims delim s) as [|c s'] eqn:E; [done|].
  pose proof (take_token_length delim c s') as Htake.
  injection Hs as Hs.
  change (take_token delim (String c s') = (token, rest)) in Hs.
  rewrite Hs in Htake. simpl in *. lia.
Qed.

(** The fuel of [Tokenize] is enough: more of it gives the same tokens. *)
Lemma Tokenize_loop_fuel fuel fuel' separators remaining line :
  (String.length line < fuel)%nat ->
  (String.length line < fuel')%nat ->
  Tokenize_loop fuel separators remaining line
  = Tokenize_loop fuel' separators remaining line.
Proof.
  revert fuel' remaining line.
  induction fuel as [|fuel IH]; intros fuel' remaining line Hf Hf'; [lia|].
  destruct fuel' as [|fuel']; [lia|]. simpl.
  repeat case_match; try done. f_equal.
  match goal with
  | Hs : strtok_r _ _ = Some (_, ?rest) |- _ =>
      pose proof (strtok_r_length _ _ _ _ Hs);
      pose proof (skip_delims_length separators rest)
  end.
  apply IH; lia.
Qed.

(** ** Lines *)

Lemma strtok_r_cons delim c s :
  strtok_r delim (String c s)
  = if strchr delim c then strtok_r delim s
    else Some (let '(token, rest) := take_token delim s in
               (String c token, rest)).
Proof.
  unfold strtok_r. simpl. destruct (strchr delim c) eqn:Hc; [done|].
  by rewrite Hc.
Qed.

(** [strtok_all] is the sequence of the results of [strtok_r], each call
    going on from where the one before stopped. *)
Lemma strtok_all_strtok_r delim s :
  strtok_all delim s
  = match strtok_r delim s with
    | Some (token, rest) => token :: strtok_all delim rest
    | None => []
    end.
Proof.
  induction s as [|c s IH]; [reflexivity|].
  rewrite strtok_r_cons.
  cbn [strtok_all]. destruct (strchr delim c) eqn:Hc; [exact IH|].
  destruct s as [|c' s']; [reflexivity|].
  destruct (strchr delim c') eqn:Hc'.
  - cbn [take_token]. rewrite Hc'. cbn [strtok_all]. by rewrite Hc'.
  - rewrite IH, strtok_r_cons, Hc'. cbn [take_token]. rewrite Hc'.
    by destruct (take_token delim s') as [token rest].
Qed.

(** ** The buffer *)

Lemma perforated_refl memory : perforated memory memory.
Proof. split; [done|]. intros i c Hc. by right. Qed.

Lemma perforated_trans m1 m2 m3 :
  perforated m1 m2 -> perforated m2 m3 -> perforated m1 m3.
Proof.
  intros [Hl1 H1] [Hl2 H2]. split; [congruence|].
  intros i c Hc. destruct (H2 i c Hc) as [->|Hc2]; [by left|].
  by apply H1.
Qed.

Lemma perforated_insert memory p : perforated memory (<[p := NUL]> memory).
Proof.
  split; [by rewrite length_insert|]. intros i c Hc.
  destruct (decide (i = p)) as [->|Hne].
  - destruct (decide (p < length memory)%nat) as [Hlt|Hge].
    + rewrite list_lookup_insert_eq in Hc by done. left. congruence.
    + rewrite list_insert_ge in Hc by lia. by right.
  - rewrite list_lookup_insert_ne in Hc by done. by right.
Qed.

Lemma perforated_drop n memory memory' :
  perforated memory memory' -> perforated (drop n memory) (drop n memory').
Proof.
  intros [Hl Hp]. split; [rewrite !length_drop; lia|].
  intros i c. rewrite !lookup_drop. apply Hp.
Qed.

Lemma perforated_app_drop (a b memory' : list ascii) :
  perforated (a ++ b) memory' -> perforated b (drop (length a) memory').
Proof.
  intros Hp. apply (perforated_drop (length a)) in Hp.
  by rewrite drop_app_length in Hp.
Qed.

(** The string at the start of a perforated buffer is the start of the
    string that was there. *)
Lemma perforated_c_str memory memory' :
  perforated memory memory' ->
  exists rest, c_str memory = c_str memory' +:+ rest.
Proof.
  revert memory'. induction memory as [|c memory IH]; intros memory' [Hl Hp].
  - destruct memory'; [|done]. by exists EmptyString.
  - destruct memory' as [|c' memory']; [done|]. simpl.
    destruct (Ascii.eqb c' NUL) eqn:Hc'.
    + eexists. reflexivity.
    + apply Ascii.eqb_neq in Hc'.
      destruct (Hp 0%nat c' eq_refl) as [?|Hc]; [done|].
      injection Hc as <-.
      replace (Ascii.eqb c NUL) with false
        by (symmetry; by apply Ascii.eqb_neq).
      destruct (IH memory') as [rest Hrest].
      { split; [simpl in Hl; lia|]. intros i x Hx. apply (Hp (S i) x Hx). }
      exists rest. simpl. by rewrite Hrest.
Qed.

Lemma strspn_le s accept : (strspn s accept <= length s)%nat.
Proof.
  induction s as [|c s IH]; simpl; [lia|]. case_match; simpl; lia.
Qed.

Lemma strcspn_le s reject : (strcspn s reject <= length s)%nat.
Proof.
  induction s as [|c s IH]; simpl; [lia|]. case_match; simpl; lia.
Qed.

Lemma byte_at_drop memory p i :
  byte_at (drop p memory) i = byte_at memory (p + i).
Proof. unfold byte_at. by rewrite lookup_drop. Qed.

(** [strspn] stops at a byte that is a terminator or no delimiter. *)
Lemma strspn_stop s accept :
  Ascii.eqb (byte_at s (strspn s accept)) NUL = true
  \/ strchr accept (byte_at s (strspn s accept)) = false.
Proof.
  induction s as [|c s IH]; simpl; [by left|].
  destruct (Ascii.eqb c NUL) eqn:Hc; simpl; [by left|].
  destruct (strchr accept c) eqn:Ha; simpl; [exact IH|].
  right. exact Ha.
Qed.

(** [strcspn] stops at a terminator or at a delimiter, and passes
    neither. *)
Lemma strcspn_stop s reject :
  Ascii.eqb (byte_at s (strcspn s reject)) NUL = true
  \/ strchr reject (byte_at s (strcspn s reject)) = true.
Proof.
  induction s as [|c s IH]; simpl; [by left|].
  destruct (Ascii.eqb c NUL) eqn:Hc; simpl; [by left|].
  destruct (strchr reject c) eqn:Ha; simpl; [by right|exact IH].
Qed.

Lemma strcspn_pos s reject :
  Ascii.eqb (byte_at s 0) NUL = false ->
  strchr reject (byte_at s 0) = false ->
  (1 <= strcspn s reject)%nat.
Proof.
  destruct s as [|c s]; simpl; [done|]. unfold byte_at. simpl.
  intros -> ->. simpl. lia.
Qed.

(** The string at a pointer ends where [strcspn] stops, once a terminator
    is there. *)
Lemma c_str_strcspn s reject :
  c_str (<[strcspn s reject := NUL]> s)
  = string_of_list_ascii (take (strcspn s reject) s).
Proof.
  induction s as [|c s IH]; simpl; [done|].
  destruct (Ascii.eqb c NUL) eqn:Hc; simpl; [done|].
  destruct (strchr reject c) eqn:Hr; simpl; [done|].
  by rewrite Hc, IH.
Qed.

Lemma c_str_strcspn_terminated s reject :
  Ascii.eqb (byte_at s (strcspn s reject)) NUL = true ->
  c_str s = string_of_list_ascii (take (strcspn s reject) s).
Proof.
  induction s as [|c s IH]; simpl; [done|].
  destruct (Ascii.eqb c NUL) eqn:Hc; simpl; [done|].
  destruct (strchr reject c) eqn:Hr; simpl.
  - unfold byte_at. simpl. by rewrite Hc.
  - intros Hn. by rewrite IH.
Qed.

Lemma length_list_ascii_of_string s :
  length (list_ascii_of_string s) = String.length s.
Proof. induction s; simpl; congruence. Qed.

Lemma length_string_of_list_ascii l :
  String.length (string_of_list_ascii l) = length l.
Proof. induction l; simpl; congruence. Qed.

(** What a call of [strtok_r] does to the buffer and to [save_ptr]. *)
Lemma strtok_r_at_spec memory s delim :
  let '(token, memory', save_ptr') := strtok_r_at memory s delim in
  perforated memory memory'
  /\ (s <= save_ptr')%nat
  /\ (forall i, (i < s)%nat -> memory' !! i = memory !! i)
  /\ match token with
     | Some start =>
         (s <= start < length memory)%nat
         /\ let line := c_str_at memory' start in
            let terminator := (start + String.length line)%nat in
            (start < terminator)%nat
            /\ (terminator <= save_ptr' <= S terminator)%nat
            /\ (terminator <= length memory)%nat
            /\ drop (S terminator) memory' = drop (S terminator) memory
     | None => memory' = memory
     end.
Proof.
  unfold strtok_r_at.
  set (start := (s + strspn (drop s memory) delim)%nat).
  destruct (Ascii.eqb (byte_at memory start) NUL) eqn:Hstart.
  { split; [apply perforated_refl|]. split; [lia|]. by split. }
  assert (start < length memory)%nat as Hlt.
  { destruct (decide (start < length memory)%nat) as [|Hge]; [done|].
    unfold byte_at in Hstart. rewrite lookup_ge_None_2 in Hstart by lia.
    done. }
  assert (strchr delim (byte_at memory start) = false) as Hd.
  { destruct (strspn_stop (drop s memory) delim) as [Hn|Hn];
      rewrite byte_at_drop in Hn; fold start in Hn; congruence. }
  pose proof (strcspn_pos (drop start memory) delim) as Hpos.
  rewrite byte_at_drop, Nat.add_0_r in Hpos.
  specialize (Hpos Hstart Hd).
  pose proof (strcspn_le (drop start memory) delim) as Hle.
  rewrite length_drop in Hle.
  set (n := strcspn (drop start memory) delim) in *.
  destruct (Ascii.eqb (byte_at memory (start + n)) NUL) eqn:Hend.
  - assert (c_str_at memory start
            = string_of_list_ascii (take n (drop start memory))) as Hline.
    { apply c_str_strcspn_terminated. by rewrite byte_at_drop. }
    split; [apply perforated_refl|]. split; [lia|]. split; [done|].
    split; [lia|]. cbv zeta. rewrite Hline, length_string_of_list_ascii.
    rewrite length_take, length_drop.
    replace (start + n `min` (length memory - start))%nat
      with (start + n)%nat by lia.
    repeat split; lia.
  - assert (c_str_at (<[(start + n)%nat := NUL]> memory) start
            = string_of_list_ascii (take n (drop start memory))) as Hline.
    { unfold c_str_at. rewrite drop_insert_ge by lia.
      replace (start + n - start)%nat with n by lia.
      apply c_str_strcspn. }
    split; [apply perforated_insert|]. split; [lia|].
    split; [intros i Hi; apply list_lookup_insert_ne; lia|].
    split; [lia|]. cbv zeta. rewrite Hline, length_string_of_list_ascii.
    rewrite length_take, length_drop.
    replace (start + n `min` (length memory - start))%nat
      with (start + n)%nat by lia.
    split; [lia|]. split; [lia|]. split; [lia|].
    by rewrite drop_insert_lt by lia.
Qed.

(** ** Records that fail *)

Lemma ParseFile_failure m file_line :
  (ParseFile m file_line).1 = false -> (ParseFile m file_line).2 = m.
Proof. unfold ParseFile. by repeat case_match. Qed.

Lemma ParsePublicSymbol_failure m public_line :
  (ParsePublicSymbol m public_line).1 = false ->
  (ParsePublicSymbol m public_line).2 = m.
Proof.
  unfold ParsePublicSymbol, AddressMap.Store.
  repeat case_match; simplify_eq; simpl; try done.
  intros _. by destruct m.
Qed.

(** ** Records in the buffer *)

Lemma ParseCFIFrameInfo_perforated m memory stack_info_line :
  perforated memory (ParseCFIFrameInfo m memory stack_info_line).2.
Proof.
  unfold ParseCFIFrameInfo.
  repeat match goal with
         | |- context [strtok_r_at ?mem ?s ?d] =>
             let Hs := fresh "Hs" in
             pose proof (strtok_r_at_spec mem s d) as Hs;
             destruct (strtok_r_at mem s d) as [[[?|] ?] ?];
             destruct Hs as (? & _)
         | |- context [String.eqb ?a ?b] => destruct (String.eqb a b)
         end;
    cbn [snd]; eauto 8 using perforated_trans.
Qed.

(** A record that fails stores nothing. *)
Lemma ParseCFIFrameInfo_failure m memory stack_info_line :
  (ParseCFIFrameInfo m memory stack_info_line).1.1 = false ->
  (ParseCFIFrameInfo m memory stack_info_line).1.2 = m.
Proof. unfold ParseCFIFrameInfo. by repeat case_match. Qed.

(** The records of call frame information touch no function, no public
    symbol and no file. *)
Lemma ParseCFIFrameInfo_index m memory stack_info_line :
  let m' := (ParseCFIFrameInfo m memory stack_info_line).1.2 in
  m'.(functions_) = m.(functions_)
  /\ m'.(public_symbols_) = m.(public_symbols_)
  /\ m'.(files_) = m.(files_).
Proof. unfold ParseCFIFrameInfo. by repeat case_match. Qed.

Lemma ParseCFIFrameInfo_ascending m memory stack_info_line :
  ascending m.(cfi_delta_rules_) ->
  ascending
    (ParseCFIFrameInfo m memory stack_info_line).1.2.(cfi_delta_rules_).
Proof.
  intros Hs. unfold ParseCFIFrameInfo.
  repeat case_match; simpl; try done. by apply assign_ascending.
Qed.

Section StackRecords.
Context `{Externals}.

Lemma ParseStackInfo_perforated m memory stack_info_line :
  perforated memory (ParseStackInfo m memory stack_info_line).2.
Proof.
  unfold ParseStackInfo. cbv zeta.
  match goal with
  | |- context [@insert _ _ _ _ ?p NUL memory] =>
      pose proof (perforated_insert memory p) as Hp;
      set (memory' := <[p := NUL]> memory) in *
  end.
  repeat case_match; cbn [snd]; try done.
  eapply perforated_trans; [exact Hp|].
  apply ParseCFIFrameInfo_perforated.
Qed.

Lemma ParseStackInfo_failure m memory stack_info_line :
  (ParseStackInfo m memory stack_info_line).1.1 = false ->
  (ParseStackInfo m memory stack_info_line).1.2 = m.
Proof.
  unfold ParseStackInfo. cbv zeta. repeat case_match; try done.
  apply ParseCFIFrameInfo_failure.
Qed.

Lemma ParseStackInfo_index m memory stack_info_line :
  let m' := (ParseStackInfo m memory stack_info_line).1.2 in
  m'.(functions_) = m.(functions_)
  /\ m'.(public_symbols_) = m.(public_symbols_)
  /\ m'.(files_) = m.(files_).
Proof.
  unfold ParseStackInfo. cbv zeta. repeat case_match; try done.
  apply ParseCFIFrameInfo_index.
Qed.

Lemma ParseStackInfo_ascending m memory stack_info_line :
  ascending m.(cfi_delta_rules_) ->
  ascending (ParseStackInfo m memory stack_info_line).1.2.(cfi_delta_rules_).
Proof.
  intros Hs. unfold ParseStackInfo. cbv zeta. repeat case_match; try done.
  by apply ParseCFIFrameInfo_ascending.
Qed.

(** ** The loop of the loader *)

Lemma LogParseError_counts message at_line st :
  (LogParseError message at_line st).(num_errors) = st.(num_errors) + 1
  /\ (LogParseError message at_line st).(line_number) = st.(line_number)
  /\ (LogParseError message at_line st).(module_) = st.(module_).
Proof. done. Qed.

(** What a turn of the loop does to the record at [buffer]: the line
    counts as no error, or it counts as one and stores nothing. *)
Lemma ParseRecord_cases buffer st :
  let st' := ParseRecord buffer st in
  (st'.(num_errors) = st.(num_errors) /\ st'.(log) = st.(log))
  \/ (exists message,
        st'.(num_errors) = st.(num_errors) + 1
        /\ st'.(log)
           = (LogParseError message st.(line_number) st).(log)
        /\ st'.(module_) = st.(module_)).
Proof.
  unfold ParseRecord.
  destruct (String.prefix "FILE " buffer).
  { pose proof (ParseFile_failure (module_ st) buffer) as Hf.
    destruct (ParseFile (module_ st) buffer) as [[] m]; simpl in *.
    - by left.
    - right. eexists. by rewrite Hf. }
  destruct (String.prefix "STACK " buffer).
  { match goal with
    | |- context [ParseStackInfo ?m ?mem ?s] =>
        pose proof (ParseStackInfo_failure m mem s) as Hf;
        destruct (ParseStackInfo m mem s) as [[[] m'] mem']; simpl in *
    end.
    - by left.
    - right. eexists. by rewrite Hf. }
  destruct (String.prefix "FUNC " buffer).
  { destruct (ParseFunction buffer) as [f|].
    - left. by destruct (RangeMap.StoreRange _ _ _ _).
    - right. by eexists. }
  destruct (String.prefix "PUBLIC " buffer).
  { simpl. pose proof (ParsePublicSymbol_failure (module_ st) buffer) as Hf.
    destruct (ParsePublicSymbol (module_ st) buffer) as [[] m]; simpl in *.
    - by left.
    - right. eexists. by rewrite Hf. }
  destruct (String.prefix "MODULE " buffer); [by left|].
  destruct (String.prefix "INFO " buffer); [by left|].
  destruct (cur_func st) as [cur|].
  - destruct (ParseLine buffer) as [line|].
    + left. unfold store_line. by repeat case_match.
    + right. by eexists.
  - right. by eexists.
Qed.

Lemma ParseRecord_line_number buffer st :
  (ParseRecord buffer st).(line_number) = st.(line_number).
Proof.
  unfold ParseRecord, store_line. repeat case_match; done.
Qed.

Lemma ParseRecord_num_errors buffer st :
  st.(num_errors) <= (ParseRecord buffer st).(num_errors)
  <= st.(num_errors) + 1.
Proof.
  destruct (ParseRecord_cases buffer st) as [[-> _]|(? & -> & _)]; lia.
Qed.

(** A turn writes terminators into the bytes from the terminator of its
    line on, and nothing else; [save_ptr] stays. *)
Lemma ParseRecord_line_end buffer st :
  perforated st.(line_end) (ParseRecord buffer st).(line_end)
  /\ (ParseRecord buffer st).(save_ptr) = st.(save_ptr).
Proof.
  unfold ParseRecord.
  destruct (String.prefix "FILE " buffer).
  { destruct (ParseFile (module_ st) buffer) as [[] m]; simpl;
      split; try done; apply perforated_refl. }
  destruct (String.prefix "STACK " buffer).
  { match goal with
    | |- context [ParseStackInfo ?m ?mem ?s] =>
        pose proof (ParseStackInfo_perforated m mem s) as Hp;
        destruct (ParseStackInfo m mem s) as [[[] m'] mem']
    end; simpl in *; split; try done.
    all: apply perforated_app_drop in Hp;
      by rewrite length_list_ascii_of_string in Hp. }
  destruct (String.prefix "FUNC " buffer).
  { destruct (ParseFunction buffer) as [f|]; simpl.
    - destruct (RangeMap.StoreRange _ _ _ _); simpl.
      split; [apply perforated_refl|done].
    - split; [apply perforated_refl|done]. }
  destruct (String.prefix "PUBLIC " buffer).
  { simpl. destruct (ParsePublicSymbol (module_ st) buffer) as [[] m]; simpl;
      split; try done; apply perforated_refl. }
  destruct (String.prefix "MODULE " buffer);
    [split; [apply perforated_refl|done]|].
  destruct (String.prefix "INFO " buffer);
    [split; [apply perforated_refl|done]|].
  destruct (cur_func st) as [cur|]; [|split; [apply perforated_refl|done]].
  destruct (ParseLine buffer) as [line|];
    [|split; [apply perforated_refl|done]].
  unfold store_line. repeat case_match; simpl;
    split; try done; apply perforated_refl.
Qed.

(** [strtok_r] touches none of the other locals. *)
Lemma strtok_r_line_locals memory s st :
  let st' := (strtok_r_line memory s st).2 in
  st'.(module_) = st.(module_)
  /\ st'.(cur_func) = st.(cur_func)
  /\ st'.(line_number) = st.(line_number)
  /\ st'.(num_errors) = st.(num_errors)
  /\ st'.(log) = st.(log).
Proof.
  unfold strtok_r_line.
  destruct (strtok_r_at memory s kLineBreaks) as [[[start|] memory'] p];
    done.
Qed.

(** A line takes a byte at least off the bytes after [save_ptr]. *)
Lemma strtok_r_line_unread memory s st line st' :
  strtok_r_line memory s st = (Some line, st') ->
  (unread st' < length memory - s)%nat.
Proof.
  unfold strtok_r_line, unread.
  pose proof (strtok_r_at_spec memory s kLineBreaks) as Hs.
  destruct (strtok_r_at memory s kLineBreaks) as [[[start|] memory'] p];
    [|done].
  destruct Hs as ([Hlen _] & Hsp & _ & Hstart & Hline).
  cbv zeta in Hline. destruct Hline as (Hpos & Hp & Hend & _).
  intros Heq. injection Heq as _ <-. simpl.
  rewrite length_drop. lia.
Qed.

Lemma ParseRecord_unread buffer st : unread (ParseRecord buffer st) = unread st.
Proof.
  destruct (ParseRecord_line_end buffer st) as [[Hl _] Hs].
  unfold unread. by rewrite Hl, Hs.
Qed.

(** What holds before the loop and is kept by each of its statements
    holds after it. *)
Lemma ParseRecords_invariant (P : LoadState -> Prop) :
  (forall buffer st, P st -> P (ParseRecord buffer (next_line st))) ->
  (forall st, P st -> P (BPLOG st stopped_message)) ->
  (forall memory s st, P st -> P (strtok_r_line memory s st).2) ->
  forall fuel buffer st, P st -> P (ParseRecords fuel buffer st).
Proof.
  intros Hrecord Hlog Hline.
  induction fuel as [|fuel IH]; intros buffer st Hst.
  - by destruct buffer.
  - destruct buffer as [buffer|]; [|done]. cbn [ParseRecords].
    specialize (Hrecord buffer st Hst).
    destruct (_ <? _); [by apply Hlog|].
    match goal with
    | |- context [strtok_r_line ?mem ?s ?st'] =>
        pose proof (Hline mem s st' Hrecord) as Hnext;
        destruct (strtok_r_line mem s st') as [buffer' st'']
    end.
    by apply IH.
Qed.

Lemma ParseLines_invariant (P : LoadState -> Prop) :
  (forall buffer st, P st -> P (ParseRecord buffer (next_line st))) ->
  (forall st, P st -> P (BPLOG st stopped_message)) ->
  (forall memory s st, P st -> P (strtok_r_line memory s st).2) ->
  forall memory_buffer st, P st -> P (ParseLines memory_buffer st).
Proof.
  intros Hrecord Hlog Hline memory_buffer st Hst. unfold ParseLines.
  pose proof (Hline memory_buffer 0%nat st Hst) as Hnext.
  destruct (strtok_r_line memory_buffer 0 st) as [buffer st'].
  by apply ParseRecords_invariant.
Qed.

(** An invariant that reads the module and the count of errors alone. *)
Lemma ParseLines_module_invariant (P : ResolverModule -> Z -> Prop) :
  (forall buffer st,
     P st.(module_) st.(num_errors) ->
     P (ParseRecord buffer st).(module_) (ParseRecord buffer st).(num_errors)) ->
  forall memory_buffer st,
    P st.(module_) st.(num_errors) ->
    P (ParseLines memory_buffer st).(module_)
      (ParseLines memory_buffer st).(num_errors).
Proof.
  intros Hrecord.
  apply (ParseLines_invariant
           (fun st => P st.(module_) st.(num_errors))).
  - intros buffer st Hst. by apply (Hrecord buffer (next_line st)).
  - done.
  - intros memory s st Hst.
    destruct (strtok_r_line_locals memory s st) as (-> & _ & _ & -> & _).
    done.
Qed.

End StackRecords.

Section LoaderInvariant.
Context `{Externals}.

Lemma ParseRecord_ascending buffer st :
  ascending st.(module_).(cfi_delta_rules_) ->
  ascending (ParseRecord buffer st).(module_).(cfi_delta_rules_).
Proof.
  intros Hs. unfold ParseRecord.
  destruct (String.prefix "FILE " buffer).
  { unfold ParseFile. repeat case_match; simplify_eq; simpl; done. }
  destruct (String.prefix "STACK " buffer).
  { match goal with
    | |- context [ParseStackInfo ?m ?mem ?s] =>
        pose proof (ParseStackInfo_ascending m mem s Hs) as Ha;
        destruct (ParseStackInfo m mem s) as [[[] m'] mem']
    end; done. }
  unfold ParsePublicSymbol, store_line.
  repeat case_match; simplify_eq; simpl; done.
Qed.

(** Every module that the loader builds keeps its delta rules in
    ascending key order. *)
Lemma LoadMapFromMemory_ascending memory_buffer :
  ascending
    (LoadMapFromMemory new_Module memory_buffer).(loaded).(cfi_delta_rules_).
Proof.
  unfold LoadMapFromMemory. case_match; [constructor|].
  destruct (PrepareBuffer memory_buffer) as [[b l] h]. simpl.
  apply (ParseLines_module_invariant
           (fun m _ => ascending m.(cfi_delta_rules_))).
  - intros buffer st. apply ParseRecord_ascending.
  - destruct h; constructor.
Qed.

End LoaderInvariant.

Section LoaderFacts.
Context `{Externals}.

(** The count only grows. *)
Lemma ParseLines_num_errors_grow memory_buffer st :
  st.(num_errors) <= (ParseLines memory_buffer st).(num_errors).
Proof.
  apply (ParseLines_module_invariant (fun _ n => st.(num_errors) <= n));
    [|lia].
  intros buffer st' Hst'.
  pose proof (ParseRecord_num_errors buffer st'). lia.
Qed.

Lemma ParseAll_line_number k st :
  st.(line_number) <= (ParseAll k st).(line_number)
  <= st.(line_number) + Z.of_nat k.
Proof.
  revert st. induction k as [|k IH]; intros st; cbn [ParseAll]; [lia|].
  destruct (strtok_r_line_locals st.(line_end) st.(save_ptr) st)
    as (_ & _ & Hl & _).
  destruct (strtok_r_line _ _ st) as [[buffer|] st']; simpl in Hl; [|lia].
  specialize (IH (ParseRecord buffer (next_line st'))).
  rewrite ParseRecord_line_number in IH. simpl in IH. lia.
Qed.

(** The loop stops once the count of errors is above 100, and not
    before. It handles the first [k] lines that [strtok_r] hands out, one
    after the other; the count is at most 100 after each of them but the
    last; and it stops either where [strtok_r] finds no further line, or
    with a count above 100, which it logs. The fuel is enough: no turn is
    left out for want of it. *)
Lemma ParseRecords_prefix fuel st0 :
  (unread st0 <= fuel)%nat ->
  exists k : nat,
    let handled := ParseAll k st0 in
    handled.(line_number) = st0.(line_number) + Z.of_nat k
    /\ (forall j : nat,
          (1 <= j < k)%nat ->
          (ParseAll j st0).(num_errors) <= kMaxErrorsBeforeBailing)
    /\ ((line_left handled = false
         /\ ((1 <= k)%nat ->
             handled.(num_errors) <= kMaxErrorsBeforeBailing)
         /\ ParseRecords fuel
              (strtok_r_line st0.(line_end) st0.(save_ptr) st0).1
              (strtok_r_line st0.(line_end) st0.(save_ptr) st0).2
            = (strtok_r_line handled.(line_end) handled.(save_ptr)
                 handled).2)
        \/ ((1 <= k)%nat
            /\ kMaxErrorsBeforeBailing < handled.(num_errors)
            /\ ParseRecords fuel
                 (strtok_r_line st0.(line_end) st0.(save_ptr) st0).1
                 (strtok_r_line st0.(line_end) st0.(save_ptr) st0).2
               = BPLOG handled stopped_message)).
Proof.
  revert st0. induction fuel as [|fuel IH]; intros st0 Hfuel.
  - exists 0%nat. cbn [ParseAll].
    split; [lia|]. split; [intros; lia|]. left.
    pose proof (strtok_r_line_unread st0.(line_end) st0.(save_ptr) st0)
      as Hun.
    unfold line_left.
    destruct (strtok_r_line _ _ st0) as [[buffer|] st] eqn:Hst.
    + specialize (Hun buffer st eq_refl). unfold unread in *. lia.
    + split; [done|]. split; [lia|]. done.
  - pose proof (strtok_r_line_unread st0.(line_end) st0.(save_ptr) st0)
      as Hun.
    pose proof (strtok_r_line_locals st0.(line_end) st0.(save_ptr) st0)
      as (_ & _ & Hline & _).
    destruct (strtok_r_line _ _ st0) as [[buffer|] st] eqn:Hst.
    2: { exists 0%nat. cbn [ParseAll]. split; [lia|]. split; [intros; lia|].
         left. unfold line_left. rewrite Hst. split; [done|].
         split; [lia|]. done. }
    specialize (Hun buffer st eq_refl). simpl in Hline.
    cbn [fst snd ParseRecords].
    set (st1 := ParseRecord buffer (next_line st)).
    assert (ParseAll 1 st0 = st1) as Hone
      by (cbn [ParseAll]; by rewrite Hst).
    assert (forall k, ParseAll (S k) st0 = ParseAll k st1) as Hmore
      by (intros k; cbn [ParseAll]; by rewrite Hst).
    assert (line_number st1 = line_number st0 + 1) as Hl1.
    { unfold st1. rewrite ParseRecord_line_number. simpl. lia. }
    destruct (kMaxErrorsBeforeBailing <? num_errors st1) eqn:Hcap.
    + exists 1%nat. rewrite Hone.
      split; [lia|]. split; [intros; lia|]. right.
      split; [lia|]. split; [by apply Z.ltb_lt|done].
    + apply Z.ltb_ge in Hcap.
      destruct (IH st1) as (k & Hk & Hbelow & Hend).
      { unfold st1. rewrite ParseRecord_unread. unfold unread in *.
        simpl. lia. }
      exists (S k). rewrite Hmore.
      split; [cbv zeta in Hk; lia|]. split.
      { intros j Hj. destruct j as [|j]; [lia|]. rewrite Hmore.
        destruct j as [|j]; [done|]. apply Hbelow. lia. }
      destruct (strtok_r_line (line_end st1) (save_ptr st1) st1)
        as [buffer' st'] eqn:Hst1.
      cbn [fst snd] in Hend.
      destruct Hend as [(Hleft & Hle & Heq)|(Hk1 & Habove & Heq)].
      * left. split; [done|]. split; [|done].
        intros _. destruct k as [|k]; [done|]. apply Hle. lia.
      * right. split; [lia|]. by split.
Qed.

(** The count never passes 101. *)
Lemma ParseLines_error_bound memory_buffer st :
  st.(num_errors) <= kMaxErrorsBeforeBailing ->
  (ParseLines memory_buffer st).(num_errors) <= kMaxErrorsBeforeBailing + 1.
Proof.
  intros Hst. unfold ParseLines.
  pose proof (strtok_r_line_locals memory_buffer 0 st) as (_ & _ & _ & Hn & _).
  destruct (strtok_r_line memory_buffer 0 st) as [buffer st']. simpl in Hn.
  rewrite <- Hn in Hst. clear Hn. revert buffer st' Hst.
  induction (length memory_buffer) as [|fuel IH]; intros buffer st' Hst.
  - destruct buffer; simpl; lia.
  - destruct buffer as [buffer|]; [|simpl; lia]. cbn [ParseRecords].
    pose proof (ParseRecord_num_errors buffer (next_line st')) as Hstep.
    simpl in Hstep.
    destruct (_ <? _) eqn:Hcap; [simpl; lia|].
    apply Z.ltb_ge in Hcap.
    pose proof (strtok_r_line_locals
                  (line_end (ParseRecord buffer (next_line st')))
                  (save_ptr (ParseRecord buffer (next_line st')))
                  (ParseRecord buffer (next_line st')))
      as (_ & _ & _ & Hn & _).
    destruct (strtok_r_line _ _ (ParseRecord buffer (next_line st')))
      as [buffer' st'']. simpl in Hn.
    apply IH. lia.
Qed.

(** C7: [LoadMapFromMemory] returns true for every buffer. For a buffer
    that is not empty it sets [is_corrupt_] to whether an error was
    counted; for the empty one it leaves the module as it was and counts
    nothing, so that a fresh module is corrupt exactly when an error was
    counted, and loading nothing into it gives the empty module with
    [is_corrupt_] false. *)
Theorem LoadMapFromMemory_succeeds m memory_buffer :
  let r := LoadMapFromMemory m memory_buffer in
  let r0 := LoadMapFromMemory new_Module memory_buffer in
  r.(succeeded) = true
  /\ r.(loaded).(is_corrupt_)
     = match memory_buffer with
       | [] => m.(is_corrupt_)
       | _ => 0 <? r.(errors_counted)
       end
  /\ 0 <= r.(errors_counted)
  /\ (r0.(loaded).(is_corrupt_) = true <-> 0 < r0.(errors_counted))
  /\ LoadMapFromMemory new_Module []
     = {| succeeded := true; loaded := new_Module; lines_read := 0;
          errors_counted := 0; messages := []; buffer_at_loop := [] |}
  /\ new_Module.(is_corrupt_) = false.
Proof.
  intros r r0. unfold r, r0, LoadMapFromMemory.
  destruct memory_buffer as [|c memory_buffer]; simpl.
  - repeat split; try done; try lia.
  - destruct (PrepareBuffer (c :: memory_buffer)) as [[b l] h]. simpl.
    split; [done|]. split; [done|]. split.
    + match goal with
      | |- 0 <= num_errors (ParseLines b ?st) =>
          pose proof (ParseLines_num_errors_grow b st) as Hg;
          assert (0 <= num_errors st) by (destruct h; simpl; lia)
      end.
      lia.
    + split; [|done]. apply Z.ltb_lt.
Qed.

(** A load counts 101 errors at most. *)
Lemma LoadMapFromMemory_error_bound m memory_buffer :
  (LoadMapFromMemory m memory_buffer).(errors_counted)
  <= kMaxErrorsBeforeBailing + 1.
Proof.
  unfold LoadMapFromMemory. case_match; [done|].
  destruct (PrepareBuffer memory_buffer) as [[b l] h]. simpl.
  apply ParseLines_error_bound. by destruct h.
Qed.

(** The loop, entered from the state in which the load goes into it. *)
Lemma ParseLines_at_loop m memory_buffer :
  let '(b, _, h) := PrepareBuffer memory_buffer in
  let st :=
    if h then LogParseError null_terminator_message 0 (LoadState_init m)
    else LoadState_init m in
  let st0 := LoadState_at_loop m memory_buffer in
  ParseLines b st
  = ParseRecords (length b)
      (strtok_r_line st0.(line_end) st0.(save_ptr) st0).1
      (strtok_r_line st0.(line_end) st0.(save_ptr) st0).2
  /\ unread st0 = length b
  /\ st0.(num_errors) = (if h then 1 else 0)
  /\ st0.(line_number) = 0
  /\ st0.(module_) = m
  /\ st0.(log) = (if h then [[Text null_terminator_message]] else []).
Proof.
  unfold LoadState_at_loop, ParseLines.
  destruct (PrepareBuffer memory_buffer) as [[b l] h]. cbn [fst snd].
  split.
  - destruct h; simpl;
      by destruct (strtok_r_line b 0 _) as [buffer st'] eqn:E;
      unfold strtok_r_line in *;
      destruct (strtok_r_at b 0 kLineBreaks) as [[[?|] ?] ?];
      simplify_eq.
  - unfold unread. destruct h; simpl; repeat split; lia.
Qed.

(** C2, amended: [LoadMapFromMemory] stops reading lines once the count
    of errors is above 100, that is at 101, and not at 100. It handles the
    first [k] lines that [strtok_r] hands out and no other: the count is at
    most 100 after each of them but the last, and when [strtok_r] would
    find a further line the count is above 100. *)
Theorem LoadMapFromMemory_stops_above_the_cap m memory_buffer :
  let r := LoadMapFromMemory m memory_buffer in
  let st := LoadState_at_loop m memory_buffer in
  exists k : nat,
    r.(lines_read) = Z.of_nat k
    /\ (ParseAll k st).(line_number) = Z.of_nat k
    /\ r.(errors_counted) = (ParseAll k st).(num_errors)
    /\ r.(loaded)
       = match memory_buffer with
         | [] => m
         | _ => set_is_corrupt (ParseAll k st).(module_)
                  (0 <? r.(errors_counted))
         end
    /\ (forall j : nat,
          (1 <= j < k)%nat ->
          (ParseAll j st).(num_errors) <= kMaxErrorsBeforeBailing)
    /\ (line_left (ParseAll k st) = true ->
        kMaxErrorsBeforeBailing < r.(errors_counted))
    /\ r.(errors_counted) <= kMaxErrorsBeforeBailing + 1.
Proof.
  intros r st.
  pose proof (LoadMapFromMemory_error_bound m memory_buffer) as Hbound.
  fold r in Hbound.
  destruct memory_buffer as [|c memory_buffer].
  - exists 0%nat. repeat split; try done. all: intros; lia.
  - pose proof (ParseLines_at_loop m (c :: memory_buffer)) as Hloop.
    fold st in Hloop.
    unfold r, LoadMapFromMemory in *. cbn [length Nat.eqb] in *.
    destruct (PrepareBuffer (c :: memory_buffer)) as [[b l] h].
    cbv zeta in Hloop.
    destruct Hloop as (Heq & Hun & Herr & Hline & _).
    destruct (ParseRecords_prefix (length b) st) as (k & Hk & Hbelow & Hend);
      [lia|].
    cbv zeta in Hk, Hend. rewrite <- Heq in Hend.
    repeat match goal with
           | H' : context [ParseLines b ?s] |- _ =>
               progress change s with
                 (if h then
                    LogParseError null_terminator_message 0 (LoadState_init m)
                  else LoadState_init m) in H'
           | |- context [ParseLines b ?s] =>
               progress change s with
                 (if h then
                    LogParseError null_terminator_message 0 (LoadState_init m)
                  else LoadState_init m)
           end.
    cbn [LoadMapFromMemory_finish lines_read errors_counted loaded BPLOG
           set_log num_errors line_number module_] in *.
    exists k.
    destruct Hend as [(Hleft & _ & Hfin)|(Hk1 & Habove & Hfin)];
      rewrite Hfin in *.
    + destruct (strtok_r_line_locals (line_end (ParseAll k st))
                  (save_ptr (ParseAll k st)) (ParseAll k st))
        as (Hm & _ & Hl & Hn & _).
      rewrite Hm, Hl, Hn in *.
      repeat split; try done; try lia.
      intros Hl'. congruence.
    + simpl in *. repeat split; try done; lia.
Qed.

End LoaderFacts.

(** C2, as stated, fails on a buffer of 100 stray lines followed by
    [FILE 1 a.c], a stray line and [FILE 2 b.c]: the first 100 lines count
    100 errors, and still the loader reads the next line, stores its file,
    and reads the line after; it stops there, at 101 errors, before the
    last line. *)
Lemma parsing_goes_on_at_100_errors :
  (LoadMapFromMemory (H := sample_externals) new_Module
     hundred_strays).(errors_counted) = 100
  /\ (LoadMapFromMemory (H := sample_externals) new_Module
        hundred_strays_then_file).(lines_read) = 102
  /\ (LoadMapFromMemory (H := sample_externals) new_Module
        hundred_strays_then_file).(errors_counted) = 101
  /\ (LoadMapFromMemory (H := sample_externals) new_Module
        hundred_strays_then_file).(loaded).(files_) !! 1 = Some "a.c"
  /\ (LoadMapFromMemory (H := sample_externals) new_Module
        hundred_strays_then_file).(loaded).(files_) !! 2 = None.
Proof. repeat split; vm_compute; reflexivity. Qed.

(** ** The pass over the terminators of the buffer *)

Lemma skip_null_terminators_spec (b : list ascii) (n : nat) :
  (n <= length b)%nat ->
  let l := skip_null_terminators b n in
  (l <= n)%nat
  /\ (forall j, (l <= j < n)%nat -> b !! j = Some NUL)
  /\ (l = 0%nat \/ exists c, b !! (l - 1)%nat = Some c /\ c <> NUL).
Proof.
  induction n as [|n IH]; intros Hn; simpl.
  - repeat split; [lia|intros; lia|by left].
  - destruct (lookup_lt_is_Some_2 b n) as [c Hc]; [lia|].
    rewrite Hc. destruct (Ascii.eqb c NUL) eqn:Hnul.
    + apply Ascii.eqb_eq in Hnul. subst c.
      destruct IH as (Hle & Hrun & Hstop); [lia|].
      repeat split; [lia| |done].
      intros j Hj. destruct (decide (j = n)) as [->|]; [done|].
      apply Hrun. lia.
    + apply Ascii.eqb_neq in Hnul.
      repeat split; [lia|intros; lia|].
      right. exists c. replace (S n - 1)%nat with n by lia. done.
Qed.

Lemma replace_null_terminators_spec (b : list ascii) (l : nat) :
  (l <= length b)%nat ->
  let r := replace_null_terminators b l in
  length r.1 = length b
  /\ (forall j c,
        b !! j = Some c ->
        r.1 !! j
        = Some (if (j <? l)%nat && Ascii.eqb c NUL then "_"%char else c))
  /\ (r.2 = true <-> exists j, (j < l)%nat /\ b !! j = Some NUL).
Proof.
  unfold replace_null_terminators.
  induction l as [|l IH]; intros Hl.
  - simpl. split; [done|]. split.
    + intros j c Hj. by rewrite Hj.
    + split; [done|]. intros [j [Hj _]]. lia.
  - rewrite seq_S, foldl_app. simpl.
    destruct IH as (Hlen & Hget & Hflag); [lia|].
    destruct (foldl _ (b, false) (seq 0 l)) as [b1 h1]. simpl in *.
    destruct (lookup_lt_is_Some_2 b l) as [c Hc]; [lia|].
    pose proof (Hget l c Hc) as Hl1.
    replace (l <? l)%nat with false in Hl1
      by (symmetry; apply Nat.ltb_ge; lia).
    simpl in Hl1. rewrite Hl1.
    destruct (Ascii.eqb c NUL) eqn:Hnul; simpl.
    + apply Ascii.eqb_eq in Hnul. subst c.
      split; [by rewrite length_insert|]. split.
      * intros j c Hj. destruct (decide (j = l)) as [->|Hne].
        -- rewrite list_lookup_insert_eq by lia.
           rewrite Hc in Hj. injection Hj as <-.
           replace (l <? S l)%nat with true
             by (symmetry; apply Nat.ltb_lt; lia).
           done.
        -- rewrite list_lookup_insert_ne by done.
           rewrite (Hget j c Hj).
           replace (j <? S l)%nat with (j <? l)%nat; [done|].
           destruct (j <? l)%nat eqn:E1; symmetry.
           ++ apply Nat.ltb_lt in E1. apply Nat.ltb_lt. lia.
           ++ apply Nat.ltb_ge in E1. apply Nat.ltb_ge. lia.
      * split; [|done]. intros _. exists l. split; [lia|done].
    + apply Ascii.eqb_neq in Hnul.
      split; [done|]. split.
      * intros j c' Hj. rewrite (Hget j c' Hj).
        destruct (decide (j = l)) as [->|Hne].
        -- rewrite Hc in Hj. injection Hj as <-.
           replace (Ascii.eqb c NUL) with false
             by (symmetry; by apply Ascii.eqb_neq).
           by rewrite !andb_false_r.
        -- replace (j <? S l)%nat with (j <? l)%nat; [done|].
           destruct (j <? l)%nat eqn:E1; symmetry.
           ++ apply Nat.ltb_lt in E1. apply Nat.ltb_lt. lia.
           ++ apply Nat.ltb_ge in E1. apply Nat.ltb_ge. lia.
      * rewrite Hflag. split.
        -- intros [j [Hj Hn]]. exists j. split; [lia|done].
        -- intros [j [Hj Hn]]. exists j. split; [|done].
           destruct (decide (j = l)) as [->|]; [|lia].
           rewrite Hc in Hn. by injection Hn as ->.
Qed.

Section BufferFacts.
Context `{Externals}.

(** C8: when the buffer holds a terminator before the run of terminators
    that ends it (the run as it is once the last byte is a terminator),
    [LoadMapFromMemory] rewrites every such terminator to an underscore,
    leaves the other bytes before the run and the run itself as they are,
    and goes into the loop over the lines with an error count of 1,
    however many terminators it rewrote. *)
Theorem interior_null_terminators_count_once m memory_buffer l i :
  let size := length memory_buffer in
  let terminated := <[(size - 1)%nat := NUL]> memory_buffer in
  (l < size)%nat ->
  (forall j, (l <= j < size)%nat -> terminated !! j = Some NUL) ->
  terminated !! (l - 1)%nat <> Some NUL ->
  (i < l)%nat ->
  memory_buffer !! i = Some NUL ->
  let r := LoadMapFromMemory m memory_buffer in
  let st := LogParseError null_terminator_message 0 (LoadState_init m) in
  length r.(buffer_at_loop) = size
  /\ (forall j c,
        (j < l)%nat -> memory_buffer !! j = Some c ->
        r.(buffer_at_loop) !! j
        = Some (if Ascii.eqb c NUL then "_"%char else c))
  /\ (forall j, (l <= j < size)%nat -> r.(buffer_at_loop) !! j = Some NUL)
  /\ st.(num_errors) = 1
  /\ r = LoadMapFromMemory_finish
           (ParseLines r.(buffer_at_loop) st) r.(buffer_at_loop).
Proof.
  intros size terminated Hl Hrun Hstop Hi Hnul r st.
  unfold r, LoadMapFromMemory, PrepareBuffer.
  fold size. fold terminated.
  replace (size =? 0)%nat with false by (symmetry; apply Nat.eqb_neq; lia).
  assert (length terminated = size) as Hlen
    by (unfold terminated; by rewrite length_insert).
  assert (terminated !! (size - 1)%nat = Some NUL) as Hlast
    by (unfold terminated; apply list_lookup_insert_eq; lia).
  destruct (skip_null_terminators_spec terminated (size - 1))
    as (Hle & Hrun0 & Hstop0); [lia|].
  set (l0 := skip_null_terminators terminated (size - 1)) in *.
  assert (l0 = l) as ->.
  { destruct (Nat.lt_trichotomy l0 l) as [Hlt|[Heq|Hgt]]; [|done|].
    - exfalso. apply Hstop.
      destruct (decide (l - 1 = size - 1)%nat) as [->|]; [done|].
      apply Hrun0. lia.
    - exfalso. destruct Hstop0 as [->|(c & Hc & Hne)]; [lia|].
      rewrite Hrun in Hc by lia. by injection Hc as <-. }
  destruct (replace_null_terminators_spec terminated l)
    as (Hlen' & Hget & Hflag); [lia|].
  destruct (replace_null_terminators terminated l) as [b' h]. simpl in *.
  assert (forall j, (j < l)%nat -> terminated !! j = memory_buffer !! j)
    as Hsame.
  { intros j Hj. unfold terminated.
    apply list_lookup_insert_ne. lia. }
  assert (h = true) as ->.
  { apply Hflag. exists i. split; [done|]. by rewrite Hsame. }
  simpl. split; [lia|]. split; [|split; [|done]].
  - intros j c Hj Hc. rewrite <- Hsame in Hc by done.
    rewrite (Hget j c Hc).
    by replace (j <? l)%nat with true by (symmetry; by apply Nat.ltb_lt).
  - intros j Hj. rewrite (Hget j NUL) by (by apply Hrun).
    by replace (j <? l)%nat with false by (symmetry; apply Nat.ltb_ge; lia).
Qed.

End BufferFacts.

(** C8 on [ab\0\0cd\n\0\0], whose run of terminators starts at index 7:
    both terminators in the middle become underscores and count as one
    error; the second error is the line [ab__cd], a line without a
    function. *)
Lemma interior_null_terminators_witness :
  let r := LoadMapFromMemory (H := sample_externals) new_Module
             buffer_with_nulls in
  r.(buffer_at_loop) !! 2%nat = Some "_"%char
  /\ r.(buffer_at_loop) !! 3%nat = Some "_"%char
  /\ r.(errors_counted) = 2.
Proof.
  assert (forall j, (7 <= j < 9)%nat ->
            <[(9 - 1)%nat := NUL]> buffer_with_nulls !! j = Some NUL) as Hrun.
  { intros j Hj. assert (j = 7 \/ j = 8)%nat as [-> | ->] by lia; done. }
  destruct (interior_null_terminators_count_once (H := sample_externals)
              new_Module buffer_with_nulls 7 2
              ltac:(simpl; lia) Hrun ltac:(done) ltac:(lia) eq_refl)
    as (_ & Hget & _ & _ & Hr).
  split; [exact (Hget 2%nat NUL ltac:(lia) eq_refl)|].
  split; [exact (Hget 3%nat NUL ltac:(lia) eq_refl)|].
  vm_compute. reflexivity.
Defined.

(** The run of terminators is the one that ends the buffer once its last
    byte is a terminator: in [a\0b] the terminator at index 1 is part of
    it, is left as it is, and counts as no error. *)
Example terminator_before_the_last_byte :
  let r := LoadMapFromMemory (H := sample_externals) new_Module
             buffer_ending_in_null_and_byte in
  r.(buffer_at_loop) = ["a"; NUL; NUL]%char
  /\ r.(lines_read) = 1
  /\ r.(errors_counted) = 1
  /\ r.(messages)
     = [[Text "Line "; Number 1; Text ": ";
         Text "Found source line data without a function"];
        total_message 1].
Proof. repeat split. Qed.

(** * Further properties *)

(** ** The evaluator *)

Section EvaluatorMore.
Context `{Externals}.

Lemma run_loop frame memory loc s val :
  EvaluateDwarfExpression_loop frame memory loc s val
  = fst <$> EvaluateDwarfExpression_run frame memory loc s val.
Proof.
  revert s val. induction loc as [|ai loc IH]; intros s val; [done|].
  simpl. destruct (EvaluateDwarfExpression_step frame memory ai s val)
    as [[s' val']|]; [apply IH|done].
Qed.

Lemma run_app frame memory loc1 loc2 s val :
  EvaluateDwarfExpression_run frame memory (loc1 ++ loc2) s val
  = EvaluateDwarfExpression_run frame memory loc1 s val
    ≫= fun '(s', val') =>
          EvaluateDwarfExpression_run frame memory loc2 s' val'.
Proof.
  revert s val. induction loc1 as [|ai loc1 IH]; intros s val; [done|].
  simpl. destruct (EvaluateDwarfExpression_step frame memory ai s val)
    as [[s' val']|]; [apply IH|done].
Qed.

(** Every turn of the loop that does not return ends with [val] on top
    of the vector. *)
Lemma step_top frame memory ai s val s' val' :
  EvaluateDwarfExpression_step frame memory ai s val = Some (s', val') ->
  back s' = Some val'.
Proof.
  unfold EvaluateDwarfExpression_step. intros Hs.
  apply bind_Some in Hs as ([s1 v1] & _ & Hs). injection Hs as <- <-.
  apply back_snoc.
Qed.

Lemma run_top frame memory loc s val s' val' :
  loc <> [] ->
  EvaluateDwarfExpression_run frame memory loc s val = Some (s', val') ->
  back s' = Some val'.
Proof.
  revert s val. induction loc as [|ai loc IH]; intros s val Hne Hr; [done|].
  simpl in Hr. apply bind_Some in Hr as ([s1 v1] & Hstep & Hr).
  destruct loc as [|aj loc].
  - injection Hr as <- <-. by eapply step_top.
  - by eapply IH.
Qed.

(** The result of a program is the last [val], or 0 when a turn
    returned. *)
Lemma EvaluateDwarfExpression_run_result frame memory loc :
  loc <> [] ->
  EvaluateDwarfExpression frame memory loc
  = match EvaluateDwarfExpression_run frame memory loc [] indeterminate_val
    with
    | Some (_, val) => val
    | None => 0
    end.
Proof.
  intros Hne. unfold EvaluateDwarfExpression. rewrite run_loop.
  destruct (EvaluateDwarfExpression_run _ _ loc [] _) as [[s val]|] eqn:Hr;
    [|done].
  simpl. by rewrite (run_top _ _ _ _ _ _ _ Hne Hr).
Qed.

Lemma step_keeps_val frame memory ai s val s' val' :
  keeps_val (ai.(op) mod 256) = true ->
  EvaluateDwarfExpression_step frame memory ai s val = Some (s', val') ->
  val' = val.
Proof.
  unfold keeps_val. intros Hk Hs.
  destruct (named_opcode (op ai `mod` 256)) eqn:Hn.
  - rewrite orb_false_r in Hk.
    unfold EvaluateDwarfExpression_step in Hs.
    repeat (apply orb_true_iff in Hk as [Hk|Hk]);
      apply Z.eqb_eq in Hk; rewrite Hk in Hs;
      revert Hs; decide_tests; intros Hs;
      apply bind_Some in Hs as ([s1 v1] & Hb & Hs); injection Hs as <- <-.
    all: repeat match goal with
           | Hb : _ ≫= _ = Some _ |- _ =>
               apply bind_Some in Hb as (? & ? & Hb)
           | Hb : (if ?b then _ else _) = Some _ |- _ => destruct b
           end; by simplify_eq.
  - rewrite step_unnamed_opcode in Hs by done. by injection Hs as <- <-.
Qed.

Lemma run_keeps_val frame memory loc s val s' val' :
  Forall (fun ai => keeps_val (ai.(op) mod 256) = true) loc ->
  EvaluateDwarfExpression_run frame memory loc s val = Some (s', val') ->
  val' = val.
Proof.
  intros Hall. revert s val.
  induction Hall as [|ai loc Hk Hall IH]; intros s val Hr; simpl in Hr.
  - by injection Hr as <- <-.
  - apply bind_Some in Hr as ([s1 v1] & Hstep & Hr).
    apply IH in Hr. apply (step_keeps_val _ _ _ _ _ _ _ Hk) in Hstep.
    congruence.
Qed.

(** X2: [deref] at the end of a program reads the 64-bit word at the
    address that the program before it gives; the result is 0 when that
    program fails, when it is empty, or when the word cannot be read. *)
Theorem deref_reads_at_the_result frame memory loc v1 v2 :
  EvaluateDwarfExpression frame memory
    (loc ++ [{| op := DW_OP_deref; locValue1 := v1; locValue2 := v2 |}])
  = match
      EvaluateDwarfExpression_loop frame memory loc [] indeterminate_val
    with
    | Some (_ :: _) =>
        default 0
          (memory.(GetMemoryAtAddress64)
             (EvaluateDwarfExpression frame memory loc))
    | _ => 0
    end.
Proof.
  destruct loc as [|ai loc]; [reflexivity|].
  rewrite !EvaluateDwarfExpression_run_result by done.
  rewrite run_loop, run_app.
  destruct (EvaluateDwarfExpression_run _ _ (ai :: loc) [] _)
    as [[s val]|] eqn:Hr; [|done].
  apply run_top in Hr; [|done]. cbn [fmap option_fmap option_map fst mbind
                                       option_bind].
  destruct s as [|x s]; [done|].
  cbn [EvaluateDwarfExpression_run]. unfold_step. rewrite Hr.
  cbn [mbind option_bind].
  destruct (GetMemoryAtAddress64 memory val) as [v|]; reflexivity.
Qed.

Lemma to_int64_add a b : u64 (to_int64 a + to_int64 b) = u64 (a + b).
Proof.
  unfold to_int64, u64.
  rewrite (Z.add_mod a b) by lia.
  destruct (a mod 2 ^ 64 <? 2 ^ 63); destruct (b mod 2 ^ 64 <? 2 ^ 63).
  - done.
  - replace (a mod 2 ^ 64 + (b mod 2 ^ 64 - 2 ^ 64))
      with (a mod 2 ^ 64 + b mod 2 ^ 64 + (-1) * 2 ^ 64) by lia.
    by rewrite Z.mod_add by lia.
  - replace (a mod 2 ^ 64 - 2 ^ 64 + b mod 2 ^ 64)
      with (a mod 2 ^ 64 + b mod 2 ^ 64 + (-1) * 2 ^ 64) by lia.
    by rewrite Z.mod_add by lia.
  - replace (a mod 2 ^ 64 - 2 ^ 64 + (b mod 2 ^ 64 - 2 ^ 64))
      with (a mod 2 ^ 64 + b mod 2 ^ 64 + (-2) * 2 ^ 64) by lia.
    by rewrite Z.mod_add by lia.
Qed.

(** An operation that pushes [v] whatever the vector holds gives [v] at
    the end of a program that does not fail. *)
Lemma EvaluateDwarfExpression_snoc_value frame memory loc ai v :
  (forall s val,
     EvaluateDwarfExpression_step frame memory ai s val
     = Some (s ++ [v], v)) ->
  is_Some (EvaluateDwarfExpression_loop frame memory loc []
             indeterminate_val) ->
  EvaluateDwarfExpression frame memory (loc ++ [ai]) = v.
Proof.
  intros Hstep [s0 Hloop].
  rewrite EvaluateDwarfExpression_run_result by (by destruct loc).
  rewrite run_loop in Hloop. rewrite run_app.
  destruct (EvaluateDwarfExpression_run _ _ loc [] _) as [[s val]|];
    [|done].
  cbn [mbind option_bind EvaluateDwarfExpression_run].
  by rewrite Hstep.
Qed.

(** X3: [fbreg] and [breg0] to [breg31] add their operand to the frame
    base, or to the register, modulo 2^64, so that an operand that is the
    two's complement of an offset subtracts it. *)
Theorem frame_and_register_offsets_wrap frame memory loc v1 v2 n :
  is_Some (EvaluateDwarfExpression_loop frame memory loc []
             indeterminate_val) ->
  0 <= n <= 31 ->
  EvaluateDwarfExpression frame memory
    (loc ++ [{| op := DW_OP_fbreg; locValue1 := v1; locValue2 := v2 |}])
  = (frame.(GetFrameBase) + v1) mod 2 ^ 64
  /\ EvaluateDwarfExpression frame memory
       (loc ++ [{| op := DW_OP_breg0 + n; locValue1 := v1;
                   locValue2 := v2 |}])
     = (frame.(GetRegValue) n + v1) mod 2 ^ 64.
Proof.
  intros Hloop Hn. split.
  - apply EvaluateDwarfExpression_snoc_value; [|done].
    intros s val. unfold_step. cbn. by rewrite to_int64_add.
  - apply EvaluateDwarfExpression_snoc_value; [|done].
    intros s val.
    assert (exists k : nat, n = Z.of_nat k /\ (k <= 31)%nat) as (k & -> & Hk)
      by (exists (Z.to_nat n); lia).
    do 32 (destruct k as [|k]; [unfold_step; cbn; by rewrite to_int64_add|]).
    lia.
Qed.

Lemma sign_extend_spec bits v :
  0 < bits <= 64 ->
  sign_extend bits v
  = if v mod 2 ^ bits <? 2 ^ (bits - 1) then v mod 2 ^ bits
    else 2 ^ 64 - 2 ^ bits + v mod 2 ^ bits.
Proof.
  intros Hb. unfold sign_extend, u64.
  replace (2 ^ bits - 1) with (Z.ones bits)
    by (rewrite Z.ones_equiv; lia).
  rewrite Z.land_ones by lia.
  assert (0 < 2 ^ bits) by (apply Z.pow_pos_nonneg; lia).
  assert (2 ^ bits <= 2 ^ 64) by (apply Z.pow_le_mono_r; lia).
  pose proof (Z.mod_pos_bound v (2 ^ bits) ltac:(lia)) as Hlow.
  destruct (v mod 2 ^ bits <? 2 ^ (bits - 1)) eqn:Hsign.
  - apply Z.mod_small. lia.
  - replace (v mod 2 ^ bits - 2 ^ bits)
      with (2 ^ 64 - 2 ^ bits + v mod 2 ^ bits + (-1) * 2 ^ 64) by lia.
    rewrite Z.mod_add by lia. apply Z.mod_small. lia.
Qed.

(** X4: [const1s], [const2s] and [const4s] push the low 8, 16 or 32 bits
    of their operand, sign-extended to 64 bits: the low bits themselves
    when their top bit is clear, and else the low bits with every higher
    bit set. *)
Theorem signed_constants_sign_extend frame memory loc v1 v2 :
  is_Some (EvaluateDwarfExpression_loop frame memory loc []
             indeterminate_val) ->
  let result o :=
    EvaluateDwarfExpression frame memory
      (loc ++ [{| op := o; locValue1 := v1; locValue2 := v2 |}]) in
  let extended bits :=
    if v1 mod 2 ^ bits <? 2 ^ (bits - 1) then v1 mod 2 ^ bits
    else 2 ^ 64 - 2 ^ bits + v1 mod 2 ^ bits in
  result DW_OP_const1s = extended 8
  /\ result DW_OP_const2s = extended 16
  /\ result DW_OP_const4s = extended 32.
Proof.
  intros Hloop result extended. unfold result, extended.
  repeat split.
  - rewrite <- (sign_extend_spec 8) by lia.
    apply EvaluateDwarfExpression_snoc_value; [|done].
    intros s val. by unfold_step.
  - rewrite <- (sign_extend_spec 16) by lia.
    apply EvaluateDwarfExpression_snoc_value; [|done].
    intros s val. by unfold_step.
  - rewrite <- (sign_extend_spec 32) by lia.
    apply EvaluateDwarfExpression_snoc_value; [|done].
    intros s val. by unfold_step.
Qed.
End EvaluatorMore.

Lemma frame_and_register_offsets_wrap_witness :
  EvaluateDwarfExpression (H := sample_externals) (sample_frame 0)
    sample_memory
    [{| op := DW_OP_fbreg; locValue1 := 2 ^ 64 - 16; locValue2 := 0 |}]
  = 0x7000 - 16.
Proof.
  exact (proj1 (frame_and_register_offsets_wrap (H := sample_externals)
                  (sample_frame 0) sample_memory [] (2 ^ 64 - 16) 0 0
                  (mk_is_Some _ _ eq_refl) ltac:(lia))).
Defined.

Lemma signed_constants_sign_extend_witness :
  EvaluateDwarfExpression (H := sample_externals) (sample_frame 0)
    sample_memory
    [{| op := DW_OP_const1s; locValue1 := 0xf0; locValue2 := 0 |}]
  = 2 ^ 64 - 16.
Proof.
  exact (proj1 (signed_constants_sign_extend (H := sample_externals)
                  (sample_frame 0) sample_memory [] 0xf0 0
                  (mk_is_Some _ _ eq_refl))).
Defined.

Lemma length_swap_at {A} (i j : nat) (s : list A) :
  length (swap_at i j s) = length s.
Proof.
  unfold swap_at. repeat case_match; try done. by rewrite !length_insert.
Qed.

Lemma back_is_Some {A} (s : list A) : (1 <= length s)%nat -> is_Some (back s).
Proof.
  intros Hs. destruct (back s) eqn:E; [done|].
  apply back_None in E. subst. simpl in Hs. lia.
Qed.

Lemma length_pop_back {A} (s : list A) :
  length (pop_back s) = (length s - 1)%nat.
Proof. unfold pop_back. rewrite length_take. lia. Qed.

Section StackOperations.
Context `{Externals}.

(** A stack operation, and an opcode that the chain does not name, goes
    through exactly when the vector has the values that it tests for; it
    leaves [val] as it was. *)
Lemma step_stack_size frame memory ai s val :
  keeps_val (ai.(op) mod 256) = true ->
  match stack_size_after (length s) ai with
  | Some n =>
      exists s',
        EvaluateDwarfExpression_step frame memory ai s val = Some (s', val)
        /\ length s' = n
  | None => EvaluateDwarfExpression_step frame memory ai s val = None
  end.
Proof.
  unfold keeps_val. intros Hk.
  destruct (named_opcode (op ai `mod` 256)) eqn:Hn.
  - rewrite orb_false_r in Hk.
    unfold stack_size_after, EvaluateDwarfExpression_step.
    repeat (apply orb_true_iff in Hk as [Hk|Hk]);
      apply Z.eqb_eq in Hk; rewrite Hk; decide_tests.
    + (* dup *)
      destruct (1 <=? length s)%nat eqn:E.
      * apply Nat.leb_le in E. destruct (back_is_Some s E) as [top ->].
        eexists. split; [reflexivity|].
        unfold push_back. rewrite !length_app. simpl. lia.
      * apply Nat.leb_gt in E. destruct s; [done|simpl in E; lia].
    + (* drop *)
      destruct (1 <=? length s)%nat eqn:E.
      * apply Nat.leb_le in E. destruct (back_is_Some s E) as [top ->].
        eexists. split; [reflexivity|].
        unfold push_back. rewrite length_app, length_pop_back. simpl. lia.
      * apply Nat.leb_gt in E. destruct s; [done|simpl in E; lia].
    + (* pick *)
      destruct (1 <=? length s)%nat eqn:E; simpl.
      2: { apply Nat.leb_gt in E. destruct s; [done|simpl in E; lia]. }
      apply Nat.leb_le in E. destruct (back_is_Some s E) as [top ->]. simpl.
      replace (Z.of_nat (length s - 1)) with (Z.of_nat (length s) - 1)
        by lia.
      destruct (0 <=? locValue1 ai) eqn:E0; simpl.
      * apply Z.leb_le in E0.
        destruct (locValue1 ai <=? Z.of_nat (length s) - 1) eqn:E1.
        -- apply Z.leb_le in E1.
           replace (Z.of_nat (length s) - 1 <? locValue1 ai) with false
             by (symmetry; apply Z.ltb_ge; lia).
           destruct (lookup_lt_is_Some_2 s
                       (Z.to_nat (Z.of_nat (length s) - 1 - locValue1 ai)))
             as [x ->]; [lia|].
           eexists. split; [reflexivity|].
           unfold push_back. rewrite !length_app. simpl. lia.
        -- apply Z.leb_gt in E1.
           by replace (Z.of_nat (length s) - 1 <? locValue1 ai) with true
             by (symmetry; apply Z.ltb_lt; lia).
      * apply Z.leb_gt in E0.
        replace (Z.of_nat (length s) - 1 <? locValue1 ai) with false
          by (symmetry; apply Z.ltb_ge; lia).
        rewrite lookup_ge_None_2 by lia. done.
    + (* over *)
      destruct (2 <=? length s)%nat eqn:E.
      * apply Nat.leb_le in E.
        replace (length s <? 2)%nat with false
          by (symmetry; apply Nat.ltb_ge; lia).
        destruct (lookup_lt_is_Some_2 s (length s - 2)) as [x ->]; [lia|].
        eexists. split; [reflexivity|].
        unfold push_back. rewrite !length_app. simpl. lia.
      * apply Nat.leb_gt in E.
        by replace (length s <? 2)%nat with true
          by (symmetry; apply Nat.ltb_lt; lia).
    + (* swap *)
      destruct (2 <=? length s)%nat eqn:E.
      * apply Nat.leb_le in E.
        replace (length s <? 2)%nat with false
          by (symmetry; apply Nat.ltb_ge; lia).
        eexists. split; [reflexivity|].
        unfold push_back. rewrite length_app, length_swap_at. simpl. lia.
      * apply Nat.leb_gt in E.
        by replace (length s <? 2)%nat with true
          by (symmetry; apply Nat.ltb_lt; lia).
    + (* rot *)
      destruct (3 <=? length s)%nat eqn:E.
      * apply Nat.leb_le in E.
        replace (length s <? 3)%nat with false
          by (symmetry; apply Nat.ltb_ge; lia).
        eexists. split; [reflexivity|].
        unfold push_back. rewrite length_app, !length_swap_at. simpl. lia.
      * apply Nat.leb_gt in E.
        by replace (length s <? 3)%nat with true
          by (symmetry; apply Nat.ltb_lt; lia).
  - rewrite step_unnamed_opcode by done.
    unfold stack_size_after. unfold named_opcode in Hn.
    repeat (apply orb_false_elim in Hn as [Hn ?]).
    repeat match goal with
      | Hb : ?b = false |- context [?b] => rewrite Hb
      end.
    eexists. split; [reflexivity|]. rewrite length_app. simpl. lia.
Qed.

Lemma run_stack_suffices frame memory suffix s val :
  Forall (fun ai => keeps_val (ai.(op) mod 256) = true) suffix ->
  if stack_suffices (length s) suffix then
    exists s',
      EvaluateDwarfExpression_run frame memory suffix s val = Some (s', val)
  else EvaluateDwarfExpression_run frame memory suffix s val = None.
Proof.
  intros Hall. revert s.
  induction Hall as [|ai suffix Hk Hall IH]; intros s; simpl.
  - by eexists.
  - pose proof (step_stack_size frame memory ai s val Hk) as Hstep.
    destruct (stack_size_after (length s) ai) as [n|].
    + destruct Hstep as (s' & -> & <-). simpl. apply IH.
    + by rewrite Hstep.
Qed.

(** X1: the stack operations [dup], [drop], [pick], [over], [swap] and
    [rot], and the opcodes that the evaluator does not know, never change
    the result of the program before them. Appended to a program, in any
    number, they give its result again when each of them finds on the
    vector the values that it tests for, and 0 when one of them does not;
    and 0 when the program itself returns early. *)
Theorem stack_operations_keep_the_result frame memory loc suffix :
  loc <> [] ->
  Forall (fun ai => keeps_val (ai.(op) mod 256) = true) suffix ->
  EvaluateDwarfExpression frame memory (loc ++ suffix)
  = match
      EvaluateDwarfExpression_loop frame memory loc [] indeterminate_val
    with
    | Some s =>
        if stack_suffices (length s) suffix
        then EvaluateDwarfExpression frame memory loc
        else 0
    | None => 0
    end.
Proof.
  intros Hne Hall.
  rewrite !EvaluateDwarfExpression_run_result by (by destruct loc).
  rewrite run_app, run_loop.
  destruct (EvaluateDwarfExpression_run _ _ loc [] _) as [[s val]|];
    [|done].
  simpl.
  pose proof (run_stack_suffices frame memory suffix s val Hall) as Hrun.
  destruct (stack_suffices (length s) suffix).
  - by destruct Hrun as [s' ->].
  - by rewrite Hrun.
Qed.

End StackOperations.

Lemma stack_operations_keep_the_result_witness :
  EvaluateDwarfExpression (H := sample_externals) (sample_frame 0)
    sample_memory
    ([DW_OP_lit 5; DW_OP_lit 7] ++ [op_only DW_OP_drop; op_only DW_OP_swap])
  = 7
  /\ EvaluateDwarfExpression (H := sample_externals) (sample_frame 0)
       sample_memory
       ([DW_OP_lit 5] ++ [op_only DW_OP_drop; op_only DW_OP_swap])
     = 0.
Proof.
  split.
  - apply (stack_operations_keep_the_result (H := sample_externals)
             (sample_frame 0) sample_memory [DW_OP_lit 5; DW_OP_lit 7]
             [op_only DW_OP_drop; op_only DW_OP_swap]).
    + discriminate.
    + repeat constructor.
  - apply (stack_operations_keep_the_result (H := sample_externals)
             (sample_frame 0) sample_memory [DW_OP_lit 5]
             [op_only DW_OP_drop; op_only DW_OP_swap]).
    + discriminate.
    + repeat constructor.
Defined.

(** ** Parameters and lookups *)

Section ReadFuncParamsMore.
Context `{Externals}.

Lemma ReadFuncParams_loop_entries frame memory params info :
  exists kept out,
    sublist kept params
    /\ ReadFuncParams_loop frame memory params info = info ++ out
    /\ Forall2 describes out kept.
Proof.
  revert info. induction params as [|p params IH]; intros info.
  - exists [], []. by rewrite app_nil_r.
  - simpl. destruct (FuncParam.typeSize p <=? 0).
    + destruct (IH (push_back info
                      {| ParamInfo.typeName := FuncParam.typeName p;
                         ParamInfo.typeSize := FuncParam.typeSize p;
                         ParamInfo.paramName := FuncParam.paramName p;
                         ParamInfo.value := EmptyString |}))
        as (kept & out & Hsub & -> & Hall).
      eexists (p :: kept), (_ :: out). split; [by constructor|].
      split; [unfold push_back; by rewrite <- app_assoc|].
      by constructor.
    + destruct (EvaluateDwarfExpression frame memory (FuncParam.locs p) =? 0).
      * destruct (IH info) as (kept & out & Hsub & -> & Hall).
        exists kept, out. split; [by constructor|done].
      * destruct (GetMemoryAtAddress64 memory _) as [value|].
        -- destruct (IH (push_back info
                      {| ParamInfo.typeName := FuncParam.typeName p;
                         ParamInfo.typeSize := FuncParam.typeSize p;
                         ParamInfo.paramName := FuncParam.paramName p;
                         ParamInfo.value :=
                           format_param memory (FuncParam.typeName p)
                             (FuncParam.typeSize p)
                             (EvaluateDwarfExpression frame memory
                                (FuncParam.locs p)) value |}))
             as (kept & out & Hsub & -> & Hall).
           eexists (p :: kept), (_ :: out). split; [by constructor|].
           split; [unfold push_back; by rewrite <- app_assoc|].
           by constructor.
        -- exists [], []. split; [apply sublist_nil_l|].
           by rewrite app_nil_r.
Qed.

(** X5: what [ReadFuncParams] leaves in the list, for a memory that is
    not null and parameters that are not none, describes parameters of the
    function in their order: each entry carries the type name, the type
    size and the name of a parameter, no parameter is described twice, and
    what was in the list before is gone. *)
Theorem ReadFuncParams_describes_parameters frame memory params info :
  params <> [] ->
  exists kept,
    sublist kept params
    /\ Forall2 describes
         (ReadFuncParams frame params (Some memory) info) kept.
Proof.
  intros Hne. unfold ReadFuncParams.
  destruct params as [|p params]; [done|].
  destruct (ReadFuncParams_loop_entries frame memory (p :: params) [])
    as (kept & out & Hsub & -> & Hall).
  by exists kept.
Qed.

Lemma mask_spec typeSize value :
  typeSize = 2 \/ typeSize = 4 \/ typeSize = 6 \/ typeSize = 8 ->
  0 <= value < 2 ^ 64 ->
  Z.land value
    (Z.shiftr (u64 (Z.shiftl UINT64_MAX (Z.shiftl (8 - typeSize) 3)))
       (Z.shiftl (8 - typeSize) 3))
  = value mod 2 ^ (8 * typeSize).
Proof.
  intros Hsize Hv.
  destruct Hsize as [-> | [-> | [-> | ->]]].
  - change (Z.shiftr _ _) with (Z.ones 16). by rewrite Z.land_ones.
  - change (Z.shiftr _ _) with (Z.ones 32). by rewrite Z.land_ones.
  - change (Z.shiftr _ _) with (Z.ones 48). by rewrite Z.land_ones.
  - change (Z.shiftr _ _) with (Z.ones 64). by rewrite Z.land_ones.
Qed.

(** X6: a value whose type name has no asterisk, no ampersand and
    neither [float] nor [double], and whose type size is 2, 4, 6 or 8, is
    shown in hexadecimal
    after [0x], cut down to the bytes of its type, and the dump of its
    bytes follows after a comma; with any other type size the text is the
    dump alone. *)
Theorem format_param_truncates memory typeName typeSize addr value :
  0 < typeSize ->
  addr <> 0 ->
  0 <= value < 2 ^ 64 ->
  str_contains "*" typeName = false ->
  str_contains "&" typeName = false ->
  str_contains "float" typeName = false ->
  str_contains "double" typeName = false ->
  let byte_value :=
    default indeterminate_byte (memory.(GetMemoryAtAddress8) addr) in
  format_param memory typeName typeSize addr value
  = dump_bytes memory addr (Z.to_nat (typeSize - 1)) 1 byte_value
      ((if (typeSize mod 2 =? 0) && (typeSize <=? 8) then
          "0x" +:+ hex_digits (value mod 2 ^ (8 * typeSize)) +:+ ", "
        else EmptyString)
       +:+ "hex:" +:+ hex_digits byte_value).
Proof.
  intros Hpos Haddr Hv Hp Hr Hf Hd byte_value.
  unfold format_param. rewrite Hp, Hr, Hf, Hd. cbn [orb].
  replace (addr =? 0) with false by (symmetry; by apply Z.eqb_neq).
  fold byte_value.
  destruct ((typeSize mod 2 =? 0) && (typeSize <=? 8)) eqn:Hsimple; [|done].
  apply andb_true_iff in Hsimple as [Heven Hle].
  apply Z.eqb_eq in Heven. apply Z.leb_le in Hle.
  rewrite mask_spec; [done| |done].
  assert (typeSize = 2 * (typeSize / 2)) by (apply Z_div_exact_2; lia).
  lia.
Qed.

(** The evaluator reads the frame through [GetFrameBase] and
    [GetRegValue] alone. *)
Lemma EvaluateDwarfExpression_frame frame1 frame2 memory loc :
  frame1.(GetFrameBase) = frame2.(GetFrameBase) ->
  frame1.(GetRegValue) = frame2.(GetRegValue) ->
  EvaluateDwarfExpression frame1 memory loc
  = EvaluateDwarfExpression frame2 memory loc.
Proof.
  intros Hb Hr. unfold EvaluateDwarfExpression. f_equal.
  generalize (@nil Z) indeterminate_val.
  induction loc as [|ai loc IH]; intros s val; [done|].
  simpl.
  assert (EvaluateDwarfExpression_step frame1 memory ai s val
          = EvaluateDwarfExpression_step frame2 memory ai s val) as ->
    by (unfold EvaluateDwarfExpression_step; by rewrite Hb, Hr).
  destruct (EvaluateDwarfExpression_step frame2 memory ai s val)
    as [[s' val']|]; [apply IH|done].
Qed.

Lemma ReadFuncParams_frame frame1 frame2 params memory info :
  frame1.(GetFrameBase) = frame2.(GetFrameBase) ->
  frame1.(GetRegValue) = frame2.(GetRegValue) ->
  ReadFuncParams frame1 params memory info
  = ReadFuncParams frame2 params memory info.
Proof.
  intros Hb Hr. unfold ReadFuncParams.
  destruct memory as [memory|]; [|done].
  destruct params as [|p0 params0]; [done|].
  generalize (p0 :: params0) (@nil ParamInfo.t). clear p0 params0.
  intros params. induction params as [|p params IH]; intros acc; [done|].
  simpl. rewrite (EvaluateDwarfExpression_frame frame1 frame2) by done.
  repeat case_match; try done; apply IH.
Qed.

Lemma u64_relocated_difference i b d :
  u64 (u64 (i + d) - u64 (b + d)) = u64 (i - b).
Proof.
  unfold u64. rewrite <- Zminus_mod. f_equal. lia.
Qed.

Lemma u64_relocated_sum b d x :
  u64 (u64 (b + d) + x) = u64 (u64 (b + x) + d).
Proof.
  unfold u64. rewrite !Zplus_mod_idemp_l. f_equal. lia.
Qed.

(** X7: [LookupAddress] sees the module-relative address alone. In a
    frame of the same registers whose instruction and whose module base
    are both [d] further (modulo 2^64) it finds the same function name,
    source file, line and parameters, and a function base that is [d]
    further when one was found. *)
Theorem LookupAddress_relocation m memory frame d :
  let address := u64 (frame.(instruction) - frame.(base_address)) in
  let found := LookupAddress m memory frame in
  let moved := LookupAddress m memory (relocate d frame) in
  moved.(function_name) = found.(function_name)
  /\ moved.(source_file_name) = found.(source_file_name)
  /\ moved.(source_line) = found.(source_line)
  /\ moved.(params) = found.(params)
  /\ moved.(function_base)
     = match evidence_at m address with
       | NoEvidence => found.(function_base)
       | _ => u64 (found.(function_base) + d)
       end.
Proof.
  intros address found moved.
  unfold moved, found, LookupAddress, evidence_at, relocate.
  cbn [instruction base_address]. rewrite u64_relocated_difference.
  fold address.
  destruct (RangeMap.RetrieveNearestRange (functions_ m) address)
    as [[[func fb] fs]|]; cbn [mbind option_bind].
  - destruct (address_in_range address fb fs).
    + cbn [set_function set_params params base_address function_name
             function_base source_file_name].
      erewrite (ReadFuncParams_frame (set_function _ _ _)
                  (set_function frame (Function.name func)
                     (u64 (base_address frame + fb)))) by done.
      destruct (RangeMap.RetrieveRange _ address) as [[[line lb] ls]|];
        cbn; repeat split; try done; apply u64_relocated_sum.
    + destruct (AddressMap.Retrieve _ address) as [[p pa]|]; [|done].
      destruct (fb <? pa); [|done].
      cbn. repeat split; try done. apply u64_relocated_sum.
  - destruct (AddressMap.Retrieve _ address) as [[p pa]|]; [|done].
    cbn. repeat split; try done. apply u64_relocated_sum.
Qed.

End ReadFuncParamsMore.

Lemma ReadFuncParams_describes_parameters_witness :
  exists kept,
    sublist kept
      [sample_param "a" 0x53; sample_param "b" 0x54; sample_param "c" 0x53]
    /\ Forall2 describes
         (ReadFuncParams (H := sample_externals) (sample_frame 0)
            [sample_param "a" 0x53; sample_param "b" 0x54;
             sample_param "c" 0x53] (Some sample_memory) []) kept.
Proof.
  apply (ReadFuncParams_describes_parameters (H := sample_externals)).
  discriminate.
Defined.

Lemma format_param_truncates_witness :
  format_param (H := sample_externals) sample_memory "int" 4 0x103
    0x1122334455
  = "0x22334455, hex:7 7 7 7".
Proof.
  exact (format_param_truncates (H := sample_externals) sample_memory
           "int" 4 0x103 0x1122334455
           ltac:(lia) ltac:(lia) ltac:(lia) eq_refl eq_refl eq_refl eq_refl).
Defined.

(** ** Call frame information *)

Lemma innermost_In {E} better (l : list (RangeMap.Range E)) r :
  RangeMap.innermost better l = Some r -> In r l.
Proof.
  revert r. induction l as [|x l IH]; intros r; simpl; [done|].
  destruct (RangeMap.innermost better l) as [r'|].
  - destruct (better r' x); intros [= <-]; auto.
  - intros [= <-]. auto.
Qed.

Lemma RetrieveRange_covers {E} (m : RangeMap.t E) address e b s :
  RangeMap.RetrieveRange m address = Some (e, b, s) ->
  address_in_range address b s = true.
Proof.
  unfold RangeMap.RetrieveRange. intros Hr.
  apply fmap_Some in Hr as (r & Hr & Heq).
  apply innermost_In, filter_In in Hr as [_ Hc].
  unfold RangeMap.result in Heq. by injection Heq as -> -> ->.
Qed.

Lemma filter_split_sorted (l : StdMap.t string) ib a1 a2 :
  ascending l -> ib <= a1 <= a2 ->
  List.filter (fun kv : Z * string => (ib <=? kv.1) && (kv.1 <=? a2)) l
  = List.filter (fun kv : Z * string => (ib <=? kv.1) && (kv.1 <=? a1)) l
    ++ List.filter (fun kv : Z * string => (a1 <? kv.1) && (kv.1 <=? a2)) l.
Proof.
  unfold ascending, StdMap.keys. intros Hs Ha.
  induction l as [|[k v] l IH]; [done|].
  simpl in Hs. apply StronglySorted_inv in Hs as [Hs Hall].
  specialize (IH Hs). simpl.
  destruct (ib <=? k) eqn:E1; destruct (k <=? a1) eqn:E2;
    destruct (k <=? a2) eqn:E3; destruct (a1 <? k) eqn:E4;
    try lia; simpl; rewrite ?IH; try done.
  rewrite (filter_none (fun kv : Z * string =>
                          (ib <=? kv.1) && (kv.1 <=? a1)) l); [done|].
  intros [k' v'] Hin. simpl.
  rewrite Forall_forall in Hall.
  assert (k < k') by (apply Hall; by apply (list_elem_of_fmap_2 fst) in Hin).
  lia.
Qed.

Section CFIMore.
Context `{Externals}.

(** X8: along the range of one [STACK CFI INIT] record the rule sets
    build on one another: the rule set at an address is the rule set at
    any lower address of the range with the delta rules between the two
    addresses applied to it, in ascending order; where the one is null
    the other is too. *)
Theorem FindCFIFrameInfo_composes m frame1 frame2 rules initial_base
    size1 size2 :
  let address1 := u64 (frame1.(instruction) - frame1.(base_address)) in
  let address2 := u64 (frame2.(instruction) - frame2.(base_address)) in
  ascending m.(cfi_delta_rules_) ->
  address1 <= address2 ->
  RangeMap.RetrieveRange m.(cfi_initial_rules_) address1
  = Some (rules, initial_base, size1) ->
  RangeMap.RetrieveRange m.(cfi_initial_rules_) address2
  = Some (rules, initial_base, size2) ->
  FindCFIFrameInfo m frame2
  = (found ← FindCFIFrameInfo m frame1;
     Some (foldl apply_rule found (delta_rules_after m address1 address2))).
Proof.
  intros address1 address2 Hs Hle H1 H2.
  pose proof (RetrieveRange_covers _ _ _ _ _ H1) as Hc.
  unfold address_in_range in Hc. apply andb_true_iff in Hc as [Hc _].
  apply Z.leb_le in Hc.
  unfold FindCFIFrameInfo. fold address1 address2. rewrite H1, H2.
  cbn [mbind option_bind].
  destruct (ParseCFIRuleSet rules new_CFIFrameInfo) as [ok parsed].
  destruct ok; [|done]. cbn [negb mbind option_bind].
  rewrite !apply_delta_rules_lower_bound by done.
  rewrite (filter_split_sorted _ initial_base address1 address2) by done.
  by rewrite foldl_app.
Qed.

End CFIMore.

Lemma FindCFIFrameInfo_composes_witness :
  FindCFIFrameInfo (H := sample_externals) sample_module (frame_at 0x1050)
  = (found ← FindCFIFrameInfo (H := sample_externals) sample_module
               (frame_at 0x1030);
     Some (foldl (apply_rule (H := sample_externals)) found
             (delta_rules_after sample_module 0x1030 0x1050))).
Proof.
  apply (FindCFIFrameInfo_composes (H := sample_externals) sample_module
           (frame_at 0x1030) (frame_at 0x1050) ".cfa: rsp 8 +" 0x1000
           0x100 0x100).
  - unfold ascending. simpl. repeat constructor; lia.
  - vm_compute. discriminate.
  - reflexivity.
  - reflexivity.
Defined.

(** ** The loop of the loader *)

Section LoaderMore.
Context `{Externals}.

(** X9: a line that counts as an error changes nothing in the module. *)
Theorem erroneous_line_leaves_the_module buffer st :
  (ParseRecord buffer st).(num_errors) <> st.(num_errors) ->
  (ParseRecord buffer st).(module_) = st.(module_).
Proof.
  intros Hne.
  destruct (ParseRecord_cases buffer st) as [[Heq _]|(msg & _ & _ & Hm)];
    [done|exact Hm].
Qed.

End LoaderMore.

Lemma erroneous_line_leaves_the_module_witness :
  (ParseRecord (H := sample_externals) "FILE x" state_in_function).(module_)
  = new_Module.
Proof.
  apply (erroneous_line_leaves_the_module (H := sample_externals)
           "FILE x" state_in_function).
  vm_compute. discriminate.
Defined.

(** ** Lines in the buffer *)

Lemma c_str_strspn l delim :
  c_str (drop (strspn l delim) l) = skip_delims delim (c_str l).
Proof.
  induction l as [|c l IH]; simpl; [done|].
  destruct (Ascii.eqb c NUL) eqn:Hc; simpl; [by rewrite Hc|].
  destruct (strchr delim c) eqn:Hd; simpl; [done|]. by rewrite Hc.
Qed.

Lemma take_token_strcspn l delim :
  take_token delim (c_str l)
  = (string_of_list_ascii (take (strcspn l delim) l),
     if Ascii.eqb (byte_at l (strcspn l delim)) NUL then EmptyString
     else c_str (drop (S (strcspn l delim)) l)).
Proof.
  induction l as [|c l IH]; simpl; [done|].
  destruct (Ascii.eqb c NUL) eqn:Hc; simpl.
  { unfold byte_at. simpl. by rewrite Hc. }
  destruct (strchr delim c) eqn:Hd; simpl.
  { unfold byte_at. simpl. by rewrite Hc. }
  rewrite IH. done.
Qed.

Lemma c_str_terminator l :
  Ascii.eqb (byte_at l 0) NUL = true -> c_str l = EmptyString.
Proof.
  destruct l as [|c l]; [done|]. unfold byte_at. simpl. by intros ->.
Qed.

Lemma c_str_at_drop memory p q :
  c_str_at (drop p memory) q = c_str_at memory (p + q).
Proof. unfold c_str_at. by rewrite drop_drop. Qed.

(** [strtok_r] in the buffer hands out what [strtok_r] hands out of the
    string at the pointer, and leaves [save_ptr] at the rest of it. *)
Lemma strtok_r_at_strtok_r memory s delim :
  let '(token, memory', save_ptr') := strtok_r_at memory s delim in
  match strtok_r delim (c_str_at memory s) with
  | Some (line, rest) =>
      exists start,
        token = Some start
        /\ c_str_at memory' start = line
        /\ c_str_at memory' save_ptr' = rest
  | None => token = None
  end.
Proof.
  unfold strtok_r_at, strtok_r, c_str_at.
  rewrite <- c_str_strspn.
  set (a := strspn (drop s memory) delim).
  rewrite drop_drop.
  replace (byte_at memory (s + a)) with (byte_at (drop (s + a) memory) 0)
    by (rewrite byte_at_drop; f_equal; lia).
  set (l := drop (s + a) memory).
  destruct (Ascii.eqb (byte_at l 0) NUL) eqn:Hstart.
  { by rewrite (c_str_terminator l Hstart). }
  assert (exists c t, c_str l = String c t) as (c & t & Hl).
  { destruct l as [|c l']; [done|]. unfold byte_at in Hstart.
    simpl in *. rewrite Hstart. by eexists _, _. }
  rewrite Hl, <- Hl. rewrite take_token_strcspn.
  set (n := strcspn l delim).
  replace (byte_at memory (s + a + n)) with (byte_at l n)
    by (unfold l; by rewrite byte_at_drop).
  destruct (Ascii.eqb (byte_at l n) NUL) eqn:Hend.
  - exists (s + a)%nat. split; [done|]. fold l. split.
    + by apply c_str_strcspn_terminated.
    + replace (drop (s + a + n) memory) with (drop n l)
        by (unfold l; by rewrite drop_drop).
      apply c_str_terminator. rewrite byte_at_drop.
      by replace (n + 0)%nat with n by lia.
  - exists (s + a)%nat. split; [done|]. split.
    + rewrite drop_insert_ge by lia. fold l.
      replace (s + a + n - (s + a))%nat with n by lia.
      apply c_str_strcspn.
    + rewrite drop_insert_lt by lia.
      unfold l. rewrite drop_drop. f_equal. f_equal. lia.
Qed.

(** The line that the loop is given is the first of the lines of the
    bytes at the pointer, and the lines of the bytes at [save_ptr] are the
    others. *)
Lemma strtok_r_line_lines_of_buffer memory s st :
  match (strtok_r_line memory s st).1 with
  | Some line =>
      lines_of_buffer (drop s memory)
      = line :: lines_of_buffer
                  (drop (strtok_r_line memory s st).2.(save_ptr)
                     (strtok_r_line memory s st).2.(line_end))
  | None => lines_of_buffer (drop s memory) = []
  end.
Proof.
  unfold strtok_r_line, lines_of_buffer.
  rewrite strtok_all_strtok_r.
  pose proof (strtok_r_at_strtok_r memory s kLineBreaks) as Hs.
  pose proof (strtok_r_at_spec memory s kLineBreaks) as Hspec.
  unfold c_str_at in Hs at 1.
  destruct (strtok_r_at memory s kLineBreaks) as [[token memory'] p].
  destruct (strtok_r kLineBreaks (c_str (drop s memory)))
    as [[line rest]|]; [|by subst token].
  destruct Hs as (start & -> & Hline & Hrest). simpl.
  destruct Hspec as (_ & _ & _ & _ & Hterm). cbv zeta in Hterm.
  destruct Hterm as (_ & Hp & _).
  rewrite Hline in *. f_equal.
  rewrite drop_drop.
  replace (start + String.length line + (p - (start + String.length line)))%nat
    with p by lia.
  fold (c_str_at memory' p). by rewrite Hrest.
Qed.

Lemma strtok_all_cons delim c s :
  strtok_all delim (String c s)
  = if strchr delim c then strtok_all delim s
    else
      match s with
      | String c' _ =>
          if strchr delim c' then String c EmptyString :: strtok_all delim s
          else
            match strtok_all delim s with
            | token :: rest' => String c token :: rest'
            | [] => [String c EmptyString]
            end
      | EmptyString => [String c EmptyString]
      end.
Proof. by destruct s. Qed.

Lemma strtok_all_cons_length delim c s :
  strchr delim c = false ->
  (1 <= length (strtok_all delim (String c s)))%nat.
Proof.
  intros Hc. rewrite strtok_all_cons, Hc.
  destruct s as [|c' s']; [simpl; lia|].
  destruct (strchr delim c'); [simpl; lia|].
  destruct (strtok_all delim (String c' s')); simpl; lia.
Qed.

(** A string has at least the tokens of each string that it starts
    with. *)
Lemma strtok_all_app_length delim s1 s2 :
  (length (strtok_all delim s1) <= length (strtok_all delim (s1 +:+ s2)))%nat.
Proof.
  induction s1 as [|c s1 IH]; [simpl; lia|].
  change ((String c s1) +:+ s2) with (String c (s1 +:+ s2)).
  rewrite !(strtok_all_cons delim c).
  destruct (strchr delim c) eqn:Hc; [exact IH|].
  destruct s1 as [|c' s1'].
  - pose proof (strtok_all_cons_length delim c s2 Hc) as Hone.
    rewrite strtok_all_cons, Hc in Hone. exact Hone.
  - change ((String c' s1') +:+ s2) with (String c' (s1' +:+ s2)) in *.
    destruct (strchr delim c') eqn:Hc'; rewrite ?Hc'; [cbn [length]; lia|].
    pose proof (strtok_all_cons_length delim c' s1' Hc').
    pose proof (strtok_all_cons_length delim c' (s1' +:+ s2) Hc').
    destruct (strtok_all delim (String c' s1')); [cbn [length] in *; lia|].
    destruct (strtok_all delim (String c' (s1' +:+ s2)));
      [cbn [length] in *; lia|].
    cbn [length] in *. lia.
Qed.


Section LinesRead.
Context `{Externals}.

(** A turn of the loop adds no line to those still to come. *)
Lemma ParseRecord_lines_unread buffer st :
  (lines_unread (ParseRecord buffer st) <= lines_unread st)%nat.
Proof.
  destruct (ParseRecord_line_end buffer st) as [Hp Hs].
  unfold lines_unread, lines_of_buffer. rewrite Hs.
  apply (perforated_drop st.(save_ptr)) in Hp.
  destruct (perforated_c_str _ _ Hp) as [rest ->].
  apply strtok_all_app_length.
Qed.

(** The loop reads no more lines than the buffer has, and counts one
    error a line at most. *)
Lemma ParseRecords_lines_read fuel buffer st :
  let st' := ParseRecords fuel buffer st in
  st.(line_number) <= st'.(line_number)
  /\ st'.(line_number)
     <= st.(line_number)
        + match buffer with
          | Some _ => 1 + Z.of_nat (lines_unread st)
          | None => 0
          end
  /\ st'.(num_errors) - st.(num_errors)
     <= st'.(line_number) - st.(line_number).
Proof.
  revert buffer st. induction fuel as [|fuel IH]; intros buffer st.
  - destruct buffer; simpl; lia.
  - destruct buffer as [buffer|]; [|simpl; lia]. cbn [ParseRecords].
    set (st1 := ParseRecord buffer (next_line st)).
    pose proof (ParseRecord_line_number buffer (next_line st)) as Hl1.
    pose proof (ParseRecord_num_errors buffer (next_line st)) as Hn1.
    pose proof (ParseRecord_lines_unread buffer (next_line st)) as Hu1.
    fold st1 in Hl1, Hn1, Hu1. simpl in Hl1, Hn1.
    change (lines_unread (next_line st)) with (lines_unread st) in Hu1.
    destruct (_ <? _); [simpl; lia|].
    pose proof (strtok_r_line_lines_of_buffer (line_end st1) (save_ptr st1)
                  st1) as Hlines.
    pose proof (strtok_r_line_locals (line_end st1) (save_ptr st1) st1)
      as (_ & _ & Hl2 & Hn2 & _).
    destruct (strtok_r_line (line_end st1) (save_ptr st1) st1)
      as [buffer' st2]. cbn [fst snd] in *.
    specialize (IH buffer' st2). cbv zeta in IH.
    destruct buffer' as [buffer'|].
    + assert (lines_unread st1 = S (lines_unread st2)) as Hu2
        by (unfold lines_unread; by rewrite Hlines).
      lia.
    + lia.
Qed.

End LinesRead.

Section LoaderLog.
Context `{Externals}.

(** X11: a load counts one error a line at most, and one more when it
    rewrote terminators in the buffer; and it reads no more lines than the
    buffer has when the loop starts. *)
Theorem LoadMapFromMemory_errors_per_line m memory_buffer :
  let r := LoadMapFromMemory m memory_buffer in
  0 <= r.(lines_read)
       <= Z.of_nat (length (lines_of_buffer r.(buffer_at_loop)))
  /\ r.(errors_counted)
     <= r.(lines_read) + (if (PrepareBuffer memory_buffer).2 then 1 else 0).
Proof.
  intros r. unfold r, LoadMapFromMemory.
  destruct memory_buffer as [|c memory_buffer]; [simpl; lia|].
  cbn [length Nat.eqb].
  destruct (PrepareBuffer (c :: memory_buffer)) as [[b l] h]. simpl.
  set (st0 := if h then _ else _).
  assert (line_number st0 = 0) as Hz by (unfold st0; by destruct h).
  assert (num_errors st0 = if h then 1 else 0) as Hn
    by (unfold st0; by destruct h).
  unfold ParseLines.
  pose proof (strtok_r_line_lines_of_buffer b 0 st0) as Hlines.
  pose proof (strtok_r_line_locals b 0 st0) as (_ & _ & Hl1 & Hn1 & _).
  destruct (strtok_r_line b 0 st0) as [buffer st1]. cbn [fst snd] in *.
  pose proof (ParseRecords_lines_read (length b) buffer st1) as Hread.
  cbv zeta in Hread. rewrite drop_0 in Hlines.
  destruct buffer as [buffer|].
  - rewrite Hlines. unfold lines_unread in Hread. cbn [length].
    destruct h; lia.
  - destruct h; lia.
Qed.

Lemma LogParseError_log_is_capped message at_line st :
  log_is_capped st -> log_is_capped (LogParseError message at_line st).
Proof.
  unfold log_is_capped, LogParseError, kMaxErrorsPrinted.
  intros [Hpos Hlen]. simpl. split; [lia|].
  destruct (num_errors st + 1 <=? 5) eqn:E.
  - destruct (0 <? at_line); unfold push_back; rewrite length_app;
      simpl; lia.
  - lia.
Qed.

Lemma ParseRecord_log_is_capped buffer st :
  log_is_capped st -> log_is_capped (ParseRecord buffer st).
Proof.
  intros Hst.
  destruct (ParseRecord_cases buffer st)
    as [[Hn Hl]|(message & Hn & Hl & _)].
  - unfold log_is_capped in *. by rewrite Hn, Hl.
  - pose proof (LogParseError_log_is_capped message st.(line_number) st Hst)
      as Hc.
    unfold log_is_capped in *. rewrite Hn, Hl.
    by destruct (LogParseError_counts message st.(line_number) st)
      as (<- & _).
Qed.

(** [strtok_r] at the end of the lines stays there. *)
Lemma strtok_r_line_end memory s st :
  (strtok_r_line memory s st).1 = None ->
  let st' := (strtok_r_line memory s st).2 in
  strtok_r_line st'.(line_end) st'.(save_ptr) st' = (None, st').
Proof.
  unfold strtok_r_line, strtok_r_at.
  set (p := (s + strspn (drop s memory) kLineBreaks)%nat) in *.
  destruct (Ascii.eqb (byte_at memory p) NUL) eqn:Hp.
  2: { destruct (Ascii.eqb (byte_at memory (p + _)) NUL); cbn [fst]; done. }
  intros _. simpl.
  assert (strspn (drop p memory) kLineBreaks = 0%nat) as Hz.
  { unfold byte_at in Hp. rewrite <- (Nat.add_0_r p), <- lookup_drop in Hp.
    destruct (drop p memory) as [|c l]; [done|]. simpl in *.
    by rewrite Hp. }
  rewrite !drop_0, Hz. simpl.
  replace (byte_at (drop p memory) 0) with (byte_at memory p)
    by (rewrite byte_at_drop; f_equal; lia).
  rewrite Hp. simpl. done.
Qed.

(** The turns of the loop follow one another. *)
Lemma ParseAll_add j i st :
  ParseAll (j + i) st = ParseAll i (ParseAll j st).
Proof.
  revert st. induction j as [|j IH]; intros st; [done|].
  cbn [Nat.add ParseAll].
  pose proof (strtok_r_line_end st.(line_end) st.(save_ptr) st) as Hend.
  destruct (strtok_r_line (line_end st) (save_ptr st) st)
    as [[buffer|] st'] eqn:Hst; [apply IH|].
  specialize (Hend eq_refl). cbn [snd] in Hend.
  clear IH. induction i as [|i IHi]; [done|].
  cbn [ParseAll]. by rewrite Hend.
Qed.

(** One turn: the line that comes next is handled, with its number. *)
Lemma ParseAll_S j st :
  ParseAll (S j) st
  = match strtok_r_line (ParseAll j st).(line_end) (ParseAll j st).(save_ptr)
            (ParseAll j st) with
    | (Some buffer, st') => ParseRecord buffer (next_line st')
    | (None, st') => st'
    end.
Proof.
  replace (S j) with (j + 1)%nat by lia. rewrite ParseAll_add.
  cbn [ParseAll]. by destruct (strtok_r_line _ _ _) as [[buffer|] st'].
Qed.

Lemma ParseAll_log_is_capped k st :
  log_is_capped st -> log_is_capped (ParseAll k st).
Proof.
  intros Hst. induction k as [|k IH]; [done|]. rewrite ParseAll_S.
  destruct (strtok_r_line_locals (ParseAll k st).(line_end)
              (ParseAll k st).(save_ptr) (ParseAll k st))
    as (_ & _ & _ & Hn & Hl).
  destruct (strtok_r_line _ _ (ParseAll k st)) as [[buffer|] st'];
    cbn [snd] in *.
  - apply ParseRecord_log_is_capped. unfold log_is_capped in *. simpl.
    by rewrite Hn, Hl.
  - unfold log_is_capped in *. by rewrite Hn, Hl.
Qed.

(** What a turn adds to the log: nothing, or the message of the one
    error of its line, under the number of that line, when that error is
    one of the first five. *)
Lemma ParseAll_log_step j st :
  0 <= st.(line_number) ->
  exists message,
    (ParseAll (S j) st).(log)
    = (ParseAll j st).(log)
      ++ (if ((ParseAll j st).(num_errors) <? (ParseAll (S j) st).(num_errors))
             && ((ParseAll (S j) st).(num_errors) <=? kMaxErrorsPrinted)
          then [[Text "Line ";
                 Number ((ParseAll j st).(line_number) + 1);
                 Text ": "; Text message]]
          else []).
Proof.
  intros Hpos. rewrite ParseAll_S.
  pose proof (ParseAll_line_number j st) as Hline.
  destruct (strtok_r_line_locals (ParseAll j st).(line_end)
              (ParseAll j st).(save_ptr) (ParseAll j st))
    as (_ & _ & Hl & Hn & Hlog).
  destruct (strtok_r_line _ _ (ParseAll j st)) as [[buffer|] st'];
    cbn [snd] in *.
  2: { exists EmptyString. rewrite Hn, Hlog.
       replace (_ <? _) with false by (symmetry; apply Z.ltb_ge; lia).
       by rewrite app_nil_r. }
  destruct (ParseRecord_cases buffer (next_line st'))
    as [[Hn' Hl']|(message & Hn' & Hl' & _)]; simpl in Hn', Hl'.
  - exists EmptyString. rewrite Hn', Hl', Hn, Hlog.
    replace (_ <? _) with false by (symmetry; apply Z.ltb_ge; lia).
    by rewrite app_nil_r.
  - exists message. rewrite Hn', Hl', Hn, Hlog, Hl.
    replace (num_errors (ParseAll j st) <? num_errors (ParseAll j st) + 1)
      with true by (symmetry; apply Z.ltb_lt; lia).
    replace (0 <? line_number (ParseAll j st) + 1)
      with true by (symmetry; apply Z.ltb_lt; lia).
    simpl.
    destruct (num_errors (ParseAll j st) + 1 <=? kMaxErrorsPrinted);
      [by unfold push_back|by rewrite app_nil_r].
Qed.

Lemma ParseAll_log_prefix j i st :
  (ParseAll j st).(log) `prefix_of` (ParseAll (j + i) st).(log).
Proof.
  rewrite ParseAll_add. generalize (ParseAll j st). clear.
  intros st. induction i as [|i IH]; [done|].
  etrans; [exact IH|]. rewrite ParseAll_S.
  destruct (strtok_r_line_locals (ParseAll i st).(line_end)
              (ParseAll i st).(save_ptr) (ParseAll i st))
    as (_ & _ & _ & _ & Hlog).
  destruct (strtok_r_line _ _ (ParseAll i st)) as [[buffer|] st'];
    cbn [snd] in *; [|by rewrite Hlog].
  destruct (ParseRecord_cases buffer (next_line st'))
    as [[_ Hl']|(message & _ & Hl' & _)]; simpl in Hl'; rewrite Hl', Hlog.
  - done.
  - repeat case_match; try done; by apply prefix_app_r.
Qed.

(** X10: what a load of a buffer that is not empty logs. The messages
    are those of the first five errors counted and of no other, each given
    when its line is handled and under the number of that line; then, when
    the loop stopped above 100 errors, the message that says so; then the
    total. After [j] lines the log holds the messages of the errors counted
    so far, up to five. The empty buffer logs nothing. *)
Theorem LoadMapFromMemory_logs_five_errors m memory_buffer :
  let r := LoadMapFromMemory m memory_buffer in
  let st := LoadState_at_loop m memory_buffer in
  let logged (num_errors : Z) :=
    Z.to_nat (Z.min num_errors kMaxErrorsPrinted) in
  exists errors : list Message,
    r.(messages)
    = match memory_buffer with
      | [] => []
      | _ =>
          errors
          ++ (if kMaxErrorsBeforeBailing <? r.(errors_counted)
              then [stopped_message] else [])
          ++ [total_message r.(errors_counted)]
      end
    /\ length errors = logged r.(errors_counted)
    /\ (forall j : nat,
          (j <= Z.to_nat r.(lines_read))%nat ->
          (ParseAll j st).(log)
          = take (logged (ParseAll j st).(num_errors)) errors)
    /\ (forall j : nat,
          exists message,
            (ParseAll (S j) st).(log)
            = (ParseAll j st).(log)
              ++ (if ((ParseAll j st).(num_errors)
                      <? (ParseAll (S j) st).(num_errors))
                     && ((ParseAll (S j) st).(num_errors)
                         <=? kMaxErrorsPrinted)
                  then [[Text "Line ";
                         Number ((ParseAll j st).(line_number) + 1);
                         Text ": "; Text message]]
                  else [])).
Proof.
  intros r st logged.
  assert (log_is_capped st) as Hcapped.
  { unfold st, LoadState_at_loop, log_is_capped.
    destruct (PrepareBuffer memory_buffer).2; simpl; split; done. }
  assert (0 <= line_number st) as Hpos.
  { unfold st, LoadState_at_loop.
    destruct (PrepareBuffer memory_buffer).2; simpl; lia. }
  assert (forall k j, (j <= k)%nat ->
            log (ParseAll j st)
            = take (logged (num_errors (ParseAll j st)))
                (log (ParseAll k st))) as Htake.
  { intros k j Hj.
    destruct (ParseAll_log_prefix j (k - j) st) as [more Hmore].
    replace (j + (k - j))%nat with k in Hmore by lia.
    destruct (ParseAll_log_is_capped j st Hcapped) as [_ Hlen].
    rewrite Hmore. unfold logged. rewrite <- Hlen, Nat2Z.id.
    by rewrite take_app_length. }
  destruct memory_buffer as [|c memory_buffer].
  - exists []. split; [done|]. split; [done|]. split.
    + intros j Hj. replace j with 0%nat by (simpl in Hj; lia).
      by rewrite take_nil.
    + intros j. by apply ParseAll_log_step.
  - pose proof (ParseLines_at_loop m (c :: memory_buffer)) as Hloop.
    fold st in Hloop.
    unfold r, LoadMapFromMemory. cbn [length Nat.eqb].
    destruct (PrepareBuffer (c :: memory_buffer)) as [[b l] h].
    cbv zeta in Hloop.
    destruct Hloop as (Heq & Hun & Herr & Hline & _).
    destruct (ParseRecords_prefix (length b) st) as (k & Hk & Hbelow & Hend);
      [lia|].
    cbv zeta in Hk, Hend. rewrite <- Heq in Hend.
    repeat match goal with
           | |- context [ParseLines b ?s] =>
               progress change s with
                 (if h then
                    LogParseError null_terminator_message 0 (LoadState_init m)
                  else LoadState_init m)
           end.
    cbn [LoadMapFromMemory_finish lines_read errors_counted messages BPLOG
           set_log num_errors line_number log].
    destruct (ParseAll_log_is_capped k st Hcapped) as [Hn0 Hlen].
    exists (log (ParseAll k st)).
    assert (length (log (ParseAll k st))
            = logged (num_errors (ParseAll k st))) as Hlen'
      by (unfold logged; rewrite <- Hlen; by rewrite Nat2Z.id).
    destruct Hend as [(Hleft & Hle & Hfin)|(Hk1 & Habove & Hfin)];
      rewrite Hfin.
    + destruct (strtok_r_line_locals (line_end (ParseAll k st))
                  (save_ptr (ParseAll k st)) (ParseAll k st))
        as (_ & _ & Hl & Hn & Hlog).
      rewrite Hl, Hn, Hlog.
      assert (num_errors (ParseAll k st) <= kMaxErrorsBeforeBailing) as Hcap.
      { destruct k as [|k]; [|apply Hle; lia].
        cbn [ParseAll]. rewrite Herr. destruct h; done. }
      replace (kMaxErrorsBeforeBailing <? num_errors (ParseAll k st))
        with false by (symmetry; by apply Z.ltb_ge).
      split; [done|]. split; [done|]. split.
      * intros j Hj. apply Htake. lia.
      * intros j. by apply ParseAll_log_step.
    + cbn [BPLOG set_log log num_errors line_number].
      replace (kMaxErrorsBeforeBailing <? num_errors (ParseAll k st))
        with true by (symmetry; by apply Z.ltb_lt).
      split; [unfold push_back; by rewrite <- !app_assoc|].
      split; [done|]. split.
      * intros j Hj. apply Htake. lia.
      * intros j. by apply ParseAll_log_step.
Qed.

End LoaderLog.

(** ** Records *)

Lemma prefix_cons_inv a s1 s2 :
  String.prefix (String a s1) s2 = true ->
  exists s2', s2 = String a s2' /\ String.prefix s1 s2' = true.
Proof.
  destruct s2 as [|b s2]; simpl; [done|].
  destruct (ascii_dec a b) as [->|]; [|done]. eauto.
Qed.

Section RecordsMore.
Context `{Externals}.

(** X13: a [MODULE] line and an [INFO] line change nothing: not the
    module, not the count of errors, and not the function that the lines
    after them belong to. *)
Theorem MODULE_and_INFO_lines_are_ignored buffer st :
  String.prefix "MODULE " buffer = true
  \/ String.prefix "INFO " buffer = true ->
  ParseRecord buffer st = st.
Proof.
  intros [Hp|Hp]; apply prefix_cons_inv in Hp as (rest & -> & Hp).
  - unfold ParseRecord.
    change (String.prefix "MODULE " (String "M" rest))
      with (String.prefix "ODULE " rest).
    by rewrite Hp.
  - apply prefix_cons_inv in Hp as (rest' & -> & Hp).
    apply prefix_cons_inv in Hp as (rest'' & -> & Hp).
    apply prefix_cons_inv in Hp as (rest3 & -> & Hp).
    apply prefix_cons_inv in Hp as (rest4 & -> & Hp).
    unfold ParseRecord. simpl String.prefix. by rewrite Hp.
Qed.

(** X14: a [PUBLIC] record of address 0 is taken as read: it is no error
    and stores nothing; like every [PUBLIC] line it ends the current
    function. *)
Theorem PUBLIC_at_address_0_is_dropped buffer st stack_param_size name :
  String.prefix "PUBLIC " buffer = true ->
  SymbolParseHelper.ParsePublicSymbol buffer
  = Some (0, stack_param_size, name) ->
  ParseRecord buffer st = set_cur_func st None.
Proof.
  intros Hp Hparse.
  unfold ParseRecord, ParsePublicSymbol. rewrite Hparse.
  apply prefix_cons_inv in Hp as (rest & -> & Hp).
  apply prefix_cons_inv in Hp as (rest1 & -> & Hp).
  apply prefix_cons_inv in Hp as (rest2 & -> & Hp).
  apply prefix_cons_inv in Hp as (rest3 & -> & Hp).
  apply prefix_cons_inv in Hp as (rest4 & -> & Hp).
  apply prefix_cons_inv in Hp as (rest5 & -> & Hp).
  apply prefix_cons_inv in Hp as (rest6 & -> & Hp).
  simpl String.prefix. rewrite Hp. by destruct st.
Qed.

End RecordsMore.

(** X15: of the [FILE] records of one index the first gives the name:
    [ParseFile] stores the name of a new index and keeps the name of an
    index that is there, and touches no other index. *)
Theorem ParseFile_keeps_the_first_name m file_line index filename :
  SymbolParseHelper.ParseFile file_line = Some (index, filename) ->
  let m' := (ParseFile m file_line).2 in
  (ParseFile m file_line).1 = true
  /\ m'.(files_) !! index = Some (default filename (m.(files_) !! index))
  /\ (forall other, other <> index ->
        m'.(files_) !! other = m.(files_) !! other).
Proof.
  intros Hparse. unfold ParseFile. rewrite Hparse. simpl.
  destruct (files_ m !! index) as [old|] eqn:Hold; simpl.
  - by rewrite Hold.
  - split; [done|]. split; [by rewrite lookup_insert_eq|].
    intros other Hne. by rewrite lookup_insert_ne.
Qed.

Lemma MODULE_and_INFO_lines_are_ignored_witness :
  ParseRecord (H := sample_externals) "INFO CODE_ID 1234 m" state_in_function
  = state_in_function.
Proof.
  apply (MODULE_and_INFO_lines_are_ignored (H := sample_externals)).
  right. reflexivity.
Defined.

Lemma PUBLIC_at_address_0_is_dropped_witness :
  ParseRecord (H := sample_externals) "PUBLIC 0 4 g h" state_in_function
  = LoadState_init new_Module.
Proof.
  apply (PUBLIC_at_address_0_is_dropped (H := sample_externals)
           "PUBLIC 0 4 g h" state_in_function 4 "g h");
    vm_compute; reflexivity.
Defined.

Lemma ParseFile_keeps_the_first_name_witness :
  let m := (ParseFile new_Module
              "FILE 12 some file.c").2 in
  (ParseFile m "FILE 12 other.c").1 = true
  /\ (ParseFile m "FILE 12 other.c").2.(files_) !! 12 = Some "some file.c".
Proof.
  intros m.
  destruct (ParseFile_keeps_the_first_name m "FILE 12 other.c" 12 "other.c"
              eq_refl) as (Hok & Hname & _).
  split; [exact Hok|exact Hname].
Defined.

(** ** The buffer after the pass *)

Lemma PrepareBuffer_spec (memory_buffer : list ascii) :
  memory_buffer <> [] ->
  let size := length memory_buffer in
  let terminated := <[(size - 1)%nat := NUL]> memory_buffer in
  let '(b, l, h) := PrepareBuffer memory_buffer in
  (l <= size - 1)%nat
  /\ (forall j, (l <= j < size)%nat -> terminated !! j = Some NUL)
  /\ (l = 0%nat \/ exists c, terminated !! (l - 1)%nat = Some c /\ c <> NUL)
  /\ length b = size
  /\ (forall j c,
        terminated !! j = Some c ->
        b !! j
        = Some (if (j <? l)%nat && Ascii.eqb c NUL then "_"%char else c))
  /\ (h = true <-> exists j, (j < l)%nat /\ terminated !! j = Some NUL).
Proof.
  intros Hne size terminated. unfold PrepareBuffer. fold size terminated.
  assert (0 < size)%nat by (unfold size; destruct memory_buffer; [done|simpl; lia]).
  assert (length terminated = size) as Hlen
    by (unfold terminated; by rewrite length_insert).
  assert (terminated !! (size - 1)%nat = Some NUL) as Hlast
    by (unfold terminated; apply list_lookup_insert_eq; lia).
  destruct (skip_null_terminators_spec terminated (size - 1))
    as (Hle & Hrun & Hstop); [lia|].
  set (l := skip_null_terminators terminated (size - 1)) in *.
  destruct (replace_null_terminators_spec terminated l)
    as (Hlen' & Hget & Hflag); [lia|].
  destruct (replace_null_terminators terminated l) as [b h]. simpl in *.
  split; [done|]. split.
  { intros j Hj. destruct (decide (j = size - 1)%nat) as [->|]; [done|].
    apply Hrun. lia. }
  split; [done|]. split; [lia|]. split; done.
Qed.

Lemma c_str_app (s rest : list ascii) :
  NUL ∉ s -> c_str (s ++ NUL :: rest) = string_of_list_ascii s.
Proof.
  induction s as [|c s IH]; intros Hs; simpl; [done|].
  apply not_elem_of_cons in Hs as [Hc Hs].
  replace (Ascii.eqb c NUL) with false
    by (symmetry; apply Ascii.eqb_neq; congruence).
  by rewrite IH.
Qed.

Section BufferMore.
Context `{Externals}.

(** X16: the pass over the terminators hands the loop over the lines a
    buffer that holds one string and nothing after it. When the loop
    starts, a buffer that is not empty has kept its length, its last byte
    is a terminator, every byte after a terminator is one too, and no byte
    but the last and the terminators has changed. *)
Theorem LoadMapFromMemory_terminates_the_buffer m memory_buffer :
  memory_buffer <> [] ->
  let size := length memory_buffer in
  let b := (LoadMapFromMemory m memory_buffer).(buffer_at_loop) in
  length b = size
  /\ b !! (size - 1)%nat = Some NUL
  /\ (forall i j,
        (i <= j < size)%nat -> b !! i = Some NUL -> b !! j = Some NUL)
  /\ (forall i c,
        (i < size - 1)%nat -> memory_buffer !! i = Some c -> c <> NUL ->
        b !! i = Some c).
Proof.
  intros Hne size b. subst b. unfold LoadMapFromMemory.
  pose proof (PrepareBuffer_spec memory_buffer Hne) as Hspec.
  cbv zeta in Hspec. fold size in Hspec.
  replace (length memory_buffer =? 0)%nat with false
    by (symmetry; apply Nat.eqb_neq; by destruct memory_buffer).
  destruct (PrepareBuffer memory_buffer) as [[b l] h]. simpl.
  destruct Hspec as (Hle & Hrun & Hstop & Hlen & Hget & _).
  assert (forall j, (l <= j < size)%nat -> b !! j = Some NUL) as Htail.
  { intros j Hj. rewrite (Hget j NUL) by (by apply Hrun).
    by replace (j <? l)%nat with false by (symmetry; apply Nat.ltb_ge; lia). }
  assert (0 < size)%nat
    by (unfold size; destruct memory_buffer; [done|simpl; lia]).
  split; [done|]. split; [apply Htail; lia|]. split.
  - intros i j Hij Hi. apply Htail.
    destruct (decide (l <= i)%nat) as [|Hlt]; [lia|]. exfalso.
    destruct (lookup_lt_is_Some_2 (<[(size - 1)%nat := NUL]> memory_buffer) i)
      as [c Hc]; [rewrite length_insert; unfold size in *; lia|].
    rewrite (Hget i c Hc) in Hi.
    replace (i <? l)%nat with true in Hi
      by (symmetry; apply Nat.ltb_lt; lia).
    simpl in Hi. destruct (Ascii.eqb c NUL) eqn:E.
    + injection Hi as Hi. discriminate.
    + injection Hi as ->. by apply Ascii.eqb_neq in E.
  - intros i c Hi Hc Hnul.
    rewrite (Hget i c).
    + replace (Ascii.eqb c NUL) with false
        by (symmetry; by apply Ascii.eqb_neq).
      by rewrite andb_false_r.
    + rewrite list_lookup_insert_ne by lia. done.
Qed.

(** X17: the last byte of the buffer is never read. [LoadMapFromMemory]
    writes a terminator over it before it reads anything, so that the load
    is the same whatever that byte is: a last line with no line break after
    it loses its last character. *)
Theorem LoadMapFromMemory_drops_the_last_byte m (text : list ascii) c c' :
  LoadMapFromMemory m (text ++ [c]) = LoadMapFromMemory m (text ++ [c']).
Proof.
  assert (forall x, PrepareBuffer (text ++ [x]) = PrepareBuffer (text ++ [NUL]))
    as Hprepare.
  { intros x. unfold PrepareBuffer. rewrite !length_app. simpl.
    replace (length text + 1 - 1)%nat with (length text + 0)%nat by lia.
    by rewrite !insert_app_r. }
  unfold LoadMapFromMemory. rewrite !length_app. simpl.
  replace (length text + 1 =? 0)%nat with false
    by (symmetry; apply Nat.eqb_neq; lia).
  by rewrite (Hprepare c), (Hprepare c').
Qed.

End BufferMore.

(** The file name of [FILE 1 a.c], with no line break after it, is
    [a.]. *)
Example last_line_loses_its_last_character :
  (LoadMapFromMemory (H := sample_externals) new_Module
     (list_ascii_of_string "FILE 1 a.c")).(loaded).(files_) !! 1
  = Some "a.".
Proof. vm_compute. reflexivity. Qed.

(** ** Lines *)




Lemma LoadMapFromMemory_terminates_the_buffer_witness :
  let b := (LoadMapFromMemory (H := sample_externals) new_Module
              buffer_with_nulls).(buffer_at_loop) in
  length b = length buffer_with_nulls
  /\ b !! (length buffer_with_nulls - 1)%nat = Some NUL.
Proof.
  intros b.
  destruct (LoadMapFromMemory_terminates_the_buffer (H := sample_externals)
              new_Module buffer_with_nulls ltac:(discriminate))
    as (Hlen & Hlast & _).
  split; [exact Hlen|exact Hlast].
Defined.

(** ** Numbers and tokens *)

Lemma digit_value_nonneg c d : digit_value c = Some d -> 0 <= d.
Proof.
  unfold digit_value, in_range. intros Hd.
  repeat match type of Hd with
         | (if ?b then _ else _) = _ => destruct b eqn:?
         end; simplify_eq; lia.
Qed.

Lemma read_digits_nonneg base s acc any :
  0 <= base -> 0 <= acc -> 0 <= (read_digits base s acc any).1.1.
Proof.
  intros Hbase. revert acc any.
  induction s as [|c s IH]; intros acc any Hacc; simpl; [done|].
  destruct (digit_value c) as [d|] eqn:Hd; [|done].
  apply digit_value_nonneg in Hd.
  destruct (d <? base); [|done]. apply IH. nia.
Qed.

Lemma scan_number_nonneg base s negative magnitude rest :
  0 <= base ->
  scan_number base s = Some (negative, magnitude, rest) -> 0 <= magnitude.
Proof.
  intros Hbase. unfold scan_number.
  destruct (match skip_delims _ s with
            | String "-" r => (true, r)
            | String "+" r => (false, r)
            | _ => _
            end) as [neg s2].
  match goal with
  | |- context [read_digits base ?s3 0 false] =>
      pose proof (read_digits_nonneg base s3 0 false Hbase ltac:(done)) as Hr;
      destruct (read_digits base s3 0 false) as [[v any] r]
  end.
  simpl in Hr. destruct any; intros; simplify_eq. done.
Qed.

Lemma strtoull_range s base :
  0 <= base -> 0 <= (strtoull s base).1 <= UINT64_MAX.
Proof.
  intros Hbase. unfold strtoull.
  destruct (scan_number base s) as [[[negative magnitude] rest]|] eqn:Hs.
  - apply scan_number_nonneg in Hs; [|done].
    destruct (UINT64_MAX <? magnitude) eqn:E; simpl.
    + unfold UINT64_MAX. lia.
    + apply Z.ltb_ge in E. destruct negative; [|lia].
      unfold u64, UINT64_MAX.
      pose proof (Z.mod_pos_bound (- magnitude) (2 ^ 64) ltac:(lia)). lia.
  - simpl. unfold UINT64_MAX. lia.
Qed.

Lemma strtol_range s base :
  0 <= base -> LONG_MIN <= (strtol s base).1 <= LONG_MAX.
Proof.
  intros Hbase. unfold strtol.
  destruct (scan_number base s) as [[[negative magnitude] rest]|] eqn:Hs.
  - apply scan_number_nonneg in Hs; [|done].
    destruct negative.
    + destruct (- magnitude <? LONG_MIN) eqn:E; simpl.
      * unfold LONG_MIN, LONG_MAX. lia.
      * apply Z.ltb_ge in E. unfold LONG_MIN, LONG_MAX in *. lia.
    + destruct (LONG_MAX <? magnitude) eqn:E; simpl.
      * unfold LONG_MIN, LONG_MAX. lia.
      * apply Z.ltb_ge in E. unfold LONG_MIN, LONG_MAX in *. lia.
  - simpl. unfold LONG_MIN, LONG_MAX. lia.
Qed.

Lemma skip_delims_head delim s c r :
  skip_delims delim s = String c r -> strchr delim c = false.
Proof.
  induction s as [|x s IH]; simpl; [done|].
  destruct (strchr delim x) eqn:E; [done|]. intros. by simplify_eq.
Qed.

Lemma strtok_r_token delim s token rest :
  strtok_r delim s = Some (token, rest) -> token <> EmptyString.
Proof.
  unfold strtok_r. destruct (skip_delims delim s) as [|c r] eqn:Hs; [done|].
  apply skip_delims_head in Hs. simpl. rewrite Hs.
  destruct (take_token delim r). intros. by simplify_eq.
Qed.

Lemma Tokenize_loop_tokens fuel separators remaining line :
  Forall (fun token => token <> EmptyString)
    (Tokenize_loop fuel separators remaining line).
Proof.
  revert remaining line.
  induction fuel as [|fuel IH]; intros remaining line; simpl; [constructor|].
  destruct (remaining <=? 0); [constructor|].
  destruct (remaining =? 1).
  - destruct line; [constructor|]. by repeat constructor.
  - destruct (strtok_r separators line) as [[token rest]|] eqn:Ht;
      [|constructor].
    constructor; [by eapply strtok_r_token|]. apply IH.
Qed.

Lemma Tokenize_tokens line separators max_tokens :
  Forall (fun token => token <> EmptyString)
    (Tokenize line separators max_tokens).2.
Proof. apply Tokenize_loop_tokens. Qed.

(** ** Records *)

Lemma ParseLocOps_length loc_exp locs :
  SymbolParseHelper.ParseLocOps loc_exp = Some locs ->
  length locs = length loc_exp.
Proof.
  revert locs. induction loc_exp as [|e loc_exp IH]; intros locs.
  - simpl. intros. by simplify_eq.
  - cbn [SymbolParseHelper.ParseLocOps]. intros Hp.
    apply bind_Some in Hp as (token0 & _ & Hp).
    destruct (strtoull token0 16) as [o after_number].
    destruct (SymbolParseHelper.not_at_end after_number); [done|].
    apply bind_Some in Hp as (ops & Hops & Hp).
    simplify_eq. simpl. by rewrite (IH ops).
Qed.

Lemma ParseFuncParam_locs pv params :
  Forall (fun p => p.(FuncParam.locs) <> []) params ->
  Forall (fun p => p.(FuncParam.locs) <> [])
    (SymbolParseHelper.ParseFuncParam pv params).
Proof.
  revert params. induction pv as [|a pv IH]; intros params Hp; [done|].
  cbn [SymbolParseHelper.ParseFuncParam].
  destruct (Tokenize a "@" 4) as [ok args].
  destruct ok; [|constructor].
  destruct args as [|typeName [|typeSize [|paramName [|locExpr [|]]]]];
    try constructor.
  destruct (strtoull typeSize 16) as [size after_number].
  destruct ((Tokenize locExpr "$" (2 ^ 31 - 1)).2) as [|e loc_exp] eqn:Hl;
    [done|].
  destruct (SymbolParseHelper.ParseLocOps (e :: loc_exp)) as [locs|] eqn:Hlocs;
    [|constructor].
  apply IH. unfold push_back. apply Forall_app. split; [done|].
  constructor; [|constructor]. simpl.
  apply ParseLocOps_length in Hlocs. by destruct locs.
Qed.

Lemma SymbolParseHelper_ParseFunction_range function_line address size
    stack_param_size name params :
  SymbolParseHelper.ParseFunction function_line
  = Some (address, size, stack_param_size, name, params) ->
  0 <= address < UINT64_MAX
  /\ 0 <= size < UINT64_MAX
  /\ 0 <= stack_param_size < LONG_MAX
  /\ name <> EmptyString
  /\ Forall (fun p => p.(FuncParam.locs) <> []) params.
Proof.
  unfold SymbolParseHelper.ParseFunction.
  set (segments := (Tokenize _ "#" 3).2).
  intros Hp. apply bind_Some in Hp as (segment0 & _ & Hp). revert Hp.
  pose proof (Tokenize_tokens segment0 kWhitespace 4) as Htokens.
  destruct (Tokenize segment0 kWhitespace 4) as [ok tokens].
  destruct ok; [|done].
  destruct tokens as [|token0 [|token1 [|token2 [|name' [|]]]]]; try done.
  pose proof (strtoull_range token0 16 ltac:(done)) as Ha.
  destruct (strtoull token0 16) as [a after0].
  destruct (negb _ || (a =? UINT64_MAX)) eqn:Ea; [done|].
  pose proof (strtoull_range token1 16 ltac:(done)) as Hs.
  destruct (strtoull token1 16) as [s after1].
  destruct (negb _ || (s =? UINT64_MAX)) eqn:Es; [done|].
  pose proof (strtol_range token2 16 ltac:(done)) as Hp.
  destruct (strtol token2 16) as [p after2].
  destruct (negb _ || (p =? LONG_MAX) || (p <? 0)) eqn:Ep; [done|].
  match goal with
  | |- Some (_, _, _, _, ?ps) = _ -> _ =>
      assert (Forall (fun p => p.(FuncParam.locs) <> []) ps) as Hps
  end.
  { destruct segments as [|? [|segment1 [|segment2 [|]]]]; try constructor.
    destruct (strtoull segment1 16) as [num_params after].
    destruct (SymbolParseHelper.not_at_end after); [constructor|].
    destruct (Tokenize segment2 "#" (to_int32 num_params)) as [ok argsArray].
    destruct ok; cbn [negb]; [|constructor].
    apply ParseFuncParam_locs. constructor. }
  intros Heq. injection Heq as <- <- <- <- <-.
  apply orb_false_iff in Ea as [_ Ea%Z.eqb_neq].
  apply orb_false_iff in Es as [_ Es%Z.eqb_neq].
  apply orb_false_iff in Ep as [Ep Ep'%Z.ltb_ge].
  apply orb_false_iff in Ep as [_ Ep%Z.eqb_neq].
  cbn [fst snd] in *.
  split; [lia|]. split; [lia|]. split; [lia|]. split; [|exact Hps].
  by repeat (apply Forall_cons in Htokens as [? Htokens]).
Qed.

Lemma SymbolParseHelper_ParseLine_range line_line address size line_number
    source_file :
  SymbolParseHelper.ParseLine line_line
  = Some (address, size, line_number, source_file) ->
  0 <= address < UINT64_MAX
  /\ 0 <= size < UINT64_MAX
  /\ 0 <= line_number < LONG_MAX
  /\ 0 <= source_file < LONG_MAX.
Proof.
  unfold SymbolParseHelper.ParseLine.
  destruct (Tokenize line_line kWhitespace 4) as [ok tokens].
  destruct ok; [|done].
  destruct tokens as [|token0 [|token1 [|token2 [|token3 [|]]]]]; try done.
  pose proof (strtoull_range token0 16 ltac:(done)) as Ha.
  destruct (strtoull token0 16) as [a after0].
  destruct (negb _ || (a =? UINT64_MAX)) eqn:Ea; [done|].
  pose proof (strtoull_range token1 16 ltac:(done)) as Hs.
  destruct (strtoull token1 16) as [s after1].
  destruct (negb _ || (s =? UINT64_MAX)) eqn:Es; [done|].
  pose proof (strtol_range token2 10 ltac:(done)) as Hl.
  destruct (strtol token2 10) as [l after2].
  destruct (negb _ || (l =? LONG_MAX)) eqn:El; [done|].
  pose proof (strtol_range token3 10 ltac:(done)) as Hf.
  destruct (strtol token3 10) as [f after3].
  destruct (negb _ || (f <? 0) || (f =? LONG_MAX)) eqn:Ef; [done|].
  destruct (l <? 0) eqn:El'; [done|].
  intros Heq. injection Heq as <- <- <- <-.
  apply orb_false_iff in Ea as [_ Ea%Z.eqb_neq].
  apply orb_false_iff in Es as [_ Es%Z.eqb_neq].
  apply orb_false_iff in El as [_ El%Z.eqb_neq].
  apply orb_false_iff in Ef as [Ef Ef'%Z.eqb_neq].
  apply orb_false_iff in Ef as [_ Ef%Z.ltb_ge].
  apply Z.ltb_ge in El'. cbn [fst snd] in *. lia.
Qed.

Lemma SymbolParseHelper_ParsePublicSymbol_range public_line address
    stack_param_size name :
  SymbolParseHelper.ParsePublicSymbol public_line
  = Some (address, stack_param_size, name) ->
  0 <= address < UINT64_MAX
  /\ 0 <= stack_param_size < LONG_MAX
  /\ name <> EmptyString.
Proof.
  unfold SymbolParseHelper.ParsePublicSymbol.
  pose proof (Tokenize_tokens (SymbolParseHelper.skip_prefix 7 public_line)
                kWhitespace 3) as Htokens.
  destruct (Tokenize _ kWhitespace 3) as [ok tokens].
  destruct ok; [|done].
  destruct tokens as [|token0 [|token1 [|name' [|]]]]; try done.
  pose proof (strtoull_range token0 16 ltac:(done)) as Ha.
  destruct (strtoull token0 16) as [a after0].
  destruct (negb _ || (a =? UINT64_MAX)) eqn:Ea; [done|].
  pose proof (strtol_range token1 16 ltac:(done)) as Hp.
  destruct (strtol token1 16) as [p after1].
  destruct (negb _ || (p =? LONG_MAX) || (p <? 0)) eqn:Ep; [done|].
  intros Heq. injection Heq as <- <- <-.
  apply orb_false_iff in Ea as [_ Ea%Z.eqb_neq].
  apply orb_false_iff in Ep as [Ep Ep'%Z.ltb_ge].
  apply orb_false_iff in Ep as [_ Ep%Z.eqb_neq].
  cbn [fst snd] in *. split; [lia|]. split; [lia|].
  simpl in Htokens. by repeat (apply Forall_cons in Htokens as [? Htokens]).
Qed.

Lemma SymbolParseHelper_ParseFile_range file_line index filename :
  SymbolParseHelper.ParseFile file_line = Some (index, filename) ->
  0 <= index < LONG_MAX /\ filename <> EmptyString.
Proof.
  unfold SymbolParseHelper.ParseFile.
  pose proof (Tokenize_tokens (SymbolParseHelper.skip_prefix 5 file_line)
                kWhitespace 2) as Htokens.
  destruct (Tokenize _ kWhitespace 2) as [ok tokens].
  destruct ok; [|done]. cbn [negb]. intros Hp.
  apply bind_Some in Hp as (token0 & H0 & Hp).
  apply bind_Some in Hp as (filename' & H1 & Hp). revert Hp.
  pose proof (strtol_range token0 10 ltac:(done)) as Hi.
  destruct (strtol token0 10) as [i after].
  destruct (negb _ || (i <? 0) || (i =? LONG_MAX)) eqn:Ei; [done|].
  intros Heq. injection Heq as <- <-.
  apply orb_false_iff in Ei as [Ei Ei'%Z.eqb_neq].
  apply orb_false_iff in Ei as [_ Ei%Z.ltb_ge].
  cbn [fst snd] in *. split; [lia|].
  simpl in Htokens. eapply Forall_lookup_1 in Htokens; [|exact H1]. done.
Qed.

(** ** The module under construction *)

Lemma ParseFunction_range function_line f :
  ParseFunction function_line = Some f -> well_formed_function f.
Proof.
  unfold ParseFunction. intros Hp.
  apply bind_Some in Hp as ([[[[address size] stack_param_size] name] params]
                            & Hp & Hf).
  apply SymbolParseHelper_ParseFunction_range in Hp.
  injection Hf as <-. unfold well_formed_function. simpl.
  destruct Hp as (? & ? & ? & ? & ?). repeat split; try done; try lia.
Qed.

Lemma ParseLine_range line_line line :
  ParseLine line_line = Some line ->
  well_formed_line
    (RangeMap.mkRange line.(Line.address) line.(Line.size) line).
Proof.
  unfold ParseLine. intros Hp.
  apply bind_Some in Hp as ([[[address size] line_number] source_file]
                            & Hp & Hl).
  apply SymbolParseHelper_ParseLine_range in Hp.
  injection Hl as <-. unfold well_formed_line. simpl.
  destruct Hp as (? & ? & ? & ?). repeat split; try done; try lia.
Qed.

Lemma add_line_well_formed f line :
  well_formed_function f ->
  well_formed_line
    (RangeMap.mkRange line.(Line.address) line.(Line.size) line) ->
  well_formed_function (add_line f line).
Proof.
  intros (? & ? & ? & ? & ? & Hlines) Hline.
  unfold well_formed_function, add_line. simpl.
  repeat split; try done; try lia.
  unfold RangeMap.StoreRange.
  destruct (_ || _); simpl; [done|]. by constructor.
Qed.

Section WellFormed.
Context `{Externals}.

Lemma LogParseError_well_formed message at_line st :
  well_formed_state st ->
  well_formed_state (LogParseError message at_line st).
Proof. done. Qed.

Lemma ParseRecord_well_formed buffer st :
  well_formed_state st -> well_formed_state (ParseRecord buffer st).
Proof.
  intros Hst. pose proof Hst as [(Hfunctions & Hsymbols & Hfiles) Hcur].
  unfold ParseRecord.
  destruct (String.prefix "FILE " buffer).
  { assert (well_formed_state
              (set_module st (ParseFile st.(module_) buffer).2)) as Hwf.
    { split; [|done]. unfold ParseFile. simpl.
      destruct (SymbolParseHelper.ParseFile buffer) as [[index filename]|]
        eqn:Hp; [|done].
      apply SymbolParseHelper_ParseFile_range in Hp. simpl.
      destruct (files_ (module_ st) !! index) eqn:Hi; [done|].
      split; [done|]. split; [done|]. simpl. intros i name.
      destruct (decide (i = index)) as [->|Hne].
      - rewrite lookup_insert_eq. intros. by simplify_eq.
      - rewrite lookup_insert_ne by done. apply Hfiles. }
    destruct (ParseFile (module_ st) buffer) as [ok m]. simpl in Hwf.
    destruct ok; simpl; [done|]. by apply LogParseError_well_formed. }
  destruct (String.prefix "STACK " buffer).
  { match goal with
    | |- context [ParseStackInfo ?m ?mem ?s] =>
        pose proof (ParseStackInfo_index m mem s) as (Hf & Hs & Hi);
        destruct (ParseStackInfo m mem s) as [[ok m'] mem']
    end.
    cbn [fst snd] in Hf, Hs, Hi.
    assert (well_formed_state
              (set_line_end (set_module st m')
                 (drop (String.length buffer) mem'))) as Hwf.
    { split; [|done]. unfold well_formed_module. simpl.
      rewrite Hf, Hs, Hi. done. }
    destruct ok; simpl; [done|]. by apply LogParseError_well_formed. }
  destruct (String.prefix "FUNC " buffer).
  { destruct (ParseFunction buffer) as [f|] eqn:Hp.
    - apply ParseFunction_range in Hp. unfold RangeMap.StoreRange.
      destruct (_ || _); simpl.
      + split; [|done]. done.
      + split; [|done]. split; [|done]. simpl. by constructor.
    - apply LogParseError_well_formed. done. }
  destruct (String.prefix "PUBLIC " buffer).
  { assert (well_formed_state
              (set_module (set_cur_func st None)
                 (ParsePublicSymbol st.(module_) buffer).2)) as Hwf.
    { split; [|done]. unfold ParsePublicSymbol. simpl.
      destruct (SymbolParseHelper.ParsePublicSymbol buffer)
        as [[[address stack_param_size] name]|] eqn:Hp; [|done].
      apply SymbolParseHelper_ParsePublicSymbol_range in Hp
        as (Ha & Hs & Hn).
      destruct (address =? 0) eqn:E; [done|]. apply Z.eqb_neq in E.
      unfold AddressMap.Store. destruct (existsb _ _); [done|].
      split; [done|]. split; [|done]. simpl. constructor; [|done].
      unfold well_formed_symbol. simpl. repeat split; try done; lia. }
    simpl. destruct (ParsePublicSymbol (module_ st) buffer) as [ok m].
    simpl in Hwf. destruct ok; simpl; [done|].
    by apply LogParseError_well_formed. }
  destruct (String.prefix "MODULE " buffer); [done|].
  destruct (String.prefix "INFO " buffer); [done|].
  destruct (cur_func st) as [cur|] eqn:Hc;
    [|by apply LogParseError_well_formed].
  destruct (ParseLine buffer) as [line|] eqn:Hp;
    [|by apply LogParseError_well_formed].
  apply ParseLine_range in Hp. unfold store_line.
  destruct cur as [|f].
  - destruct (functions_ (module_ st)) as [|r functions] eqn:Hfs.
    + split; [|by rewrite Hc]. split; [by rewrite Hfs|done].
    + split; [|by simpl; rewrite Hc]. split; [|done]. simpl.
      apply Forall_cons in Hfunctions as [(Hb & Hs & Hf) Hrest].
      constructor; [|done]. simpl. split; [done|]. split; [done|].
      by apply add_line_well_formed.
  - split; [done|]. simpl. by apply add_line_well_formed.
Qed.

(** X19: loading keeps the index of a module well formed. After
    [LoadMapFromMemory] every function is stored under its own address
    and size, with an address and a size below 2^64 - 1, a parameter size
    and line numbers and file ids of its lines from 0 to below [LONG_MAX],
    a name that is not empty and no parameter without a location
    expression; no public symbol is stored at address 0; and no file has
    a negative id. *)
Theorem LoadMapFromMemory_well_formed m memory_buffer :
  well_formed_module m ->
  well_formed_module (LoadMapFromMemory m memory_buffer).(loaded).
Proof.
  intros Hm. unfold LoadMapFromMemory.
  destruct (length memory_buffer =? 0)%nat; [done|].
  destruct (PrepareBuffer memory_buffer) as [[b l] h]. simpl.
  match goal with
  | |- context [ParseLines b ?st] =>
      assert (well_formed_state (ParseLines b st)) as [Hwf _]
  end.
  { apply (ParseLines_invariant well_formed_state).
    - intros buffer st Hst. by apply ParseRecord_well_formed.
    - done.
    - intros memory s st [Hwf Hcur].
      destruct (strtok_r_line_locals memory s st) as (Hmod & Hc & _).
      unfold well_formed_state. by rewrite Hmod, Hc.
    - destruct h; by split. }
  exact Hwf.
Qed.

(** X20: a function that [ParseFunction] accepts has an address and a
    size below 2^64 - 1, a parameter size from 0 to below [LONG_MAX], a
    name that is not empty, and parameters that each have at least one
    operation in their location expression. *)
Theorem ParseFunction_is_in_range function_line f :
  ParseFunction function_line = Some f ->
  0 <= f.(Function.address) < UINT64_MAX
  /\ 0 <= f.(Function.size) < UINT64_MAX
  /\ 0 <= f.(Function.parameter_size) < LONG_MAX
  /\ f.(Function.name) <> EmptyString
  /\ Forall (fun p => p.(FuncParam.locs) <> []) f.(Function.params)
  /\ f.(Function.lines) = [].
Proof.
  intros Hp. pose proof (ParseFunction_range _ _ Hp) as (?&?&?&?&?&_).
  repeat split; try done; try lia.
  unfold ParseFunction in Hp.
  apply bind_Some in Hp as ([[[[? ?] ?] ?] ?] & _ & Hf). by injection Hf as <-.
Qed.

End WellFormed.

Lemma LoadMapFromMemory_well_formed_witness :
  well_formed_module
    (LoadMapFromMemory (H := sample_externals) new_Module
       sample_symbols).(loaded).
Proof.
  apply (LoadMapFromMemory_well_formed (H := sample_externals)).
  split; [constructor|]. split; [constructor|].
  intros index filename Hl. simpl in Hl. by rewrite lookup_empty in Hl.
Defined.

Lemma ParseFunction_is_in_range_witness :
  exists f,
    ParseFunction sample_function_line = Some f
    /\ 0 <= f.(Function.address) < UINT64_MAX
    /\ Forall (fun p => p.(FuncParam.locs) <> []) f.(Function.params).
Proof.
  destruct (ParseFunction sample_function_line) as [f|] eqn:Hf;
    [|vm_compute in Hf; discriminate].
  exists f. split; [reflexivity|].
  pose proof (ParseFunction_is_in_range sample_function_line f Hf)
    as (Ha & _ & _ & _ & Hp & _).
  split; [exact Ha|exact Hp].
Defined.
